(** * Quick Export Collection: the export-selection core of [__init__.py]

    A shallow embedding of the add-on's pure helpers
    ([set_excluded_collections], [find_topmost_collections],
    [get_properties_for_op], ...) and of the operator [QXC_OT_export]
    over an explicit model of the Blender state it reads and mutates. *)

From Stdlib Require Import Ascii String ZArith.
From stdpp Require Import gmap strings list.

Local Open Scope string_scope.
Local Open Scope list_scope.
Local Open Scope nat_scope.
#[local] Set Warnings "-register-all".

(** ** Scene topology *)

(** [bpy.types.Collection]: the identity of the data-block, its name and
    its child collections.  The objects linked to a collection live in the
    object store (see [Obj] below), as Blender's [users_collection]. *)
Inductive Collection := Coll {
  cid : nat;
  cname : string;
  cchildren : list Collection
}.

(** [bpy.types.LayerCollection]: the per-view-layer wrapper of a
    collection.  [collection] is the identity of the wrapped collection,
    [name] its name, [children] the wrappers of the child collections.
    The [exclude] flag is host state and is read and written through the
    host (see [Section Propagator]). *)
Inductive LayerCollection := LayerColl {
  collection : nat;
  name : string;
  children : list LayerCollection
}.

(** The layer-collection tree a view layer holds for a collection tree. *)
Fixpoint layer_collection_of (c : Collection) : LayerCollection :=
  LayerColl (cid c) (cname c) (map layer_collection_of (cchildren c)).

(** All the wrappers of a layer tree, parents before children. *)
Fixpoint lc_nodes (lc : LayerCollection) : list LayerCollection :=
  lc :: flat_map lc_nodes (children lc).

Definition lc_ids (lc : LayerCollection) : list nat :=
  map collection (lc_nodes lc).

(** [lc_reach root anc n]: [n] sits in the tree under [root], and [anc]
    lists its strict ancestors from [root] downwards. *)
Inductive lc_reach : LayerCollection → list LayerCollection → LayerCollection → Prop :=
  | lc_reach_here lc : lc_reach lc [] lc
  | lc_reach_child lc c anc n :
      c ∈ children lc → lc_reach c anc n → lc_reach lc (lc :: anc) n.

(** ** ExclusionPropagator: [set_excluded_collections] *)

Section Propagator.

(** The host: the state of the temporary view layer and the RNA setter of
    [lc.exclude].  The docstring of [set_excluded_collections] records that
    the setter also rewrites the flags of the collections below the one
    assigned (and keeps saved values the script cannot see), and that the
    function is written not to depend on it.  The setter is therefore a
    parameter of the model. *)
Context {Host : Type}.
Variable assign_exclude : LayerCollection → bool → Host → Host.

(** The function mutates the view layer in place; here the host state is
    threaded through the [for clc in lc.children] loop ([foldl]) and the
    recursive calls, in the order the source runs them: the assignment to
    [clc.exclude] first, the call on [clc] after it.  The debug prints are
    left out. *)
Fixpoint set_excluded_collections (lc : LayerCollection)
    (collection_names_not_exportable : list string)
    (collection_to_export : nat)
    (within_collection_to_export within_nonexportable : bool)
    (h : Host) {struct lc} : Host :=
  let within_collection_to_export :=
    if decide (collection lc = collection_to_export) then true
    else within_collection_to_export in
  foldl
    (fun h clc =>
       if decide (collection clc = collection_to_export) then
         set_excluded_collections clc collection_names_not_exportable
           collection_to_export true false
           (assign_exclude clc false h)
       else if within_collection_to_export then
         let tmp_wne :=
           if negb within_nonexportable then
             (if decide (name clc ∈ collection_names_not_exportable)
              then true else within_nonexportable)
           else within_nonexportable in
         set_excluded_collections clc collection_names_not_exportable
           collection_to_export true tmp_wne
           (assign_exclude clc tmp_wne h)
       else
         set_excluded_collections clc collection_names_not_exportable
           collection_to_export false false
           (assign_exclude clc true h))
    h (children lc).

End Propagator.

(** ** MergePlanner: [find_topmost_collections] *)

Fixpoint find_topmost_collections (collection_names : list string)
    (collection : Collection) : list Collection :=
  if decide (cname collection ∈ collection_names) then [collection]
  else flat_map (find_topmost_collections collection_names)
         (cchildren collection).

(** The flag the propagator leaves on the last collection of [chain], a
    chain of collections each the child of the one before, whose first one
    is visited as a child by a call that runs with the carried booleans
    [w] (within the collection to export) and [wne] (within a
    non-exportable one).  [last_flag] is the flag of the collection the
    chain has just left. *)
Fixpoint flag_along (names : list string) (cte : nat) (w wne : bool)
    (chain : list LayerCollection) (last_flag : bool) : bool :=
  match chain with
  | [] => last_flag
  | c :: rest =>
      if decide (collection c = cte) then flag_along names cte true false rest false
      else if w then
        let t := wne || bool_decide (name c ∈ names) in
        flag_along names cte true t rest t
      else flag_along names cte false false rest true
  end.

(** ** The exclude flags of a view layer

    A view layer keeps, for every layer collection, the [exclude] flag and
    the value Blender saves when a parent is excluded.  The setter follows
    what the docstring of [set_excluded_collections] reports: assigning
    [True] also sets every collection below to [True] and saves its
    previous flag; assigning [False] restores every collection below to
    its saved flag. *)
Definition flag_of (f : gmap nat (bool * bool)) (i : nat) : bool * bool :=
  default (false, false) (f !! i).

Definition host_exclude_of (f : gmap nat (bool * bool)) (i : nat) : bool :=
  (flag_of f i).1.

Definition host_assign_exclude (lc : LayerCollection) (b : bool)
    (f : gmap nat (bool * bool)) : gmap nat (bool * bool) :=
  let below := flat_map lc_ids (children lc) in
  let f1 :=
    foldr (λ i g,
             <[i := if b then (true, (flag_of g i).1)
                    else ((flag_of g i).2, (flag_of g i).2)]> g)
          f below in
  <[collection lc := (b, (flag_of f1 (collection lc)).2)]> f1.

(** ** Example scene

    The tree of the docstring of [find_topmost_collections], with one more
    collection [F] under [C]:  [A{B{C{F},D},E}]. *)
Definition ex_F : Collection := Coll 5 "F" [].
Definition ex_C : Collection := Coll 2 "C" [ex_F].
Definition ex_D : Collection := Coll 3 "D" [].
Definition ex_B : Collection := Coll 1 "B" [ex_C; ex_D].
Definition ex_E : Collection := Coll 4 "E" [].
Definition ex_A : Collection := Coll 0 "A" [ex_B; ex_E].

(** All the collections of a tree, parents before children
    ([collection] itself and [collection.children_recursive]). *)
Fixpoint c_nodes (c : Collection) : list Collection :=
  c :: flat_map c_nodes (cchildren c).

Definition c_ids (c : Collection) : list nat := map cid (c_nodes c).

(** The scene of the spec's scenario, [Root{B{C,D},E}]. *)
Definition sc_C : Collection := Coll 2 "C" [].
Definition sc_D : Collection := Coll 3 "D" [].
Definition sc_B : Collection := Coll 1 "B" [sc_C; sc_D].
Definition sc_E : Collection := Coll 4 "E" [].
Definition sc_Root : Collection := Coll 0 "Root" [sc_B; sc_E].

(** ** Python values and strings *)

(** A call either returns or raises. *)
Inductive exn :=
  | ValueError | KeyError | RuntimeError | UnboundLocalError
  | InterpolationError | HostError.

Inductive outcome (A : Type) :=
  | Returns (a : A)
  | Raises (e : exn).
Arguments Returns {A} a.
Arguments Raises {A} e.

(** [str.lower], on ASCII letters. *)
Definition lower_ascii (c : ascii) : ascii :=
  let n := nat_of_ascii c in
  if bool_decide (65 ≤ n ∧ n ≤ 90) then ascii_of_nat (n + 32) else c.

Fixpoint lower (s : string) : string :=
  match s with
  | EmptyString => EmptyString
  | String c s' => String (lower_ascii c) (lower s')
  end.

(** [s[:n]] and [s[n:]] *)
Fixpoint take_str (n : nat) (s : string) : string :=
  match n, s with
  | S n', String c s' => String c (take_str n' s')
  | _, _ => EmptyString
  end.

Fixpoint drop_str (n : nat) (s : string) : string :=
  match n, s with
  | S n', String _ s' => drop_str n' s'
  | _, _ => s
  end.

(** [s[-n:]] *)
Definition last_str (n : nat) (s : string) : string :=
  drop_str (String.length s - n) s.

Definition newline : string := String (ascii_of_nat 10) EmptyString.
Definition backslash : ascii := ascii_of_nat 92.
Definition double_quote : ascii := ascii_of_nat 34.
Definition single_quote : ascii := ascii_of_nat 39.

(** [bpy.path.ensure_ext(filepath, ext)] with its default
    [case_sensitive=False]: the extension is added unless the path ends
    with it already, whatever the case. *)
Definition ensure_ext (filepath ext : string) : string :=
  if bool_decide (lower (last_str (String.length ext) filepath) = lower ext)
  then filepath else filepath +:+ ext.

(** [str.translate] with the table of [get_export_settings]: each of the
    ten characters backslash, slash, colon, star, question mark, double
    quote, single quote, less-than, greater-than and bar becomes an
    underscore. *)
Definition illegal_chars : list ascii :=
  [backslash; "/"; ":"; "*"; "?"; double_quote; single_quote; "<"; ">"; "|"]%char.

Fixpoint translate (s : string) : string :=
  match s with
  | EmptyString => EmptyString
  | String c s' =>
      String (if bool_decide (c ∈ illegal_chars) then "_"%char else c)
             (translate s')
  end.

(** [s.split(',')]: [cur] holds the piece being read, reversed. *)
Fixpoint split_comma_aux (cur : list ascii) (s : string) : list string :=
  match s with
  | EmptyString => [string_of_list_ascii (rev cur)]
  | String c s' =>
      if bool_decide (c = ","%char)
      then string_of_list_ascii (rev cur) :: split_comma_aux [] s'
      else split_comma_aux (c :: cur) s'
  end.

Definition split_comma (s : string) : list string := split_comma_aux [] s.

(** The values the operator puts in the exporter's arguments.  A float is
    kept as the text [float()] accepted. *)
Inductive value :=
  | VBool (b : bool)
  | VStr (s : string)
  | VFloat (text : string)
  | VInt (z : Z)
  | VSet (items : list string).

(** ** The exporter registry *)

(** The RNA property kinds [get_exporter_args_from_config] tells apart;
    [OtherProperty] stands for every other kind (pointers, collections). *)
Inductive Property :=
  | BoolProperty
  | StringProperty
  | FloatProperty
  | IntProperty
  | EnumProperty (enum_items : list string) (is_enum_flag : bool)
  | OtherProperty.

Global Instance Property_eq_dec : EqDecision Property.
Proof. solve_decision. Defined.

(** ** ConfigParser *)

(** A parsed document: the options of [[DEFAULT]] and the other sections
    in the order of the document.  Option names are stored lower-case, as
    [optionxform] leaves them; the values are the raw ones, as they stand
    in the document. *)
Record Config := {
  cfg_defaults : gmap string string;
  cfg_sections : list (string * gmap string string)
}.

Definition empty_config : Config := {| cfg_defaults := ∅; cfg_sections := [] |}.

Definition sections (config : Config) : list string := (cfg_sections config).*1.

Definition has_section (config : Config) (section : string) : bool :=
  bool_decide (section ∈ sections config).

(** [add_section]: [ValueError] for the default section's name (a section
    already there is ruled out by the caller's [has_section]). *)
Definition add_section (config : Config) (section : string) : outcome Config :=
  if bool_decide (section = "DEFAULT") then Raises ValueError
  else Returns {| cfg_defaults := cfg_defaults config;
                  cfg_sections := cfg_sections config ++ [(section, ∅)] |}.

Fixpoint section_options (l : list (string * gmap string string))
    (section : string) : option (gmap string string) :=
  match l with
  | [] => None
  | (s, d) :: l' => if bool_decide (s = section) then Some d
                    else section_options l' section
  end.

(** [RawConfigParser._convert_to_boolean] *)
Definition convert_to_boolean (v : string) : outcome bool :=
  let v := lower v in
  if bool_decide (v ∈ ["1"; "yes"; "true"; "on"]) then Returns true
  else if bool_decide (v ∈ ["0"; "no"; "false"; "off"]) then Returns false
  else Raises ValueError.

(** ** The host *)

(** What the operator asks of Python and of Blender without changing it:
    the properties of [bpy.ops.export_scene.fbx], [str.isspace] (which
    knows the white space of Unicode), the parser, [float] and [int],
    [bpy.data.is_saved] and the path functions.

    [interpolate config section option raw] is what the parser's
    [BasicInterpolation] makes of the raw value of an option when [get]
    reads it in a section: the value with its [%(name)s] references
    replaced, or an [InterpolationError] (a [%] that starts no reference,
    a reference to an option that is not set, references nested too
    deep). *)
Record Env := {
  fbx : list (string * Property);
  isspace : string → bool;
  read_string : string → outcome Config;
  interpolate : Config → string → string → string → outcome string;
  py_float_ok : string → bool;
  py_float_nonzero : string → bool;
  py_int : string → option Z;
  is_saved : bool;
  abspath : string → string;
  native_pathsep : string → string;
  normpath : string → string;
  isdir : string → bool;
  joinpath : string → string → string
}.

(** [txt == '' or txt.isspace()] *)
Definition is_blank (env : Env) (txt : string) : bool :=
  bool_decide (txt = EmptyString) || isspace env txt.

(** [config.get(section, option, fallback=None)]: the section's own value,
    else the default's, interpolated; nothing when the option is not set.
    An error of the interpolation is raised, whatever the fallback. *)
Definition cfg_get (env : Env) (config : Config) (section opt : string)
    : outcome (option string) :=
  match section_options (cfg_sections config) section with
  | None => Returns None
  | Some d =>
      match (d ∪ cfg_defaults config) !! lower opt with
      | None => Returns None
      | Some raw =>
          match interpolate env config section (lower opt) raw with
          | Returns v => Returns (Some v)
          | Raises e => Raises e
          end
      end
  end.

(** [getboolean(section, option)]: [None] when the option is not set. *)
Definition cfg_getboolean (env : Env) (config : Config) (section opt : string)
    : outcome (option bool) :=
  match cfg_get env config section opt with
  | Raises e => Raises e
  | Returns None => Returns None
  | Returns (Some v) => match convert_to_boolean v with
                        | Returns b => Returns (Some b)
                        | Raises e => Raises e
                        end
  end.

(** [EXPORTERS]: the operator of each supported exporter, here by its
    properties. *)
Definition EXPORTERS (env : Env) : gmap string (list (string * Property)) :=
  {[ "fbx" := fbx env ]}.

Definition get_properties_for_op (op : list (string * Property))
    : list (string * Property) :=
  let prop_iter := op in
  let skip := ["rna_type"; "filepath"; "filter_glob";
               "use_active_collection"; "use_selection"; "batch_mode"] in
  filter (λ kv, kv.1 ∉ skip) prop_iter.

Definition EXPORTER_PROPERTIES (env : Env)
    : gmap string (list (string * Property)) :=
  get_properties_for_op <$> EXPORTERS env.

(** [x in l] for a Python list [l] of [(name, property)] tuples and a
    string [x]: [in] compares [x] with each element by [==], and a string
    is never equal to a tuple. *)
Inductive pyobj :=
  | PyStr (s : string)
  | PyTuple (k : string) (v : Property).

Definition py_eq (x y : pyobj) : bool :=
  match x, y with
  | PyStr a, PyStr b => bool_decide (a = b)
  | PyTuple k v, PyTuple k' v' => bool_decide (k = k') && bool_decide (v = v')
  | _, _ => false
  end.

Definition py_in (x : pyobj) (l : list pyobj) : bool := existsb (py_eq x) l.

Definition as_pylist (l : list (string * Property)) : list pyobj :=
  map (λ kv, PyTuple kv.1 kv.2) l.

(** ** The state the operator works on *)

(** [bpy.types.Object], as far as the operator reads or writes it.
    [data_name] is [o.data.name], the name of the object's mesh;
    [visible_get] is the answer of [o.visible_get()] in the view layer the
    user looks at when the operator starts; [users_collection] holds the
    collections the object is linked to. *)
Record Obj := {
  oname : string;
  data_name : string;
  otype : string;
  hide_select : bool;
  hide_viewport : bool;
  visible_get : bool;
  users_collection : list nat
}.

(** A view layer: the exclude flags of its layer collections, the
    selected objects and the active one. *)
Record ViewLayer := {
  vl_flags : gmap nat (bool * bool);
  vl_selected : list nat;
  vl_active : option nat
}.

Inductive Level := INFO | WARNING | ERROR.

(** The texts of [self.report], one constructor for each call. *)
Inductive Message :=
  | MarkedUnexportable (collection_name : string)
  | UnknownExporter (exporter_name collection_name : string)
  | DirectoryDotSlash (prefix : string)
  | DirectoryDot
  | FirstExportNoConfig
  | FirstExportNoSection (collection_name : string)
  | BlendNotSaved (export_dir : string)
  | DirectoryMissing (export_dir : string)
  | InvalidBoolean (prop_name : string)
  | InvalidNumber (prop_name : string)
  | InvalidInteger (prop_name : string)
  | InvalidEnumSet (prop_name : string)
  | InvalidEnum (prop_name : string)
  | NoUseSelection (exporter_name : string)
  | Exported (collection_name : string) (filepath : option value)
  | ExportedEmpty (collection_name : string) (filepath : option value).

(** The result set of an operator. *)
Inductive op_result := FINISHED | CANCELLED.

Global Instance op_result_eq_dec : EqDecision op_result.
Proof. solve_decision. Defined.

(** A reference to an object or to a collection, as
    [save_global_properties] keeps them. *)
Inductive ref := RObj (o : nat) | RColl (c : nat).

(** Blender's data, the reports made so far, the calls of the exporter
    (arguments and selection at the call), and the three lists of
    [execute] that its [finally] block reads. *)
Record State := {
  objects : gmap nat Obj;
  coll_hide : gmap nat (bool * bool);
  scene_collection : Collection;
  view_layers : gmap nat ViewLayer;
  window_view_layer : nat;
  texts : option string;
  reports : list (Level * Message);
  exported : list (gmap string value * list nat);
  joined_meshes : list nat;
  duplicated_meshes : list nat;
  abort_postjoin_meshes : list nat
}.

Definition with_objects (f : gmap nat Obj → gmap nat Obj) (s : State) : State :=
  {| objects := f (objects s); coll_hide := coll_hide s;
     scene_collection := scene_collection s; view_layers := view_layers s;
     window_view_layer := window_view_layer s; texts := texts s;
     reports := reports s; exported := exported s;
     joined_meshes := joined_meshes s;
     duplicated_meshes := duplicated_meshes s;
     abort_postjoin_meshes := abort_postjoin_meshes s |}.

Definition with_coll_hide (f : gmap nat (bool * bool) → gmap nat (bool * bool))
    (s : State) : State :=
  {| objects := objects s; coll_hide := f (coll_hide s);
     scene_collection := scene_collection s; view_layers := view_layers s;
     window_view_layer := window_view_layer s; texts := texts s;
     reports := reports s; exported := exported s;
     joined_meshes := joined_meshes s;
     duplicated_meshes := duplicated_meshes s;
     abort_postjoin_meshes := abort_postjoin_meshes s |}.

Definition with_view_layers
    (f : gmap nat ViewLayer → gmap nat ViewLayer) (s : State) : State :=
  {| objects := objects s; coll_hide := coll_hide s;
     scene_collection := scene_collection s; view_layers := f (view_layers s);
     window_view_layer := window_view_layer s; texts := texts s;
     reports := reports s; exported := exported s;
     joined_meshes := joined_meshes s;
     duplicated_meshes := duplicated_meshes s;
     abort_postjoin_meshes := abort_postjoin_meshes s |}.

Definition with_window_view_layer (l : nat) (s : State) : State :=
  {| objects := objects s; coll_hide := coll_hide s;
     scene_collection := scene_collection s; view_layers := view_layers s;
     window_view_layer := l; texts := texts s;
     reports := reports s; exported := exported s;
     joined_meshes := joined_meshes s;
     duplicated_meshes := duplicated_meshes s;
     abort_postjoin_meshes := abort_postjoin_meshes s |}.

Definition with_texts (t : option string) (s : State) : State :=
  {| objects := objects s; coll_hide := coll_hide s;
     scene_collection := scene_collection s; view_layers := view_layers s;
     window_view_layer := window_view_layer s; texts := t;
     reports := reports s; exported := exported s;
     joined_meshes := joined_meshes s;
     duplicated_meshes := duplicated_meshes s;
     abort_postjoin_meshes := abort_postjoin_meshes s |}.

Definition with_reports
    (f : list (Level * Message) → list (Level * Message)) (s : State) : State :=
  {| objects := objects s; coll_hide := coll_hide s;
     scene_collection := scene_collection s; view_layers := view_layers s;
     window_view_layer := window_view_layer s; texts := texts s;
     reports := f (reports s); exported := exported s;
     joined_meshes := joined_meshes s;
     duplicated_meshes := duplicated_meshes s;
     abort_postjoin_meshes := abort_postjoin_meshes s |}.

Definition with_exported
    (f : list (gmap string value * list nat) → list (gmap string value * list nat))
    (s : State) : State :=
  {| objects := objects s; coll_hide := coll_hide s;
     scene_collection := scene_collection s; view_layers := view_layers s;
     window_view_layer := window_view_layer s; texts := texts s;
     reports := reports s; exported := f (exported s);
     joined_meshes := joined_meshes s;
     duplicated_meshes := duplicated_meshes s;
     abort_postjoin_meshes := abort_postjoin_meshes s |}.

Definition with_joined_meshes (l : list nat) (s : State) : State :=
  {| objects := objects s; coll_hide := coll_hide s;
     scene_collection := scene_collection s; view_layers := view_layers s;
     window_view_layer := window_view_layer s; texts := texts s;
     reports := reports s; exported := exported s;
     joined_meshes := l;
     duplicated_meshes := duplicated_meshes s;
     abort_postjoin_meshes := abort_postjoin_meshes s |}.

Definition with_duplicated_meshes (l : list nat) (s : State) : State :=
  {| objects := objects s; coll_hide := coll_hide s;
     scene_collection := scene_collection s; view_layers := view_layers s;
     window_view_layer := window_view_layer s; texts := texts s;
     reports := reports s; exported := exported s;
     joined_meshes := joined_meshes s;
     duplicated_meshes := l;
     abort_postjoin_meshes := abort_postjoin_meshes s |}.

Definition with_abort_postjoin_meshes (l : list nat) (s : State) : State :=
  {| objects := objects s; coll_hide := coll_hide s;
     scene_collection := scene_collection s; view_layers := view_layers s;
     window_view_layer := window_view_layer s; texts := texts s;
     reports := reports s; exported := exported s;
     joined_meshes := joined_meshes s;
     duplicated_meshes := duplicated_meshes s;
     abort_postjoin_meshes := l |}.

(** ** Statements that change the state and may raise *)

Definition M (A : Type) : Type := State → outcome A * State.

Definition ret {A} (a : A) : M A := λ s, (Returns a, s).

Definition bind {A B} (m : M A) (k : A → M B) : M B :=
  λ s, match m s with
       | (Returns a, s') => k a s'
       | (Raises e, s') => (Raises e, s')
       end.

Definition raise {A} (e : exn) : M A := λ s, (Raises e, s).

Definition modify (f : State → State) : M unit := λ s, (Returns tt, f s).

Definition gets {A} (f : State → A) : M A := λ s, (Returns (f s), s).

(** An expression that may raise, within a statement. *)
Definition lift {A} (o : outcome A) : M A := λ s, (o, s).

(** [try: body finally: cleanup].  The cleanup runs whether [body]
    returns or raises, and what [body] did stands unless the cleanup
    raises itself. *)
Definition try_finally {A} (body : M A) (cleanup : M unit) : M A :=
  λ s, match body s with
       | (r, s1) => match cleanup s1 with
                    | (Returns _, s2) => (r, s2)
                    | (Raises e, s2) => (Raises e, s2)
                    end
       end.

Notation "'do' x <~ m ; k" := (bind m (λ x, k))
  (at level 10, x name, m at level 100, k at level 200,
   format "'[v' 'do'  x  <~  m ; '/' k ']'").
Notation "'do' ' p <~ m ; k" := (bind m (λ x, match x with p => k end))
  (at level 10, p pattern, m at level 100, k at level 200,
   format "'[v' 'do'  ' p  <~  m ; '/' k ']'").
Notation "m >> k" := (bind m (λ _, k))
  (at level 100, k at level 200, right associativity).

(** [for x in l: body], with the index of the round. *)
Fixpoint for_each {A} (body : nat → A → M unit) (i : nat) (l : list A) : M unit :=
  match l with
  | [] => ret tt
  | x :: l' => bind (body i x) (λ _, for_each body (S i) l')
  end.

(** [self.report({level}, message)] *)
Definition report (level : Level) (msg : Message) : M unit :=
  modify (with_reports (λ r, r ++ [(level, msg)])).

(** ** ConfigResolver *)

Definition CONFIG_FILE_NAME : string := "QuickExportCollectionConfig".

Definition unlines (l : list string) : string :=
  foldr (λ line rest, line +:+ newline +:+ rest) EmptyString l.

(** The comment block [make_new_config_file] puts at the top of a new
    document. *)
Definition config_header : string := unlines [
  "# Settings file for Quick Export Collection addon.";
  "#";
  "# Each [section] header below indicates configuration for one Collection.";
  "# The [DEFAULT] section is special; it provides defaults for any options";
  "# not specified in another section.";
  "#";
  "# The supported options are:";
  "#   exporter         - Which model format to export with. Can be changed";
  "#                      per-collection but usually goes in [DEFAULT].";
  "#                      Currently the only supported exporter is 'fbx'.";
  "#   directory        - The location files are exported to. Usually goes in";
  "#                      the [DEFAULT] section. Start the path with // to";
  "#                      indicate a path relative to this .blend file. Example:";
  "#                        directory = //../Assets/Models";
  "#                      If unspecified, the default is // .";
  "#   filename         - The output filename. If no extension is specified, the";
  "#                      default extension for the exporter (eg. '.fbx') is used.";
  "#                      If unspecified, the collection's name is used.";
  "#   exportable       - If set to False, the collection cannot be exported,";
  "#                      and it will not be included included when exporting";
  "#                      a parent collection. If unspecified, defaults to True.";
  "#   join_meshes      - If set to True, all meshes in this collection will be";
  "#                      merged/joined into one during export. It even applies";
  "#                      when exported as a sub-collection of another export.";
  "#   joined_mesh_name - When join_meshes is True, this specifies the name of";
  "#                      the combined mesh in the export. If not specified, the";
  "#                      name of the collection is used.";
  "#   use_visible      - If True, only export visible objects. Unlike join_meshes,";
  "#                      this applies to the whole export, not just the collections";
  "#                      it's specified on. If not specified, defaults to False.";
  "# Additionally, any options supported by the exporter can be specified.";
  "# For example, the fbx exporter supports the options 'object_types',";
  "# 'use_triangles', 'embed_textures', and more." +:+ String double_quote EmptyString
].

(** The section both [make_new_config_file] and
    [append_new_section_to_config_file] write for a collection. *)
Definition new_section_text (collection_name filename : string) : string :=
  unlines ["[" +:+ collection_name +:+ "]"; "filename = " +:+ filename].

(** The text of a new document, and the text of a document with a section
    appended. *)
Definition new_config_text (collection_name filename : string) : string :=
  config_header +:+
  unlines [""; "[DEFAULT]"; "exporter = fbx"; "directory = //"; ""] +:+
  new_section_text collection_name filename.

Definition appended_text (text collection_name filename : string) : string :=
  let text := if bool_decide (last_str 1 text ≠ newline)
              then text +:+ newline else text in
  text +:+ newline +:+ new_section_text collection_name filename.

Definition make_new_config_file (collection_name filename : string) : M unit :=
  let text := new_config_text collection_name filename in
  modify (with_texts (Some text)).

Definition append_new_section_to_config_file
    (collection_name filename : string) : M unit :=
  do t <~ gets texts;
  let text := default EmptyString t in
  let text := appended_text text collection_name filename in
  modify (with_texts (Some text)).

(** One round of the loop of [get_exporter_args_from_config].  The loop
    carries [args], and [val], which Python keeps from one round to the
    next: a property of a kind none of the branches handles leaves it as
    the round before set it ([None] here: not bound yet).  The result
    [None] is the early [return None].  The [except ValueError] clauses
    catch that error only. *)
Definition exporter_arg_round (env : Env) (config : Config) (section : string)
    (acc : gmap string value * option (option value))
    (kv : string * Property)
    : M (option (gmap string value * option (option value))) :=
  let '(args, val) := acc in
  let '(prop_name, prop) := kv in
  let store (val : option value) :=
    ret (Some (match val with
               | Some v => <[prop_name := v]> args
               | None => args
               end, Some val)) in
  match prop with
  | BoolProperty =>
      match cfg_getboolean env config section prop_name with
      | Returns b => store (VBool <$> b)
      | Raises ValueError =>
          report ERROR (InvalidBoolean prop_name) >> ret None
      | Raises e => raise e
      end
  | StringProperty =>
      do v <~ lift (cfg_get env config section prop_name);
      store (VStr <$> v)
  | FloatProperty =>
      match cfg_get env config section prop_name with
      | Returns None => store None
      | Returns (Some v) =>
          if py_float_ok env v then store (Some (VFloat v))
          else report ERROR (InvalidNumber prop_name) >> ret None
      | Raises ValueError =>
          report ERROR (InvalidNumber prop_name) >> ret None
      | Raises e => raise e
      end
  | IntProperty =>
      match cfg_get env config section prop_name with
      | Returns None => store None
      | Returns (Some v) =>
          match py_int env v with
          | Some z => store (Some (VInt z))
          | None => report ERROR (InvalidInteger prop_name) >> ret None
          end
      | Raises ValueError =>
          report ERROR (InvalidInteger prop_name) >> ret None
      | Raises e => raise e
      end
  | EnumProperty options is_enum_flag =>
      do v <~ lift (cfg_get env config section prop_name);
      match v with
      | None => store None
      | Some v =>
          if is_enum_flag then
            let val := remove_dups (split_comma v) in
            if forallb (λ v, bool_decide (v ∈ options)) val
            then store (Some (VSet val))
            else report ERROR (InvalidEnumSet prop_name) >> ret None
          else
            if bool_decide (v ∈ options) then store (Some (VStr v))
            else report ERROR (InvalidEnum prop_name) >> ret None
      end
  | OtherProperty =>
      match val with
      | None => raise UnboundLocalError
      | Some val => store val
      end
  end.

Fixpoint exporter_arg_rounds (env : Env) (config : Config) (section : string)
    (props : list (string * Property))
    (acc : gmap string value * option (option value))
    : M (option (gmap string value)) :=
  match props with
  | [] => ret (Some acc.1)
  | kv :: props' =>
      do r <~ exporter_arg_round env config section acc kv;
      match r with
      | None => ret None
      | Some acc' => exporter_arg_rounds env config section props' acc'
      end
  end.

Definition get_exporter_args_from_config (env : Env) (exporter : string)
    (config : Config) (section : string) : M (option (gmap string value)) :=
  exporter_arg_rounds env config section
    (default [] (EXPORTER_PROPERTIES env !! exporter)) (∅, None).

(** The loop over [config.sections()] at the end of
    [get_export_settings]. *)
Fixpoint scan_sections (env : Env) (config : Config) (names : list string)
    (acc : list string * list string * gmap string string)
    : outcome (list string * list string * gmap string string) :=
  match names with
  | [] => Returns acc
  | collection_name :: names' =>
      let '(not_exportable, requesting_join, joined_mesh_names) := acc in
      match cfg_getboolean env config collection_name "exportable" with
      | Raises e => Raises e
      | Returns exportable =>
          let not_exportable :=
            if default true exportable then not_exportable
            else not_exportable ++ [collection_name] in
          match cfg_getboolean env config collection_name "join_meshes" with
          | Raises e => Raises e
          | Returns join =>
              if default false join then
                match cfg_get env config collection_name "joined_mesh_name" with
                | Raises e => Raises e
                | Returns joined_mesh_name =>
                    scan_sections env config names'
                      (not_exportable, requesting_join ++ [collection_name],
                       <[collection_name :=
                           default collection_name joined_mesh_name]>
                         joined_mesh_names)
                end
              else
                scan_sections env config names'
                  (not_exportable, requesting_join, joined_mesh_names)
          end
      end
  end.

Definition get_export_settings (env : Env) (collection_name : string)
    : M (option (string * gmap string value * list string * list string
                 * gmap string string)) :=
  do t <~ gets texts;
  do '(config, create_conf_file) <~
     match t with
     | Some txt =>
         if is_blank env txt then ret (empty_config, true)
         else do config <~ lift (read_string env txt); ret (config, false)
     | None => ret (empty_config, true)
     end;
  do '(config, append_section) <~
     (if has_section config collection_name then ret (config, false)
      else do config <~ lift (add_section config collection_name);
           ret (config, true));
  do exportable <~
    lift (cfg_getboolean env config collection_name "exportable");
  if negb (default true exportable) then
    report ERROR (MarkedUnexportable collection_name) >> ret None
  else
  do exporter <~ lift (cfg_get env config collection_name "exporter");
  let exporter_name := default "fbx" exporter in
  if bool_decide (EXPORTERS env !! exporter_name = None) then
    report ERROR (UnknownExporter exporter_name collection_name) >> ret None
  else
  do filename <~ lift (cfg_get env config collection_name "filename");
  let export_filename :=
    default (collection_name +:+ "." +:+ exporter_name) filename in
  do directory <~ lift (cfg_get env config collection_name "directory");
  let export_dir := default "//" directory in
  do export_dir <~
    (if bool_decide (take_str 2 export_dir = "./")
        || bool_decide (take_str 2 export_dir = "." +:+ String backslash EmptyString)
     then report WARNING (DirectoryDotSlash (take_str 2 export_dir)) >>
          ret ("//" +:+ drop_str 2 export_dir)
     else if bool_decide (export_dir = ".")
     then report WARNING DirectoryDot >> ret "//"
     else ret export_dir);
  if create_conf_file then
    make_new_config_file collection_name export_filename >>
    report ERROR FirstExportNoConfig >> ret None
  else if append_section then
    append_new_section_to_config_file collection_name export_filename >>
    report ERROR (FirstExportNoSection collection_name) >> ret None
  else
  if negb (is_saved env) && bool_decide (take_str 2 export_dir = "//") then
    report ERROR (BlendNotSaved export_dir) >> ret None
  else
  let export_dir := normpath env (native_pathsep env (abspath env export_dir)) in
  if negb (isdir env export_dir) then
    report ERROR (DirectoryMissing export_dir) >> ret None
  else
  do args <~ get_exporter_args_from_config env exporter_name config collection_name;
  match args with
  | None => ret None
  | Some args =>
      do '(collection_names_not_exportable, collection_names_requesting_join,
        collection_joined_mesh_names) <~
         lift (scan_sections env config (sections config) ([], [], ∅));
      let export_filename := ensure_ext export_filename ("." +:+ exporter_name) in
      let export_filename := translate export_filename in
      let args := <["filepath" := VStr (joinpath env export_dir export_filename)]> args in
      ret (Some (exporter_name, args, collection_names_not_exportable,
                 collection_names_requesting_join, collection_joined_mesh_names))
  end.

(** ** Blender's operations on objects, selection and view layers *)

Definition is_mesh (ob : Obj) : bool := bool_decide (otype ob = "MESH").

(** Whether an object is linked to [c] or to a collection below it. *)
Definition in_collection (c : Collection) (ob : Obj) : bool :=
  bool_decide (Exists (λ k, k ∈ c_ids c) (users_collection ob)).

(** Whether an object has a base in a view layer: it is linked to a
    collection of the scene that the layer does not exclude. *)
Definition in_view_layer (root : Collection) (vl : ViewLayer) (ob : Obj) : bool :=
  bool_decide (Exists (λ k, k ∈ c_ids root ∧ host_exclude_of (vl_flags vl) k = false)
                 (users_collection ob)).

Definition obj_test (objs : gmap nat Obj) (f : Obj → bool) (o : nat) : bool :=
  from_option f false (objs !! o).

(** [collection.all_objects] *)
Definition all_objects (c : Collection) (objs : gmap nat Obj) : list nat :=
  filter (λ o, obj_test objs (in_collection c) o) (elements (dom objs)).

Definition empty_layer : ViewLayer :=
  {| vl_flags := ∅; vl_selected := []; vl_active := None |}.

(** [context.view_layer] *)
Definition context_view_layer (s : State) : ViewLayer :=
  default empty_layer (view_layers s !! window_view_layer s).

(** [view_layer.objects] *)
Definition view_layer_objects (view_layer : nat) (s : State) : list nat :=
  filter (λ o, obj_test (objects s)
                 (in_view_layer (scene_collection s)
                    (default empty_layer (view_layers s !! view_layer))) o)
         (elements (dom (objects s))).

(** [context.selected_objects] *)
Definition selected_objects (s : State) : list nat :=
  vl_selected (context_view_layer s).

Definition with_selected (f : list nat → list nat) (s : State) : State :=
  with_view_layers
    (alter (λ vl, {| vl_flags := vl_flags vl;
                     vl_selected := f (vl_selected vl);
                     vl_active := vl_active vl |})
           (window_view_layer s)) s.

Definition with_active (a : option nat) (s : State) : State :=
  with_view_layers
    (alter (λ vl, {| vl_flags := vl_flags vl;
                     vl_selected := vl_selected vl;
                     vl_active := a |})
           (window_view_layer s)) s.

Definition with_flags
    (f : gmap nat (bool * bool) → gmap nat (bool * bool)) (view_layer : nat)
    (s : State) : State :=
  with_view_layers
    (alter (λ vl, {| vl_flags := f (vl_flags vl);
                     vl_selected := vl_selected vl;
                     vl_active := vl_active vl |})
           view_layer) s.

(** [o.select_set(True)] and [o.select_set(False)] *)
Definition select_set (o : nat) (b : bool) : State → State :=
  with_selected (λ sel,
    if b then (if bool_decide (o ∈ sel) then sel else sel ++ [o])
    else filter (λ x, x ≠ o) sel).

(** [oc.hide_select = hs; oc.hide_viewport = hv] *)
Definition set_hide (oc : ref) (hs hv : bool) : State → State :=
  match oc with
  | RObj o =>
      with_objects
        (alter (λ ob, {| oname := oname ob; data_name := data_name ob;
                         otype := otype ob;
                         hide_select := hs; hide_viewport := hv;
                         visible_get := visible_get ob;
                         users_collection := users_collection ob |}) o)
  | RColl c => with_coll_hide (<[c := (hs, hv)]>)
  end.

Definition coll_hide_of (s : State) (c : nat) : bool * bool :=
  default (false, false) (coll_hide s !! c).

(** An identifier no object of the store has. *)
Definition fresh_id (objs : gmap nat Obj) : nat :=
  S (max_list (elements (dom objs))).

(** An object under another name, with its mesh under another name. *)
Definition with_names (names : string * string) (ob : Obj) : Obj :=
  {| oname := names.1; data_name := names.2; otype := otype ob;
     hide_select := hide_select ob; hide_viewport := hide_viewport ob;
     visible_get := visible_get ob;
     users_collection := users_collection ob |}.

(** [bpy.ops.object.duplicate(linked=False)]: every selected object gets
    a copy with a mesh of its own, linked to the same collections; the
    copies become the selection.  Blender keeps the names of objects and
    of meshes unique: [copy_names o ob] are the names it gives to the copy
    of the object [o] and to the copy of its mesh. *)
Fixpoint duplicate_objects (copy_names : nat → Obj → string * string)
    (sel : list nat) (objs : gmap nat Obj) : gmap nat Obj * list nat :=
  match sel with
  | [] => (objs, [])
  | o :: sel' =>
      match objs !! o with
      | Some ob =>
          let i := fresh_id objs in
          let '(objs', news) :=
            duplicate_objects copy_names sel'
              (<[i := with_names (copy_names o ob) ob]> objs) in
          (objs', i :: news)
      | None => duplicate_objects copy_names sel' objs
      end
  end.

Definition duplicate (copy_names : nat → Obj → string * string) : M unit :=
  modify (λ s,
    let '(objs, news) :=
      duplicate_objects copy_names (selected_objects s) (objects s) in
    with_selected (λ _, news) (with_objects (λ _, objs) s)).

(** [bpy.ops.object.join()]: the selected objects are merged into the
    active one and removed. *)
Definition join (a : nat) : M unit :=
  modify (λ s,
    let gone := filter (λ o, o ≠ a) (selected_objects s) in
    with_selected (λ _, [a])
      (with_objects (λ objs, foldr delete objs gone) s)).

(** [try: bpy.data.objects.remove(m) except: pass] *)
Definition remove_object (m : nat) : M unit :=
  modify (λ s, with_selected (filter (λ x, x ≠ m))
                 (with_objects (delete m) s)).

(** [o.name = new_name]: the object gets the name [given new_name],
    which is [new_name] itself unless Blender has to change it (another
    object has that name already, or the name is too long). *)
Definition rename (given : string → string) (o : nat) (new_name : string)
    : M unit :=
  modify (with_objects
    (alter (λ ob, with_names (given new_name, data_name ob) ob) o)).

(** [o.data.name = o.name], with the name Blender gives to the mesh when
    it is asked for that of the object. *)
Definition rename_data (given : string → string) (o : nat) : M unit :=
  modify (with_objects
    (alter (λ ob, with_names (oname ob, given (oname ob)) ob) o)).

(** [bpy.ops.scene.view_layer_add(type='NEW')]: a new view layer with
    nothing excluded, nothing hidden and nothing selected, made the one of
    the window. *)
Definition view_layer_add : M unit :=
  modify (λ s,
    let new := S (max_list (window_view_layer s :: elements (dom (view_layers s)))) in
    with_window_view_layer new (with_view_layers (<[new := empty_layer]>) s)).

(** ** Where a run can be made to fail *)

Inductive add_fault := AddOk | AddRaises | AddNothing.
Inductive dup_fault := DupOk | DupCancelled | DupRaises.
Inductive join_fault := JoinOk | JoinCancelled | JoinRaises | JoinKeepsAll.
Inductive export_fault := ExportFinished | ExportCancelled | ExportRaises.

(** What the host does at each call the operator makes after it has
    recorded the hide flags.  A flag set makes the call raise; the
    operators may also return [CANCELLED], [view_layer_add] may add
    nothing, [join] may leave the selection as it was.  The joining loop
    asks by the index of its round, the loop that clears the hide flags by
    the number of entries cleared so far.  [f_copy_names],
    [f_given_name] and [f_given_data_name] are the names Blender gives
    in a round of the joining loop: to the copy of an object and to the
    copy of its mesh, to the joined object when it is asked for a name,
    and to its mesh. *)
Record Faults := {
  f_visible_get : bool;
  f_view_layer_add : add_fault;
  f_set_excluded : bool;
  f_clear_hide : nat → bool;
  f_select_meshes : nat → bool;
  f_duplicate : nat → dup_fault;
  f_join : nat → join_fault;
  f_rename : nat → bool;
  f_copy_names : nat → nat → Obj → string * string;
  f_given_name : nat → string → string;
  f_given_data_name : nat → string → string;
  f_select : bool;
  f_deselect : bool;
  f_reselect : bool;
  f_export : export_fault
}.

Definition no_faults : Faults :=
  {| f_visible_get := false; f_view_layer_add := AddOk;
     f_set_excluded := false; f_clear_hide := λ _, false;
     f_select_meshes := λ _, false; f_duplicate := λ _, DupOk;
     f_join := λ _, JoinOk; f_rename := λ _, false;
     f_copy_names := λ _ _ ob, (oname ob +:+ ".001", data_name ob +:+ ".001");
     f_given_name := λ _ name, name;
     f_given_data_name := λ _ name, name;
     f_select := false; f_deselect := false; f_reselect := false;
     f_export := ExportFinished |}.

(** A call that raises when the host is set to fail there. *)
Definition failing (b : bool) : M unit :=
  if b then raise HostError else ret tt.

(** ** SelectionEngine and ExportOrchestrator *)

Definition save_global_properties (collection_to_export : Collection)
    (s : State) : list (ref * bool * bool) :=
  let objs :=
    omap (λ o, ob ← objects s !! o;
               if hide_select ob || hide_viewport ob
               then Some (RObj o, hide_select ob, hide_viewport ob)
               else None)
         (all_objects collection_to_export (objects s)) in
  let colls :=
    omap (λ c, let '(hs, hv) := coll_hide_of s (cid c) in
               if hs || hv then Some (RColl (cid c), hs, hv) else None)
         (flat_map c_nodes (cchildren (scene_collection s))) in
  objs ++ colls.

Definition restore_global_properties (save : list (ref * bool * bool)) : M unit :=
  for_each (λ _ '(oc, hide_select, hide_viewport),
              modify (set_hide oc hide_select hide_viewport)) 0 save.

Definition select_included_objects_in_collection (view_layer : nat)
    (collection : Collection) (hidden_objects : list nat) (mesh_only : bool)
    : M unit :=
  modify (with_selected (λ _, [])) >>
  do objects_to_export <~
    gets (λ s, filter (λ o, o ∈ view_layer_objects view_layer s ∧
                            o ∉ hidden_objects)
                 (all_objects collection (objects s)));
  for_each (λ _ o,
      do objs <~ gets objects;
      if negb mesh_only || obj_test objs is_mesh o
      then modify (select_set o true) else ret tt)
    0 objects_to_export.

(** Python's truth value of a setting. *)
Definition truthy (env : Env) (v : value) : bool :=
  match v with
  | VBool b => b
  | VStr s => negb (bool_decide (s = EmptyString))
  | VFloat t => py_float_nonzero env t
  | VInt z => negb (bool_decide (z = 0%Z))
  | VSet l => negb (bool_decide (l = []))
  end.

(** Lines 393 to 417: the meshes selected in [c] are duplicated, the
    duplicates joined into one object, and that object and its mesh named
    and recorded. *)
Definition make_joined_mesh (faults : Faults)
    (collection_joined_mesh_names : gmap string string)
    (i : nat) (c : Collection) : M unit :=
  do r <~ match f_duplicate faults i with
          | DupOk => duplicate (f_copy_names faults i) >> ret FINISHED
          | DupCancelled => ret CANCELLED
          | DupRaises => raise HostError
          end;
  if bool_decide (r ≠ FINISHED) then raise RuntimeError else
  do sel <~ gets selected_objects;
  modify (with_duplicated_meshes sel) >>
  modify (with_active (head sel)) >>
  (if bool_decide (1 < length sel) then
     do r <~ match f_join faults i, head sel with
             | JoinOk, Some a => join a >> ret FINISHED
             | JoinOk, None => ret CANCELLED
             | JoinCancelled, _ => ret CANCELLED
             | JoinRaises, _ => raise HostError
             | JoinKeepsAll, _ => ret FINISHED
             end;
     if bool_decide (r ≠ FINISHED) then raise RuntimeError else ret tt
   else ret tt) >>
  do sel <~ gets selected_objects;
  match sel with
  | [new_joined_mesh] =>
      match collection_joined_mesh_names !! cname c with
      | None => raise KeyError
      | Some joined_name =>
          failing (f_rename faults i) >>
          rename (f_given_name faults i) new_joined_mesh joined_name >>
          rename_data (f_given_data_name faults i) new_joined_mesh >>
          do joined <~ gets joined_meshes;
          if bool_decide (new_joined_mesh ∈ joined) then raise RuntimeError
          else
            modify (with_joined_meshes (joined ++ [new_joined_mesh])) >>
            modify (with_duplicated_meshes [])
      end
  | _ =>
      modify (with_abort_postjoin_meshes sel) >> raise RuntimeError
  end.

(** One round of [for c in collections_to_join], lines 391 to 417. *)
Definition join_round (faults : Faults) (new_view_layer : nat)
    (hidden_objects : list nat)
    (collection_joined_mesh_names : gmap string string)
    (i : nat) (c : Collection) : M unit :=
  failing (f_select_meshes faults i) >>
  select_included_objects_in_collection new_view_layer c hidden_objects true >>
  do sel <~ gets selected_objects;
  if bool_decide (0 < length sel)
  then make_joined_mesh faults collection_joined_mesh_names i c
  else ret tt.

(** Lines 437 to 457: select everything to export, unselect the meshes of
    the joined collections, select the joined meshes again. *)
Definition select_for_export (faults : Faults) (new_view_layer : nat)
    (collection_to_export : Collection) (hidden_objects : list nat)
    (collections_to_join : list Collection) : M unit :=
  failing (f_select faults) >>
  select_included_objects_in_collection new_view_layer collection_to_export
    hidden_objects false >>
  failing (f_deselect faults) >>
  for_each (λ _ c,
      do objs <~ gets objects;
      for_each (λ _ o,
          if obj_test objs is_mesh o then modify (select_set o false)
          else ret tt)
        0 (all_objects c objs))
    0 collections_to_join >>
  failing (f_reselect faults) >>
  do joined <~ gets joined_meshes;
  for_each (λ _ o, modify (select_set o true)) 0 joined.

(** Lines 464 to 474: the call of the exporter and the report. *)
Definition export_stage (faults : Faults) (collection_to_export : Collection)
    (settings : gmap string value) : M op_result :=
  do sel <~ gets selected_objects;
  let is_empty := bool_decide (length sel = 0) in
  modify (with_exported (λ l, l ++ [(settings, sel)])) >>
  do result <~ match f_export faults with
               | ExportFinished => ret FINISHED
               | ExportCancelled => ret CANCELLED
               | ExportRaises => raise HostError
               end;
  match result with
  | FINISHED =>
      (if is_empty
       then report WARNING (ExportedEmpty (cname collection_to_export)
                              (settings !! "filepath"))
       else report INFO (Exported (cname collection_to_export)
                           (settings !! "filepath"))) >>
      ret result
  | CANCELLED => ret result
  end.

(** The [finally] block of lines 476 to 488. *)
Definition remove_created_meshes : M unit :=
  do joined <~ gets joined_meshes;
  for_each (λ _ m, remove_object m) 0 joined >>
  do duplicated <~ gets duplicated_meshes;
  for_each (λ _ m, remove_object m) 0 duplicated >>
  do abort <~ gets abort_postjoin_meshes;
  for_each (λ _ m, remove_object m) 0 abort.

(** The body of the innermost [try], lines 389 to 474: join, select,
    export. *)
Definition join_select_export (faults : Faults) (new_view_layer : nat)
    (collection_to_export : Collection) (hidden_objects : list nat)
    (collection_joined_mesh_names : gmap string string)
    (collections_to_join : list Collection)
    (settings : gmap string value) : M op_result :=
  for_each (join_round faults new_view_layer hidden_objects
              collection_joined_mesh_names)
    0 collections_to_join >>
  select_for_export faults new_view_layer collection_to_export
    hidden_objects collections_to_join >>
  export_stage faults collection_to_export settings.

(** Lines 287 to 308: what [execute] makes of the settings the resolver
    returned before it calls the exporter with them ([use_visible] is
    dealt with on its own, see [execute_resolved]). *)
Definition final_settings (env : Env) (exporter_name : string)
    (settings : gmap string value) : gmap string value :=
  let exporter_properties :=
    as_pylist (default [] (EXPORTER_PROPERTIES env !! exporter_name)) in
  let settings := delete "use_active_collection" settings in
  let settings := delete "use_selection" settings in
  let settings :=
    match settings !! "check_existing" with
    | None => <["check_existing" := VBool false]> settings
    | Some _ => settings
    end in
  let settings :=
    if py_in (PyStr "use_active_collection") exporter_properties
    then <["use_active_collection" := VBool false]> settings else settings in
  <["use_selection" := VBool true]> settings.

(** [QXC_OT_export.execute] from line 277 on, with the tuple
    [get_export_settings] returned. *)
Definition execute_resolved (env : Env) (faults : Faults)
    (collection_to_export : Collection)
    (s : string * gmap string value * list string * list string
         * gmap string string) : M op_result :=
  let '(exporter_name, settings, collection_names_not_exportable,
        collection_names_requesting_join, collection_joined_mesh_names) := s in
  let exporter_properties :=
    as_pylist (default [] (EXPORTER_PROPERTIES env !! exporter_name)) in
  if py_in (PyStr "use_selection") exporter_properties then
    report ERROR (NoUseSelection exporter_name) >> ret CANCELLED
  else
  let settings := final_settings env exporter_name settings in
  do saved_object_properties <~
    gets (save_global_properties collection_to_export);
  do '(settings, hidden_objects) <~
    match settings !! "use_visible" with
    | Some v =>
        if truthy env v then
          failing (f_visible_get faults) >>
          do objs <~ gets objects;
          ret (delete "use_visible" settings,
               filter (λ o, obj_test objs (λ ob, negb (visible_get ob)) o)
                 (all_objects collection_to_export objs))
        else ret (settings, [])
    | None => ret (settings, [])
    end;
  let collections_to_join :=
    if bool_decide (0 < length collection_names_requesting_join)
    then find_topmost_collections collection_names_requesting_join
           collection_to_export
    else [] in
  for_each (λ _ c,
      match collection_joined_mesh_names !! cname c with
      | Some _ => ret tt
      | None => raise KeyError
      end)
    0 collections_to_join >>
  do saved_view_layer <~ gets window_view_layer;
  match f_view_layer_add faults with
  | AddOk => view_layer_add
  | AddRaises => raise HostError
  | AddNothing => ret tt
  end >>
  do new_view_layer <~ gets window_view_layer;
  if bool_decide (new_view_layer = saved_view_layer) then raise RuntimeError
  else
  try_finally
    (do root <~ gets scene_collection;
     modify (with_flags
               (set_excluded_collections host_assign_exclude
                  (layer_collection_of root) collection_names_not_exportable
                  (cid collection_to_export) false false)
               new_view_layer) >>
     failing (f_set_excluded faults) >>
     try_finally
       (for_each (λ i '(oc, _, _),
            failing (f_clear_hide faults i) >>
            modify (set_hide oc false false))
          0 saved_object_properties >>
        modify (with_joined_meshes []) >>
        modify (with_duplicated_meshes []) >>
        modify (with_abort_postjoin_meshes []) >>
        try_finally
          (join_select_export faults new_view_layer collection_to_export
             hidden_objects collection_joined_mesh_names collections_to_join
             settings)
          remove_created_meshes)
       (restore_global_properties saved_object_properties))
    (modify (with_window_view_layer saved_view_layer) >>
     modify (with_view_layers (delete new_view_layer))).

(** [QXC_OT_export.execute], from line 268 on: [collection_to_export] is
    the collection the user clicked ([context.id], or the scene's
    collection when it is the scene). *)
Definition execute (env : Env) (faults : Faults)
    (collection_to_export : Collection) : M op_result :=
  do s <~ get_export_settings env (cname collection_to_export);
  match s with
  | None => ret CANCELLED
  | Some s => execute_resolved env faults collection_to_export s
  end.

(** ** Reasoning about statements *)

(** [hoare P m Q E]: run from a state where [P] holds, [m] ends in a state
    where [Q] holds of what it returns, or raises in a state where [E]
    holds. *)
Definition hoare {A} (P : State → Prop) (m : M A)
    (Q : A → State → Prop) (E : State → Prop) : Prop :=
  ∀ s, P s → match m s with
             | (Returns a, s') => Q a s'
             | (Raises _, s') => E s'
             end.

(** [stable I m]: [I] survives [m], whether [m] returns or raises. *)
Definition stable {A} (I : State → Prop) (m : M A) : Prop :=
  ∀ s, I s → I (m s).2.

(** ** What the resolver resolves

    The export directory and the file name as [get_export_settings]
    computes them from the section of a collection (lines 548 to 561, 585
    and 605 to 607), written as functions of the parsed document.
    [cfg_value] is the value [get] returns for an option, when it returns
    one. *)
Definition cfg_value (env : Env) (config : Config) (section opt : string)
    : option string :=
  match cfg_get env config section opt with
  | Returns v => v
  | Raises _ => None
  end.

Definition resolved_directory (env : Env) (config : Config)
    (collection_name : string) : string :=
  let export_dir :=
    default "//" (cfg_value env config collection_name "directory") in
  let export_dir :=
    if bool_decide (take_str 2 export_dir = "./")
       || bool_decide (take_str 2 export_dir = "." +:+ String backslash EmptyString)
    then "//" +:+ drop_str 2 export_dir
    else if bool_decide (export_dir = ".") then "//"
    else export_dir in
  normpath env (native_pathsep env (abspath env export_dir)).

Definition resolved_filename (env : Env) (config : Config)
    (collection_name : string) : string :=
  let exporter_name :=
    default "fbx" (cfg_value env config collection_name "exporter") in
  let export_filename :=
    default (collection_name +:+ "." +:+ exporter_name)
            (cfg_value env config collection_name "filename") in
  translate (ensure_ext export_filename ("." +:+ exporter_name)).

(** The document with an empty section added for a collection, as
    [add_section] leaves it. *)
Definition with_section (config : Config) (section : string) : Config :=
  {| cfg_defaults := cfg_defaults config;
     cfg_sections := cfg_sections config ++ [(section, ∅)] |}.







(** The calls of the exporter made since [st0] all have arguments that
    satisfy [P]. *)
Definition exports_ok (P : gmap string value → Prop) (st0 s : State) : Prop :=
  ∃ new, exported s = exported st0 ++ new ∧ Forall (λ e, P e.1) new.

(** ** What the joining leaves behind

    [join_inv O s]: relative to the objects [O] there were when joining
    began, the state [s] has a current view layer, still holds every
    object of [O] as it was, and holds no other object than those the
    three lists of [execute] name, which name none of [O]. *)
Definition join_inv (O : gmap nat Obj) (s : State) : Prop :=
  is_Some (view_layers s !! window_view_layer s) ∧
  (∀ o, is_Some (O !! o) → objects s !! o = O !! o) ∧
  Forall (λ o, O !! o = None)
    (joined_meshes s ++ duplicated_meshes s ++ abort_postjoin_meshes s) ∧
  (∀ o, is_Some (objects s !! o) → O !! o = None →
        o ∈ joined_meshes s ++ duplicated_meshes s ++ abort_postjoin_meshes s).

(** Between [duplicate] and the assignment to [duplicated_meshes]: the
    duplicates are the selection. *)
Definition dup_done (O : gmap nat Obj) (s : State) : Prop :=
  is_Some (view_layers s !! window_view_layer s) ∧
  (∀ o, is_Some (O !! o) → objects s !! o = O !! o) ∧
  Forall (λ o, O !! o = None) (joined_meshes s) ∧
  duplicated_meshes s = [] ∧
  abort_postjoin_meshes s = [] ∧
  Forall (λ o, O !! o = None) (selected_objects s) ∧
  (∀ o, is_Some (objects s !! o) → O !! o = None →
        o ∈ joined_meshes s ∨ o ∈ selected_objects s).

(** From the assignment to [duplicated_meshes] to the end of the round:
    what is selected is among the duplicates, and every duplicate still
    there is selected. *)
Definition join_ready (O : gmap nat Obj) (s : State) : Prop :=
  join_inv O s ∧
  abort_postjoin_meshes s = [] ∧
  Forall (λ o, o ∈ duplicated_meshes s) (selected_objects s) ∧
  (∀ o, o ∈ duplicated_meshes s → is_Some (objects s !! o) →
        o ∈ selected_objects s).

(** Between two rounds of the joining loop. *)
Definition join_idle (O : gmap nat Obj) (s : State) : Prop :=
  join_inv O s ∧ duplicated_meshes s = [] ∧ abort_postjoin_meshes s = [].

(** ** The hide flags while they are cleared

    [hide_dirty dirty s0 s]: the state [s] has the objects of [s0], each
    as it was up to its two hide flags, and exactly as it was unless
    [dirty] names it; the hide flags of the collections are those of [s0]
    but for the collections [dirty] names. *)
Definition obj_same_but_hide (ob ob0 : Obj) : Prop :=
  oname ob = oname ob0 ∧ data_name ob = data_name ob0 ∧
  otype ob = otype ob0 ∧
  visible_get ob = visible_get ob0 ∧
  users_collection ob = users_collection ob0.

Definition hide_dirty (dirty : list ref) (s0 s : State) : Prop :=
  (∀ o, match objects s0 !! o, objects s !! o with
        | Some ob0, Some ob =>
            obj_same_but_hide ob ob0 ∧ (RObj o ∉ dirty → ob = ob0)
        | None, None => True
        | _, _ => False
        end) ∧
  (∀ c, RColl c ∉ dirty → coll_hide s !! c = coll_hide s0 !! c).

(** Every entry of [save] holds the hide flags its object or collection
    has in [s0]. *)
Definition save_of (s0 : State) (save : list (ref * bool * bool)) : Prop :=
  Forall (λ e,
      match e.1.1 with
      | RObj o => ∃ ob0, objects s0 !! o = Some ob0 ∧
                         hide_select ob0 = e.1.2 ∧ hide_viewport ob0 = e.2
      | RColl c => coll_hide s0 !! c = Some (e.1.2, e.2)
      end) save.

(** While the temporary view layer [new] is the window's: it is there,
    and the other view layers and the scene's tree are those of [s0]. *)
Definition layers_inv (new : nat) (s0 s : State) : Prop :=
  window_view_layer s = new ∧
  is_Some (view_layers s !! new) ∧
  (∀ k, k ≠ new → view_layers s !! k = view_layers s0 !! k) ∧
  scene_collection s = scene_collection s0.

(** What C1 is about: objects (with their flags), hide flags of the
    collections, view layers, the window's view layer, the scene's
    tree. *)
Definition scene_eq (s0 s : State) : Prop :=
  objects s = objects s0 ∧
  coll_hide s = coll_hide s0 ∧
  scene_collection s = scene_collection s0 ∧
  view_layers s = view_layers s0 ∧
  window_view_layer s = window_view_layer s0.

(** The hide flags of the collections are [C] and the window's view layer
    is there: what the innermost [try] keeps. *)
Definition coll_layer_inv (C : gmap nat (bool * bool)) (s : State) : Prop :=
  coll_hide s = C ∧ is_Some (view_layers s !! window_view_layer s).

Definition hide_inv (dirty : list ref) (s0 s : State) : Prop :=
  hide_dirty dirty s0 s ∧ is_Some (view_layers s !! window_view_layer s).

(** The meshes of the collections to join, as the second loop of lines
    445 to 448 goes through them. *)
Definition unit_mesh (units : list Collection) (objs : gmap nat Obj)
    (o : nat) : Prop :=
  ∃ c, c ∈ units ∧ o ∈ all_objects c objs ∧ obj_test objs is_mesh o = true.

(** The objects [execute] records as hidden when [use_visible] is set,
    lines 323 to 326. *)
Definition hidden_objects_of (collection_to_export : Collection)
    (s : State) : list nat :=
  filter (λ o, obj_test (objects s) (λ ob, negb (visible_get ob)) o)
    (all_objects collection_to_export (objects s)).

(** The calls of the exporter logged since the log was [log0] were all
    made with a selection that has none of [hidden]. *)
Definition exports_clean (log0 : list (gmap string value * list nat))
    (hidden : list nat) (s : State) : Prop :=
  ∃ new, exported s = log0 ++ new ∧
         Forall (λ e, Forall (λ o, o ∉ hidden) e.2) new.

(** The names the joined object and its mesh end up with in round [i],
    when the code asks for [name]: lines 410 and 411. *)
Definition joined_names (faults : Faults) (i : nat) (name : string)
    : string * string :=
  let given := f_given_name faults i name in
  (given, f_given_data_name faults i given).

(** The meshes [select_included_objects_in_collection] selects in [c]
    with [mesh_only]: the ones the view layer has and that were not
    recorded as hidden. *)
Definition selectable_meshes (view_layer : nat) (hidden : list nat)
    (c : Collection) (s : State) : list nat :=
  filter (λ o, o ∈ view_layer_objects view_layer s ∧ o ∉ hidden ∧
               obj_test (objects s) is_mesh o = true)
    (all_objects c (objects s)).

(** The collections to join that get a joined mesh: those with a mesh
    to select. *)
Definition joined_units (view_layer : nat) (hidden : list nat)
    (units : list Collection) (s : State) : list Collection :=
  filter (λ c, selectable_meshes view_layer hidden c s ≠ []) units.

(** The scene's tree and the exclude flags of the view layers are those
    of [s0]: what the joining leaves alone. *)
Definition same_layers (s0 s : State) : Prop :=
  scene_collection s = scene_collection s0 ∧
  ∀ k, vl_flags <$> view_layers s !! k = vl_flags <$> view_layers s0 !! k.

(** An object has the type and the collections of another. *)
Definition obj_alike (ob ob0 : Obj) : Prop :=
  otype ob = otype ob0 ∧ users_collection ob = users_collection ob0.

(** Every object made since the store was [O] is like an object of [O]
    that was not recorded as hidden. *)
Definition copies_inv (O : gmap nat Obj) (hidden : list nat) (s : State) : Prop :=
  ∀ m ob, objects s !! m = Some ob → O !! m = None →
          ∃ o ob0, O !! o = Some ob0 ∧ o ∉ hidden ∧ obj_alike ob ob0.

(** [m] is a mesh of the store that is linked to [c] or to a collection
    below it. *)
Definition joined_for (s : State) (m : nat) (c : Collection) : Prop :=
  ∃ ob, objects s !! m = Some ob ∧ is_mesh ob = true ∧
        in_collection c ob = true.

(** Between two rounds of the joining loop, [done] being the collections
    gone through since the state was [s0]. *)
Definition rounds_inv (view_layer : nat)
    (hidden : list nat) (s0 : State) (done : list Collection) (s : State)
    : Prop :=
  join_idle (objects s0) s ∧
  same_layers s0 s ∧
  copies_inv (objects s0) hidden s ∧
  NoDup (joined_meshes s) ∧
  Forall2 (joined_for s) (joined_meshes s)
    (joined_units view_layer hidden done s0).

(** What [execute] reports besides the missing-[use_selection] error. *)
Definition reports_no_use_selection (st0 s : State) : Prop :=
  ∀ lvl n, (lvl, NoUseSelection n) ∈ reports s →
           (lvl, NoUseSelection n) ∈ reports st0.

(** A statement never raises. *)
Definition returns {A} (m : M A) : Prop :=
  ∀ s, ∃ a s', m s = (Returns a, s').

(** While a run goes on: the exports made were clean, the objects recorded
    as hidden are still there, and so is the window's view layer. *)
Definition hidden_inv (log0 : list (gmap string value * list nat))
    (hidden : list nat) (s : State) : Prop :=
  exports_clean log0 hidden s ∧
  (∀ o, o ∈ hidden → is_Some (objects s !! o)) ∧
  is_Some (view_layers s !! window_view_layer s).

(** An object or a collection is there with both hide flags off (a
    collection that has no entry has them off). *)
Definition is_clear (oc : ref) (s : State) : Prop :=
  match oc with
  | RObj o => ∃ ob, objects s !! o = Some ob ∧
                    hide_select ob = false ∧ hide_viewport ob = false
  | RColl c => coll_hide_of s c = (false, false)
  end.

Definition ref_exists (oc : ref) (s : State) : Prop :=
  match oc with
  | RObj o => is_Some (objects s !! o)
  | RColl _ => True
  end.

(** The document still starts with [t]. *)
Definition text_kept (t : string) (s : State) : Prop :=
  ∃ rest, texts s = Some (t +:+ rest).

(** A section reads [exportable] as false; a section reads [join_meshes]
    as true. *)
Definition section_unexportable (env : Env) (config : Config)
    (section : string) : bool :=
  match cfg_getboolean env config section "exportable" with
  | Returns (Some false) => true
  | _ => false
  end.

Definition section_joins (env : Env) (config : Config)
    (section : string) : bool :=
  match cfg_getboolean env config section "join_meshes" with
  | Returns (Some true) => true
  | _ => false
  end.



(** Since [s], warnings were reported and then an error, the last
    report. *)
Definition error_reported (s s' : State) : Prop :=
  ∃ pre msg, reports s' = reports s ++ pre ++ [(ERROR, msg)] ∧
             Forall (λ r, r.1 = WARNING) pre.

(** ** A host that does as asked

    [make_joined_mesh_fails]: why a round of the joining loop that has
    meshes to join may raise: the host does not duplicate, does not join
    or does not let the object be named, the collection has no name for
    its joined mesh, or the object made is one recorded before. *)
Definition make_joined_mesh_fails (faults : Faults)
    (names : gmap string string) (i : nat) (c : Collection) (s1 : State)
    : Prop :=
  f_duplicate faults i ≠ DupOk ∨ f_join faults i ≠ JoinOk ∨
  f_rename faults i = true ∨ names !! cname c = None ∨
  fresh_id (objects s1) ∈ joined_meshes s1.

(** The host does what the joining loop asks of it. *)
Definition joining_obliged (faults : Faults) : Prop :=
  (∀ i, f_select_meshes faults i = false) ∧
  (∀ i, f_duplicate faults i = DupOk) ∧
  (∀ i, f_join faults i = JoinOk) ∧
  (∀ i, f_rename faults i = false).

(** The host does what [execute] asks of it before it calls the
    exporter. *)
Definition host_obliges (faults : Faults) : Prop :=
  f_visible_get faults = false ∧
  f_view_layer_add faults = AddOk ∧
  f_set_excluded faults = false ∧
  (∀ i, f_clear_hide faults i = false) ∧
  joining_obliged faults ∧
  f_select faults = false ∧ f_deselect faults = false ∧
  f_reselect faults = false.

(** The report of lines 469 to 474 for a finished export of the selection
    [sel]. *)
Definition export_report (collection_to_export : Collection)
    (settings : gmap string value) (sel : list nat) : Level * Message :=
  match sel with
  | [] => (WARNING, ExportedEmpty (cname collection_to_export)
                      (settings !! "filepath"))
  | _ :: _ => (INFO, Exported (cname collection_to_export)
                       (settings !! "filepath"))
  end.

(** Before the call of the exporter: the log of the calls and the reports
    are [log0] and [reports0], and the window's view layer is there. *)
Definition run_kept (log0 : list (gmap string value * list nat))
    (reports0 : list (Level * Message)) (s : State) : Prop :=
  exported s = log0 ∧ reports s = reports0 ∧
  is_Some (view_layers s !! window_view_layer s).

(** After the call of the exporter: one call was logged; when the
    exporter finished, [FINISHED] is the result and the report of the
    export the one report added; when it was cancelled, [CANCELLED] is
    the result and nothing was reported. *)
Definition exported_once (faults : Faults) (collection_to_export : Collection)
    (log0 : list (gmap string value * list nat))
    (reports0 : list (Level * Message)) (r : op_result) (s : State) : Prop :=
  ∃ settings sel,
    exported s = log0 ++ [(settings, sel)] ∧
    ((f_export faults = ExportFinished ∧ r = FINISHED ∧
      reports s = reports0 ++ [export_report collection_to_export settings sel]) ∨
     (f_export faults = ExportCancelled ∧ r = CANCELLED ∧
      reports s = reports0)).

(** What a run returns and adds to the reports when it has called the
    exporter with the selection [sel]. *)
Definition export_outcome (faults : Faults) (collection_to_export : Collection)
    (settings : gmap string value) (sel : list nat)
    (r : outcome op_result) (added : list (Level * Message)) : Prop :=
  match f_export faults with
  | ExportFinished =>
      r = Returns FINISHED ∧
      added = [export_report collection_to_export settings sel]
  | ExportCancelled => r = Returns CANCELLED ∧ added = []
  | ExportRaises => (∃ e, r = Raises e) ∧ added = []
  end.

(** The exporter raised: one call was logged and nothing reported. *)
Definition export_raised (faults : Faults)
    (log0 : list (gmap string value * list nat))
    (reports0 : list (Level * Message)) (s : State) : Prop :=
  ∃ settings sel,
    exported s = log0 ++ [(settings, sel)] ∧
    f_export faults = ExportRaises ∧ reports s = reports0.

(** ** Example host and scene for the scenarios *)

(** A cut of the properties of the FBX export operator. *)
Definition ex_fbx : list (string * Property) := [
  ("rna_type", OtherProperty);
  ("filepath", StringProperty);
  ("check_existing", BoolProperty);
  ("filter_glob", StringProperty);
  ("use_selection", BoolProperty);
  ("use_visible", BoolProperty);
  ("use_active_collection", BoolProperty);
  ("global_scale", FloatProperty);
  ("object_types",
   EnumProperty ["EMPTY"; "CAMERA"; "LIGHT"; "ARMATURE"; "MESH"; "OTHER"] true);
  ("use_mesh_modifiers", BoolProperty);
  ("path_mode",
   EnumProperty ["AUTO"; "ABSOLUTE"; "RELATIVE"; "MATCH"; "STRIP"; "COPY"] false);
  ("batch_mode",
   EnumProperty ["OFF"; "SCENE"; "COLLECTION"] false)
].

(** The characters [str.isspace] accepts among the first 128, and
    [str.isspace] on a text of the first 128 characters. *)
Definition is_space (c : ascii) : bool :=
  let n := nat_of_ascii c in
  bool_decide (n = 32 ∨ (9 ≤ n ∧ n ≤ 13) ∨ (28 ≤ n ∧ n ≤ 31)).

Definition ascii_isspace (s : string) : bool :=
  negb (bool_decide (s = EmptyString)) &&
  forallb is_space (list_ascii_of_string s).

(** A host whose parser reads every document as [config], whose documents
    hold no [%] for the interpolation to look at, where the blend file is
    saved and every directory exists. *)
Definition ex_env (config : Config) : Env :=
  {| fbx := ex_fbx;
     isspace := ascii_isspace;
     read_string := λ _, Returns config;
     interpolate := λ _ _ _ raw, Returns raw;
     py_float_ok := λ _, true;
     py_float_nonzero := λ _, true;
     py_int := λ _, Some 0%Z;
     is_saved := true;
     abspath := λ p, p;
     native_pathsep := λ p, p;
     normpath := λ p, p;
     isdir := λ _, true;
     joinpath := λ d f, d +:+ "/" +:+ f |}.

Definition ex_obj (n t : string) (hidden : bool) (c : nat) : Obj :=
  {| oname := n; data_name := n; otype := t;
     hide_select := false; hide_viewport := hidden;
     visible_get := negb hidden; users_collection := [c] |}.

(** The scene [Root{B{C,D},E}] with two meshes in [C], a hidden mesh in
    [D], a light in [B] and a mesh in [E]; one view layer. *)
Definition ex_state (txt : option string) : State :=
  {| objects := {[ 10 := ex_obj "c1" "MESH" false 2;
                   11 := ex_obj "c2" "MESH" false 2;
                   12 := ex_obj "d1" "MESH" true 3;
                   13 := ex_obj "lamp" "LIGHT" false 1;
                   14 := ex_obj "e1" "MESH" false 4 ]};
     coll_hide := {[ 3 := (false, true) ]};
     scene_collection := sc_Root;
     view_layers := {[ 0 := empty_layer ]};
     window_view_layer := 0;
     texts := txt;
     reports := [];
     exported := [];
     joined_meshes := [];
     duplicated_meshes := [];
     abort_postjoin_meshes := [] |}.

(** A document with sections for [B], [C] and [D]: [B] is exported with
    [use_visible], the meshes of [C] and of [D] are to be joined. *)
Definition ex_join_text : string :=
  unlines ["[B]"; "use_visible = true";
           "[C]"; "join_meshes = true"; "joined_mesh_name = CJ";
           "[D]"; "join_meshes = true"].

Definition ex_join_config : Config :=
  {| cfg_defaults := ∅;
     cfg_sections := [("B", {[ "use_visible" := "true" ]});
                      ("C", {[ "join_meshes" := "true";
                               "joined_mesh_name" := "CJ" ]});
                      ("D", {[ "join_meshes" := "true" ]})] |}.

(** A document with a section for [D], exported with [use_visible]. *)
Definition ex_hidden_text : string := unlines ["[D]"; "use_visible = true"].

Definition ex_hidden_config : Config :=
  {| cfg_defaults := ∅;
     cfg_sections := [("D", {[ "use_visible" := "true" ]})] |}.

(** A document whose [[DEFAULT]] section gives a file name that ends with
    a percent sign, and a host whose interpolation refuses that value, as
    the parser's does: the [%] starts no reference. *)
Definition ex_percent_text : string :=
  unlines ["[DEFAULT]"; "filename = 100%"].

Definition ex_percent_config : Config :=
  {| cfg_defaults := {[ "filename" := "100%" ]}; cfg_sections := [] |}.

Definition ex_percent_env : Env :=
  {| fbx := ex_fbx;
     isspace := ascii_isspace;
     read_string := λ _, Returns ex_percent_config;
     interpolate := λ _ _ _ raw,
       if bool_decide (raw = "100%") then Raises InterpolationError
       else Returns raw;
     py_float_ok := λ _, true;
     py_float_nonzero := λ _, true;
     py_int := λ _, Some 0%Z;
     is_saved := true;
     abspath := λ p, p;
     native_pathsep := λ p, p;
     normpath := λ p, p;
     isdir := λ _, true;
     joinpath := λ d f, d +:+ "/" +:+ f |}.

(** The example scene with [D] emptied. *)
Definition ex_state_empty_D (txt : option string) : State :=
  with_objects (delete 12) (ex_state txt).

(** The names of the joined meshes [ex_join_config] asks for. *)
Definition ex_join_names : gmap string string := {[ "C" := "CJ"; "D" := "D" ]}.

(** * Properties *)

(** Induction over layer trees with the hypothesis for every child. *)
Lemma LayerCollection_ind' (P : LayerCollection → Prop)
    (Hnode : ∀ i s cs, Forall P cs → P (LayerColl i s cs)) :
  ∀ lc, P lc.
Proof.
  fix IH 1. intros [i s cs]. apply Hnode.
  induction cs as [|c cs IHcs]; constructor; [apply IH | exact IHcs].
Qed.

Lemma lc_ids_unfold lc :
  lc_ids lc = collection lc :: flat_map lc_ids (children lc).
Proof.
  unfold lc_ids. destruct lc as [i s cs]; simpl. f_equal.
  induction cs as [|c cs IH]; simpl; [done|].
  by rewrite map_app, IH.
Qed.

Lemma lc_reach_ids root anc n :
  lc_reach root anc n → collection n ∈ lc_ids root.
Proof.
  induction 1 as [lc|lc c anc n Hc _ IH].
  - rewrite lc_ids_unfold. left.
  - rewrite lc_ids_unfold. right. apply list_elem_of_In, in_flat_map.
    exists c. split; by apply list_elem_of_In.
Qed.

Lemma lc_reach_sub_ids root anc n i :
  lc_reach root anc n → i ∈ lc_ids n → i ∈ lc_ids root.
Proof.
  induction 1 as [lc|lc c anc n Hc _ IH]; [done|].
  intros Hi. rewrite lc_ids_unfold. right. apply list_elem_of_In, in_flat_map.
  exists c. split; apply list_elem_of_In; auto.
Qed.

Lemma NoDup_flat_map_ids_cons c cs :
  NoDup (flat_map lc_ids (c :: cs)) →
  NoDup (lc_ids c) ∧ NoDup (flat_map lc_ids cs) ∧
  ∀ i, i ∈ lc_ids c → i ∉ flat_map lc_ids cs.
Proof.
  simpl. intros H. apply NoDup_app in H as (H1 & H2 & H3). auto.
Qed.

(** Outside the collection to export every collection of a chain is
    excluded. *)
Lemma flag_along_outside names cte chain :
  Forall (λ c, collection c ≠ cte) chain → chain ≠ [] →
  ∀ wne d, flag_along names cte false wne chain d = true.
Proof.
  induction 1 as [|c rest Hc Hrest IH]; [done|]. intros _ wne d. simpl.
  rewrite decide_False by done.
  destruct rest as [|c' rest']; [done|]. by apply IH.
Qed.

(** The collection to export resets the walk. *)
Lemma flag_along_target names cte pre t post :
  collection t = cte →
  ∀ w wne d, flag_along names cte w wne (pre ++ t :: post) d =
             flag_along names cte true false post false.
Proof.
  intros Ht. induction pre as [|c pre IH]; intros w wne d; simpl.
  - by rewrite decide_True.
  - repeat case_decide; repeat case_match; apply IH.
Qed.

Lemma flag_along_allowed names cte post :
  Forall (λ c, name c ∉ names) post →
  flag_along names cte true false post false = false.
Proof.
  induction 1 as [|c rest Hc Hrest IH]; [done|]. simpl.
  case_decide; [done|]. by rewrite bool_decide_eq_false_2.
Qed.

Lemma flag_along_within_nonexportable names cte l :
  Forall (λ c, collection c ≠ cte) l →
  flag_along names cte true true l true = true.
Proof.
  induction 1 as [|c rest Hc Hrest IH]; [done|]. simpl.
  by rewrite decide_False.
Qed.

Lemma flag_along_sticky names cte mid d post :
  name d ∈ names →
  Forall (λ c, collection c ≠ cte) (mid ++ d :: post) →
  ∀ wne dflt, flag_along names cte true wne (mid ++ d :: post) dflt = true.
Proof.
  intros Hd. induction mid as [|c mid IH]; simpl; intros Hall wne dflt.
  - apply Forall_cons in Hall as [Hc Hpost]. rewrite decide_False by done.
    rewrite bool_decide_eq_true_2, orb_true_r by done.
    by apply flag_along_within_nonexportable.
  - apply Forall_cons in Hall as [Hc Hrest]. rewrite decide_False by done.
    by apply IH.
Qed.

Lemma NoDup_flat_map_elem {A B} (f : A → list B) (l : list A) (x : A) :
  NoDup (flat_map f l) → x ∈ l → NoDup (f x).
Proof.
  induction l as [|y l IH]; simpl; intros Hnd Hx.
  - by apply elem_of_nil in Hx.
  - apply NoDup_app in Hnd as (H1 & _ & H2).
    apply elem_of_cons in Hx as [->|Hx]; auto.
Qed.

Lemma lc_reach_chain_ids root anc n x :
  lc_reach root anc n → x ∈ anc ++ [n] → collection x ∈ lc_ids root.
Proof.
  induction 1 as [lc|lc c anc n Hc Hr IH]; simpl.
  - intros ->%list_elem_of_singleton. rewrite lc_ids_unfold. left.
  - intros [->|Hx]%elem_of_cons; rewrite lc_ids_unfold; [left|right].
    apply list_elem_of_In, in_flat_map. exists c.
    split; apply list_elem_of_In; auto.
Qed.

(** In a tree whose collections are distinct, so are the collections
    along a chain of ancestors. *)
Lemma lc_reach_chain_NoDup root anc n :
  lc_reach root anc n → NoDup (lc_ids root) →
  NoDup (map collection (anc ++ [n])).
Proof.
  induction 1 as [lc|lc c anc n Hc Hr IH]; simpl; intros Hnd.
  - apply NoDup_singleton.
  - rewrite lc_ids_unfold in Hnd. apply NoDup_cons in Hnd as [Hout Hin].
    apply NoDup_cons. split.
    + intros (x & Hx & Hxin)%list_elem_of_fmap. apply Hout.
      apply list_elem_of_In, in_flat_map. exists c.
      split; [by apply list_elem_of_In|]. apply list_elem_of_In.
      rewrite Hx. eapply lc_reach_chain_ids; eauto.
    + apply IH. eapply NoDup_flat_map_elem; eauto.
Qed.

Lemma lc_ids_reach root i :
  i ∈ lc_ids root → ∃ anc n, lc_reach root anc n ∧ collection n = i.
Proof.
  induction root as [j s cs IH] using LayerCollection_ind'.
  rewrite lc_ids_unfold. simpl. intros [->|Hi]%elem_of_cons.
  - exists [], (LayerColl j s cs). split; [constructor|done].
  - apply list_elem_of_In, in_flat_map in Hi as (c & Hc & Hi).
    apply list_elem_of_In in Hc, Hi.
    rewrite Forall_forall in IH.
    destruct (IH c Hc Hi) as (anc & n & Hr & Hn).
    exists (LayerColl j s cs :: anc), n. split; [|done].
    by econstructor.
Qed.

Section PropagatorFacts.

Context {Host : Type}.
Variable exclude_of : Host → nat → bool.
Variable assign_exclude : LayerCollection → bool → Host → Host.

(** What the docstring relies on: the assignment sets the flag of the
    collection assigned, and changes no flag outside its subtree. *)
Hypothesis assign_own : ∀ c b h,
  exclude_of (assign_exclude c b h) (collection c) = b.
Hypothesis assign_frame : ∀ c b h i,
  i ∉ lc_ids c → exclude_of (assign_exclude c b h) i = exclude_of h i.

Local Abbreviation run := (set_excluded_collections assign_exclude).

(** One round of the loop over the children. *)
Definition visit_child (names : list string) (cte : nat) (w wne : bool)
    (h : Host) (clc : LayerCollection) : Host :=
  if decide (collection clc = cte) then
    run clc names cte true false (assign_exclude clc false h)
  else if w then
    let tmp_wne :=
      if negb wne then (if decide (name clc ∈ names) then true else wne)
      else wne in
    run clc names cte true tmp_wne (assign_exclude clc tmp_wne h)
  else run clc names cte false false (assign_exclude clc true h).

Lemma run_unfold lc names cte w wne h :
  run lc names cte w wne h =
  foldl (visit_child names cte
           (if decide (collection lc = cte) then true else w) wne)
    h (children lc).
Proof. destruct lc; reflexivity. Qed.

Lemma visit_child_frame names cte w wne h c i :
  (∀ w wne h, i ∉ flat_map lc_ids (children c) →
     exclude_of (run c names cte w wne h) i = exclude_of h i) →
  i ∉ lc_ids c →
  exclude_of (visit_child names cte w wne h c) i = exclude_of h i.
Proof.
  intros Hc Hi.
  assert (Hsub : i ∉ flat_map lc_ids (children c)).
  { intros Hin. apply Hi. rewrite lc_ids_unfold. by right. }
  unfold visit_child.
  repeat case_decide; repeat case_match; rewrite Hc by done; by apply assign_frame.
Qed.

Lemma run_frame names cte lc :
  ∀ w wne h i, i ∉ flat_map lc_ids (children lc) →
    exclude_of (run lc names cte w wne h) i = exclude_of h i.
Proof.
  induction lc as [j s cs IH] using LayerCollection_ind'.
  intros w wne h i. rewrite run_unfold. simpl.
  generalize (if decide (j = cte) then true else w). intros w'.
  revert h. induction IH as [|c cs Hc _ IHcs]; intros h Hi; [done|].
  simpl in Hi. apply not_elem_of_app in Hi as [Hi1 Hi2].
  simpl. rewrite IHcs by done.
  apply visit_child_frame; [|done]. intros; by apply Hc.
Qed.

Lemma visit_children_frame names cte w wne cs h i :
  i ∉ flat_map lc_ids cs →
  exclude_of (foldl (visit_child names cte w wne) h cs) i = exclude_of h i.
Proof.
  revert h. induction cs as [|c cs IH]; intros h Hi; [done|].
  simpl in Hi. apply not_elem_of_app in Hi as [Hi1 Hi2].
  simpl. rewrite IH by done.
  apply visit_child_frame; [|done]. intros; by apply run_frame.
Qed.

Lemma flag_along_last names cte chain :
  chain ≠ [] → ∀ w wne d1 d2,
  flag_along names cte w wne chain d1 = flag_along names cte w wne chain d2.
Proof.
  destruct chain as [|c rest]; [done|]. intros _ w wne d1 d2. simpl.
  repeat case_decide; by repeat case_match.
Qed.

Lemma lc_reach_head c anc n :
  lc_reach c anc n →
  (anc = [] ∧ n = c) ∨ (∃ anc', anc = c :: anc').
Proof. destruct 1; eauto. Qed.

(** The flag of every collection below the one visited is the one the
    walk along its chain of ancestors computes. *)
Lemma run_flag names cte lc :
  ∀ w wne h anc n,
    NoDup (lc_ids lc) → lc_reach lc anc n → anc ≠ [] →
    exclude_of (run lc names cte w wne h) (collection n) =
    flag_along names cte (if decide (collection lc = cte) then true else w)
      wne (tail anc ++ [n]) false.
Proof.
  induction lc as [j s cs IH] using LayerCollection_ind'.
  intros w wne h anc n Hnd Hreach Hanc.
  rewrite run_unfold. simpl.
  generalize (if decide (j = cte) then true else w). intros W.
  inversion Hreach as [|lc c anc' n' Hc Hr]; subst; [done|]. clear Hreach Hanc.
  simpl in Hc. simpl tail.
  rewrite lc_ids_unfold in Hnd. simpl in Hnd. apply NoDup_cons in Hnd as [_ Hnd].
  revert h. induction IH as [|c0 cs Hc0 _ IHcs]; intros h.
  { by apply elem_of_nil in Hc. }
  apply NoDup_flat_map_ids_cons in Hnd as (Hnd0 & Hnds & Hdisj).
  simpl. apply elem_of_cons in Hc as [->|Hc].
  - rewrite visit_children_frame
      by (apply Hdisj; eapply lc_reach_ids; eauto).
    destruct (lc_reach_head _ _ _ Hr) as [[-> ->]|[anc'' ->]].
    + (* the child itself *)
      assert (Hown : collection c0 ∉ flat_map lc_ids (children c0)).
      { rewrite lc_ids_unfold in Hnd0. by apply NoDup_cons in Hnd0 as [? _]. }
      simpl. unfold visit_child.
      repeat case_decide; repeat case_match; simpl in *;
        rewrite run_frame, assign_own by done; try done;
        try by (symmetry; apply bool_decide_eq_true).
      all: try by (symmetry; apply bool_decide_eq_false).
      all: by destruct wne.
    + (* below the child *)
      simpl. unfold visit_child.
      repeat case_decide; repeat case_match; simpl in *;
        rewrite (Hc0 _ _ _ _ _ Hnd0 Hr) by done; simpl; repeat case_decide; try done;
        try (rewrite (bool_decide_eq_true_2 _) by done);
        try (rewrite (bool_decide_eq_false_2 _) by done);
        try apply flag_along_last; try by destruct anc''.
      all: destruct wne; simpl in *; try done; apply flag_along_last; by destruct anc''.
  - apply IHcs; auto.
Qed.

(** The collection at the root of the layer tree is never assigned. *)
Lemma run_root_unchanged names cte root w wne h :
  NoDup (lc_ids root) →
  exclude_of (run root names cte w wne h) (collection root) =
  exclude_of h (collection root).
Proof.
  intros Hnd. apply run_frame.
  rewrite lc_ids_unfold in Hnd. by apply NoDup_cons in Hnd as [? _].
Qed.

Lemma run_outside names cte root w wne h i :
  i ∉ lc_ids root →
  exclude_of (run root names cte w wne h) i = exclude_of h i.
Proof.
  intros Hi. apply run_frame. intros Hin. apply Hi.
  rewrite lc_ids_unfold. by right.
Qed.

(** C2, as the claim reads once its three parts are told apart by where a
    collection sits: for every layer tree of distinct collections that
    holds the collection to export, after
    [set_excluded_collections(root, names, cte)]
    - a collection that is neither the collection to export, nor one of
      its ancestors, nor below it, is excluded;
    - a collection below the collection to export is included
      ([exclude = False]) when no collection from just below the
      collection to export down to itself is named in [names];
    - a collection named in [names] below the collection to export is
      excluded together with every collection below it, whatever their
      own names. *)
Theorem set_excluded_collections_marks names cte root h anc n :
  NoDup (lc_ids root) →
  cte ∈ lc_ids root →
  lc_reach root anc n →
  let h' := run root names cte false false h in
  (cte ∉ lc_ids n → cte ∉ map collection anc →
     exclude_of h' (collection n) = true) ∧
  (∀ pre t post,
     anc ++ [n] = pre ++ t :: post → collection t = cte → post ≠ [] →
     Forall (λ c, name c ∉ names) post →
     exclude_of h' (collection n) = false) ∧
  (∀ pre t mid d post,
     anc ++ [n] = pre ++ t :: mid ++ d :: post → collection t = cte →
     name d ∈ names →
     exclude_of h' (collection n) = true).
Proof.
  intros Hnd Hcte Hreach h'.
  pose proof (lc_reach_chain_NoDup _ _ _ Hreach Hnd) as Hchain.
  destruct (lc_reach_head _ _ _ Hreach) as [[-> ->]|[anc' ->]].
  - (* the root itself *)
    split; [by intros Hout _|]. split.
    + intros pre t post Heq _ Hpost.
      destruct pre as [|? [|? ?]]; simplify_eq/=; try done; by destruct post.
    + intros pre t mid d post Heq _ _.
      destruct pre as [|? [|? ?]]; simplify_eq/=; try done; by destruct mid.
  - subst h'. rewrite (run_flag _ _ _ _ _ _ _ _ Hnd Hreach) by done.
    simpl tail. simpl in Hchain. split; [|split].
    + intros Hn Hanc. rewrite decide_False.
      2:{ intros Heq. apply Hanc. rewrite <- Heq. left. }
      apply flag_along_outside; [|by destruct anc'].
      apply Forall_app. split.
      * apply Forall_forall. intros x Hx Heq. apply Hanc. rewrite <- Heq.
        right. by apply list_elem_of_fmap_2.
      * apply Forall_singleton. intros Heq. apply Hn. rewrite <- Heq.
        rewrite lc_ids_unfold. left.
    + intros pre t post Heq Ht Hpost Hnames.
      destruct pre as [|r pre]; simplify_eq/=.
      * case_decide; [|done]. by apply flag_along_allowed.
      * rewrite H0, flag_along_target by done. by apply flag_along_allowed.
    + intros pre t mid d post Heq Ht Hd.
      assert (Hmid : Forall (λ c, collection c ≠ collection t) (mid ++ d :: post)).
      { pose proof (lc_reach_chain_NoDup _ _ _ Hreach Hnd) as Hc2.
        rewrite Heq, fmap_app, fmap_cons in Hc2.
        apply NoDup_app in Hc2 as (_ & _ & Hc2).
        apply NoDup_cons in Hc2 as [Hc2 _].
        apply Forall_forall. intros x Hx Hxeq. apply Hc2.
        rewrite <- Hxeq. by apply list_elem_of_fmap_2. }
      subst cte.
      destruct pre as [|r pre]; simplify_eq/=.
      * case_decide; [|done]. rewrite H0. by apply flag_along_sticky.
      * rewrite H0, flag_along_target by done. by apply flag_along_sticky.
Qed.

(** C8: running the propagator a second time with the same tree, the same
    collection to export and the same names leaves every exclude flag as
    the first run left it. *)
Theorem set_excluded_collections_idempotent names cte root h i :
  NoDup (lc_ids root) →
  let once := run root names cte false false h in
  let twice := run root names cte false false once in
  exclude_of twice i = exclude_of once i.
Proof.
  intros Hnd once twice.
  destruct (decide (i ∈ lc_ids root)) as [Hi|Hi].
  - apply lc_ids_reach in Hi as (anc & n & Hreach & <-).
    destruct (lc_reach_head _ _ _ Hreach) as [[-> ->]|[anc' ->]].
    + by apply run_root_unchanged.
    + subst once twice. by rewrite !(run_flag _ _ _ _ _ _ _ _ Hnd Hreach).
  - by apply run_outside.
Qed.

Lemma lc_reach_app a anc n anc2 m :
  lc_reach a anc n → lc_reach n anc2 m → lc_reach a (anc ++ anc2) m.
Proof.
  induction 1 as [lc|lc c anc n Hc Hr IH]; [done|].
  intros Hm. simpl. by apply (lc_reach_child _ c); [|apply IH].
Qed.

(** Above the collection to export every collection has another
    identifier. *)
Lemma lc_reach_above root anc n cte :
  NoDup (lc_ids root) → lc_reach root anc n →
  collection n ≠ cte → cte ∈ lc_ids n →
  Forall (λ c, collection c ≠ cte) (anc ++ [n]).
Proof.
  intros Hnd Hreach Hn (anc2 & m & Hm & Hcte)%lc_ids_reach.
  destruct (lc_reach_head _ _ _ Hm) as [[-> ->]|[anc2' ->]]; [done|].
  pose proof (lc_reach_chain_NoDup _ _ _ (lc_reach_app _ _ _ _ _ Hreach Hm) Hnd)
    as Hchain.
  rewrite <-app_assoc in Hchain. simpl in Hchain.
  rewrite (assoc_L _ anc [n] (anc2' ++ [m])
           : anc ++ n :: anc2' ++ [m] = (anc ++ [n]) ++ anc2' ++ [m]) in Hchain.
  rewrite fmap_app in Hchain. apply NoDup_app in Hchain as (_ & Hdisj & _).
  apply Forall_forall. intros x Hx Heq. apply (Hdisj (collection x)).
  - apply list_elem_of_fmap. by exists x.
  - rewrite Heq, <-Hcte. apply list_elem_of_fmap. exists m.
    split; [done|]. apply elem_of_app. right. left.
Qed.

(** X1: what [set_excluded_collections] leaves on the path from the root
    to the collection to export.  The collection to export, when it is
    not the root, is included ([exclude = False]) whether or not its own
    name is listed as not exportable; every collection strictly between
    the root and the collection to export is excluded. *)
Theorem set_excluded_collections_path names cte root h anc n :
  NoDup (lc_ids root) → lc_reach root anc n → anc ≠ [] →
  (collection n = cte →
     exclude_of (run root names cte false false h) (collection n) = false) ∧
  (collection n ≠ cte → cte ∈ lc_ids n →
     exclude_of (run root names cte false false h) (collection n) = true).
Proof.
  intros Hnd Hreach Hanc.
  rewrite (run_flag _ _ _ _ _ _ _ _ Hnd Hreach Hanc). split.
  - intros Hn.
    by rewrite (flag_along_target names cte (tail anc) n [] Hn).
  - intros Hn Hcte.
    pose proof (lc_reach_above _ _ _ _ Hnd Hreach Hn Hcte) as Habove.
    destruct (lc_reach_head _ _ _ Hreach) as [[-> _]|[anc' ->]]; [done|].
    simpl in Habove. apply Forall_cons in Habove as [Hroot Hrest].
    rewrite decide_False by done. simpl.
    apply flag_along_outside; [done|]. by destruct anc'.
Qed.

(** X2: [set_excluded_collections] assigns [exclude] only below the
    layer collection it is called on: the flag of that collection itself
    and the flag of every collection outside its tree are left as they
    were, whatever the carried booleans. *)
Theorem set_excluded_collections_frame names cte root w wne h i :
  NoDup (lc_ids root) →
  i = collection root ∨ i ∉ lc_ids root →
  exclude_of (run root names cte w wne h) i = exclude_of h i.
Proof.
  intros Hnd [->|Hi]; [by apply run_root_unchanged|by apply run_outside].
Qed.

End PropagatorFacts.

(** The view-layer model of the exclude flags meets the two facts the
    propagator relies on. *)
Lemma host_assign_own lc b f :
  host_exclude_of (host_assign_exclude lc b f) (collection lc) = b.
Proof.
  unfold host_exclude_of, host_assign_exclude, flag_of at 1.
  by rewrite lookup_insert_eq.
Qed.

Lemma foldr_insert_frame {V} (g : gmap nat V → nat → V) l f (i : nat) :
  i ∉ l → foldr (λ j m, <[j := g m j]> m) f l !! i = f !! i.
Proof.
  induction l as [|j l IH]; simpl; [done|].
  intros [Hne Hi]%not_elem_of_cons. rewrite lookup_insert_ne by done. auto.
Qed.

Lemma host_assign_frame lc b f i :
  i ∉ lc_ids lc →
  host_exclude_of (host_assign_exclude lc b f) i = host_exclude_of f i.
Proof.
  rewrite lc_ids_unfold. intros [Hne Hi]%not_elem_of_cons.
  unfold host_exclude_of, host_assign_exclude, flag_of at 1.
  rewrite lookup_insert_ne by done.
  rewrite (foldr_insert_frame
             (λ g j, if b then (true, (flag_of g j).1)
                     else ((flag_of g j).2, (flag_of g j).2))) by done.
  done.
Qed.

(** C2 at the example scene: exporting [B] with [C] marked not exportable
    excludes [F], which lies under [C] and is not named itself. *)
Lemma set_excluded_collections_marks_witness :
  NoDup (lc_ids (layer_collection_of ex_A)) ∧
  1 ∈ lc_ids (layer_collection_of ex_A) ∧
  host_exclude_of
    (set_excluded_collections host_assign_exclude (layer_collection_of ex_A)
       ["C"] 1 false false ∅) 5 = true.
Proof.
  assert (Hnd : NoDup (lc_ids (layer_collection_of ex_A))) by compute_done.
  assert (Hin : 1 ∈ lc_ids (layer_collection_of ex_A)) by compute_done.
  split; [exact Hnd|]. split; [exact Hin|].
  refine (proj2 (proj2 (set_excluded_collections_marks host_exclude_of
            host_assign_exclude host_assign_own host_assign_frame
            ["C"] 1 (layer_collection_of ex_A) ∅
            [layer_collection_of ex_A; layer_collection_of ex_B;
             layer_collection_of ex_C]
            (layer_collection_of ex_F) Hnd Hin _))
          [layer_collection_of ex_A] (layer_collection_of ex_B) []
          (layer_collection_of ex_C) [layer_collection_of ex_F]
          eq_refl eq_refl _).
  - apply (lc_reach_child _ (layer_collection_of ex_B)); [left|].
    apply (lc_reach_child _ (layer_collection_of ex_C)); [left|].
    apply (lc_reach_child _ (layer_collection_of ex_F)); [left|].
    constructor.
  - compute_done.
Defined.

(** C8 at the example scene. *)
Lemma set_excluded_collections_idempotent_witness :
  NoDup (lc_ids (layer_collection_of ex_A)) ∧
  host_exclude_of
    (set_excluded_collections host_assign_exclude (layer_collection_of ex_A)
       ["C"] 1 false false
       (set_excluded_collections host_assign_exclude
          (layer_collection_of ex_A) ["C"] 1 false false ∅)) 5 =
  host_exclude_of
    (set_excluded_collections host_assign_exclude (layer_collection_of ex_A)
       ["C"] 1 false false ∅) 5.
Proof.
  assert (Hnd : NoDup (lc_ids (layer_collection_of ex_A))) by compute_done.
  split; [exact Hnd|].
  exact (set_excluded_collections_idempotent host_exclude_of
           host_assign_exclude host_assign_own host_assign_frame
           ["C"] 1 (layer_collection_of ex_A) ∅ 5 Hnd).
Defined.

(** ** MergePlanner *)

Lemma Collection_ind' (P : Collection → Prop)
    (Hnode : ∀ i s cs, Forall P cs → P (Coll i s cs)) :
  ∀ c, P c.
Proof.
  fix IH 1. intros [i s cs]. apply Hnode.
  induction cs as [|c cs IHcs]; constructor; [apply IH | exact IHcs].
Qed.

Lemma elem_of_flat_map {A B} (f : A → list B) (l : list A) (b : B) :
  b ∈ flat_map f l ↔ ∃ a, a ∈ l ∧ b ∈ f a.
Proof.
  rewrite list_elem_of_In, in_flat_map.
  split; intros (a & Ha & Hb); exists a; by rewrite ?list_elem_of_In in *.
Qed.

Lemma NoDup_flat_map_shared {A B} (f : A → list B) (l : list A) x y b :
  NoDup (flat_map f l) → x ∈ l → y ∈ l → b ∈ f x → b ∈ f y → x = y.
Proof.
  induction l as [|z l IH]; simpl; intros Hnd Hx Hy Hbx Hby.
  - by apply elem_of_nil in Hx.
  - apply NoDup_app in Hnd as (_ & Hdisj & Hnd).
    apply elem_of_cons in Hx as [->|Hx]; apply elem_of_cons in Hy as [->|Hy];
      auto.
    + exfalso. apply (Hdisj b Hbx). apply elem_of_flat_map. eauto.
    + exfalso. apply (Hdisj b Hby). apply elem_of_flat_map. eauto.
Qed.

Lemma c_nodes_self c : c ∈ c_nodes c.
Proof. destruct c; left. Qed.

Lemma c_nodes_unfold c : c_nodes c = c :: flat_map c_nodes (cchildren c).
Proof. by destruct c. Qed.

Lemma c_ids_unfold c : c_ids c = cid c :: flat_map c_ids (cchildren c).
Proof.
  unfold c_ids. destruct c as [i s cs]; simpl. f_equal.
  induction cs as [|c cs IH]; simpl; [done|].
  by rewrite map_app, IH.
Qed.

Lemma c_nodes_ids c d : d ∈ c_nodes c → cid d ∈ c_ids c.
Proof. intros Hd. unfold c_ids. by apply list_elem_of_fmap_2. Qed.

Lemma c_nodes_trans c : ∀ r d, r ∈ c_nodes c → d ∈ c_nodes r → d ∈ c_nodes c.
Proof.
  induction c as [i s cs IH] using Collection_ind'. intros r d.
  rewrite (c_nodes_unfold (Coll i s cs)). simpl.
  intros [->|Hr]%elem_of_cons Hd; [done|].
  right. apply elem_of_flat_map in Hr as (c & Hc & Hr).
  apply elem_of_flat_map. exists c. split; [done|].
  rewrite Forall_forall in IH. eapply IH; eauto.
Qed.

Lemma find_topmost_collections_unfold names c :
  find_topmost_collections names c =
  if decide (cname c ∈ names) then [c]
  else flat_map (find_topmost_collections names) (cchildren c).
Proof. by destruct c. Qed.

(** Every collection returned lies in the tree searched and is one of the
    named ones. *)
Lemma find_topmost_collections_sound names c :
  ∀ r, r ∈ find_topmost_collections names c →
       r ∈ c_nodes c ∧ cname r ∈ names.
Proof.
  induction c as [i s cs IH] using Collection_ind'. intros r.
  rewrite find_topmost_collections_unfold, c_nodes_unfold. simpl.
  case_decide as Hname.
  - intros ->%list_elem_of_singleton. split; [left|done].
  - intros (c & Hc & Hr)%elem_of_flat_map. rewrite Forall_forall in IH.
    destruct (IH c Hc r Hr) as [Hin Hn]. split; [|done].
    right. apply elem_of_flat_map. eauto.
Qed.

(** Every named collection of the tree searched lies under a returned
    one. *)
Lemma find_topmost_collections_covers names c :
  ∀ d, d ∈ c_nodes c → cname d ∈ names →
       ∃ r, r ∈ find_topmost_collections names c ∧ d ∈ c_nodes r.
Proof.
  induction c as [i s cs IH] using Collection_ind'. intros d.
  rewrite find_topmost_collections_unfold, c_nodes_unfold. simpl.
  intros Hd Hname. case_decide as Hc.
  - exists (Coll i s cs). split; [left|]. by rewrite c_nodes_unfold.
  - apply elem_of_cons in Hd as [->|Hd]; [done|].
    apply elem_of_flat_map in Hd as (c & Hc' & Hd).
    rewrite Forall_forall in IH.
    destruct (IH c Hc' d Hd Hname) as (r & Hr & Hdr).
    exists r. split; [|done]. apply elem_of_flat_map. eauto.
Qed.

(** Two returned collections never hold a collection in common. *)
Lemma find_topmost_collections_disjoint names c :
  NoDup (c_ids c) →
  ∀ r r' d, r ∈ find_topmost_collections names c →
            r' ∈ find_topmost_collections names c →
            d ∈ c_nodes r → d ∈ c_nodes r' → r = r'.
Proof.
  induction c as [i s cs IH] using Collection_ind'. intros Hnd r r' d.
  rewrite find_topmost_collections_unfold. simpl.
  case_decide as Hname.
  - by intros ->%list_elem_of_singleton ->%list_elem_of_singleton.
  - intros (c & Hc & Hr)%elem_of_flat_map (c' & Hc' & Hr')%elem_of_flat_map
      Hd Hd'.
    rewrite c_ids_unfold in Hnd. apply NoDup_cons in Hnd as [_ Hnd].
    simpl in Hnd.
    assert (c = c') as <-.
    { apply (NoDup_flat_map_shared c_ids cs c c' (cid d)); auto.
      - apply c_nodes_ids. eapply c_nodes_trans; [|exact Hd].
        by apply find_topmost_collections_sound in Hr as [? _].
      - apply c_nodes_ids. eapply c_nodes_trans; [|exact Hd'].
        by apply find_topmost_collections_sound in Hr' as [? _]. }
    rewrite Forall_forall in IH. eapply (IH c Hc); eauto.
    eapply NoDup_flat_map_elem; eauto.
Qed.

Lemma c_nodes_NoDup c :
  ∀ a, a ∈ c_nodes c → NoDup (c_ids c) → NoDup (c_ids a).
Proof.
  induction c as [i s cs IH] using Collection_ind'. intros a.
  rewrite c_nodes_unfold, c_ids_unfold. simpl.
  intros [->|Ha]%elem_of_cons Hnd; [by rewrite c_ids_unfold|].
  apply NoDup_cons in Hnd as [_ Hnd].
  apply elem_of_flat_map in Ha as (c & Hc & Ha).
  rewrite Forall_forall in IH. apply (IH c Hc a Ha).
  by eapply NoDup_flat_map_elem.
Qed.

(** In a tree of distinct collections two collections that lie under
    each other are the same. *)
Lemma c_nodes_antisym a r :
  NoDup (c_ids a) → r ∈ c_nodes a → a ∈ c_nodes r → a = r.
Proof.
  intros Hnd Hr Ha. rewrite c_nodes_unfold in Hr.
  apply elem_of_cons in Hr as [->|Hr]; [done|]. exfalso.
  apply elem_of_flat_map in Hr as (c & Hc & Hr).
  rewrite c_ids_unfold in Hnd. apply NoDup_cons in Hnd as [Hout _].
  apply Hout. apply elem_of_flat_map. exists c. split; [done|].
  apply c_nodes_ids. by eapply c_nodes_trans.
Qed.

(** No collection of the tree above a returned one bears a requested
    name, but the returned one itself. *)
Lemma find_topmost_collections_above names target r a :
  NoDup (c_ids target) →
  r ∈ find_topmost_collections names target →
  a ∈ c_nodes target → r ∈ c_nodes a → cname a ∈ names → a = r.
Proof.
  intros Hnd Hr Ha Hra Haname.
  destruct (find_topmost_collections_covers names target a Ha Haname)
    as (r' & Hr' & Har').
  assert (r' = r) as ->.
  { apply (find_topmost_collections_disjoint names target Hnd r' r r);
      [done|done| |apply c_nodes_self].
    by eapply c_nodes_trans. }
  apply c_nodes_antisym; [|done|done].
  apply (c_nodes_NoDup target a Ha Hnd).
Qed.

(** No collection is returned twice. *)
Lemma find_topmost_collections_NoDup names c :
  NoDup (c_ids c) → NoDup (find_topmost_collections names c).
Proof.
  induction c as [i s cs IH] using Collection_ind'. intros Hnd.
  rewrite find_topmost_collections_unfold. simpl.
  case_decide as Hname; [apply NoDup_singleton|].
  rewrite c_ids_unfold in Hnd. apply NoDup_cons in Hnd as [_ Hnd].
  simpl in Hnd. clear Hname.
  induction cs as [|c cs IHcs]; simpl; [constructor|].
  apply Forall_cons in IH as [IHc IH].
  simpl in Hnd. apply NoDup_app in Hnd as (Hc & Hdisj & Hcs).
  apply NoDup_app. split; [by apply IHc|]. split; [|by apply IHcs].
  intros r Hr (c' & Hc' & Hr')%elem_of_flat_map.
  apply (Hdisj (cid r)).
  - apply c_nodes_ids. by apply find_topmost_collections_sound in Hr as [? _].
  - apply elem_of_flat_map. exists c'. split; [done|].
    apply c_nodes_ids. by apply find_topmost_collections_sound in Hr' as [? _].
Qed.

(** C3 as the code has it: for every tree of distinct collections searched
    from the export target downward, the collections returned are a
    minimal covering set of the collections of the searched tree whose
    name is requested:
    - every returned collection lies in the searched tree and bears a
      requested name, and none is returned twice;
    - no returned collection lies under another returned one;
    - every collection of the searched tree whose name is requested lies
      under (or is) exactly one returned collection;
    - no collection of the searched tree above a returned one bears a
      requested name;
    - no part of the result covers them all: a list that for every such
      collection holds a returned collection above it holds every
      returned collection.
    On [Root{B{C,D},E}] with the names [B] and [E] requested, the search
    from [Root] returns [B] and [E], the search from [B] returns [B].
    Requested names that name no collection of the searched tree are not
    covered: see [find_topmost_collections_leaves_out_requested]. *)
Theorem find_topmost_collections_minimal_cover names target :
  NoDup (c_ids target) →
  let result := find_topmost_collections names target in
  (∀ r, r ∈ result → r ∈ c_nodes target ∧ cname r ∈ names) ∧
  NoDup result ∧
  (∀ r1 r2, r1 ∈ result → r2 ∈ result → r2 ∈ c_nodes r1 → r1 = r2) ∧
  (∀ d, d ∈ c_nodes target → cname d ∈ names →
     ∃ r, r ∈ result ∧ d ∈ c_nodes r ∧
          ∀ r', r' ∈ result → d ∈ c_nodes r' → r' = r) ∧
  (∀ r a, r ∈ result → a ∈ c_nodes target → r ∈ c_nodes a →
          cname a ∈ names → a = r) ∧
  (∀ part : list Collection,
     (∀ d, d ∈ c_nodes target → cname d ∈ names →
           ∃ r, r ∈ part ∧ r ∈ result ∧ d ∈ c_nodes r) →
     ∀ r, r ∈ result → r ∈ part) ∧
  find_topmost_collections ["B"; "E"] sc_Root = [sc_B; sc_E] ∧
  find_topmost_collections ["B"; "E"] sc_B = [sc_B].
Proof.
  intros Hnd result.
  assert (Hanti : ∀ r1 r2, r1 ∈ result → r2 ∈ result → r2 ∈ c_nodes r1 →
                           r1 = r2).
  { intros r1 r2 H1 H2 H12.
    apply (find_topmost_collections_disjoint names target Hnd r1 r2 r2);
      auto using c_nodes_self. }
  split; [apply find_topmost_collections_sound|].
  split; [by apply find_topmost_collections_NoDup|].
  split; [exact Hanti|].
  split; [|split; [|split; [|split]]].
  - intros d Hd Hname.
    destruct (find_topmost_collections_covers names target d Hd Hname)
      as (r & Hr & Hdr).
    exists r. split; [done|]. split; [done|].
    intros r' Hr' Hdr'.
    by apply (find_topmost_collections_disjoint names target Hnd r' r d).
  - intros r a Hr Ha Hra Haname.
    by apply (find_topmost_collections_above names target r a).
  - intros part Hcover r Hr.
    destruct (find_topmost_collections_sound names target r Hr)
      as [Hin Hname].
    destruct (Hcover r Hin Hname) as (r0 & Hpart & Hr0 & Hunder).
    by rewrite <-(Hanti r0 r Hr0 Hr Hunder).
  - reflexivity.
  - reflexivity.
Qed.

Lemma find_topmost_collections_minimal_cover_witness :
  let result := find_topmost_collections ["C"; "B"] sc_Root in
  NoDup (c_ids sc_Root) ∧
  (∀ r, r ∈ result → r ∈ c_nodes sc_Root ∧ cname r ∈ ["C"; "B"]) ∧
  NoDup result ∧
  (∀ r1 r2, r1 ∈ result → r2 ∈ result → r2 ∈ c_nodes r1 → r1 = r2) ∧
  (∀ d, d ∈ c_nodes sc_Root → cname d ∈ ["C"; "B"] →
     ∃ r, r ∈ result ∧ d ∈ c_nodes r ∧
          ∀ r', r' ∈ result → d ∈ c_nodes r' → r' = r) ∧
  (∀ r a, r ∈ result → a ∈ c_nodes sc_Root → r ∈ c_nodes a →
          cname a ∈ ["C"; "B"] → a = r) ∧
  (∀ part : list Collection,
     (∀ d, d ∈ c_nodes sc_Root → cname d ∈ ["C"; "B"] →
           ∃ r, r ∈ part ∧ r ∈ result ∧ d ∈ c_nodes r) →
     ∀ r, r ∈ result → r ∈ part) ∧
  find_topmost_collections ["B"; "E"] sc_Root = [sc_B; sc_E] ∧
  find_topmost_collections ["B"; "E"] sc_B = [sc_B].
Proof.
  cbv zeta.
  assert (Hnd : NoDup (c_ids sc_Root)) by compute_done.
  split; [exact Hnd|].
  exact (find_topmost_collections_minimal_cover ["C"; "B"] sc_Root Hnd).
Defined.

(** C3 as stated fails: a requested name need not lie under any returned
    collection.  With the search started at [B] of [Root{B{C,D},E}] and
    the names [B] and [E] requested, the result is [B] alone, and no
    collection named [E] lies under it. *)
Lemma find_topmost_collections_leaves_out_requested :
  find_topmost_collections ["B"; "E"] sc_B = [sc_B] ∧
  "E" ∈ ["B"; "E"] ∧
  Forall (λ r, "E" ∉ map cname (c_nodes r))
    (find_topmost_collections ["B"; "E"] sc_B).
Proof.
  split; [reflexivity|]. split; [compute_done|].
  apply Forall_singleton. compute_done.
Qed.

(** ** Rules for statements *)

Lemma stable_ret {A} I (a : A) : stable I (ret a).
Proof. by intros s. Qed.

Lemma stable_raise {A} I e : stable I (@raise A e).
Proof. by intros s. Qed.

Lemma stable_gets {A} I (f : State → A) : stable I (gets f).
Proof. by intros s. Qed.

Lemma stable_lift {A} I (o : outcome A) : stable I (lift o).
Proof. by intros s. Qed.

Lemma stable_failing I b : stable I (failing b).
Proof. by destruct b; intros s. Qed.

Lemma stable_modify I f : (∀ s, I s → I (f s)) → stable I (modify f).
Proof. intros Hf s. apply Hf. Qed.

Lemma stable_bind {A B} I (m : M A) (k : A → M B) :
  stable I m → (∀ a, stable I (k a)) → stable I (bind m k).
Proof.
  intros Hm Hk s Hs. unfold bind. specialize (Hm s Hs).
  destruct (m s) as [[a|e] s']; simpl in *; [by apply Hk | done].
Qed.

Lemma stable_try_finally {A} I (body : M A) cleanup :
  stable I body → stable I cleanup → stable I (try_finally body cleanup).
Proof.
  intros Hb Hc s Hs. unfold try_finally. specialize (Hb s Hs).
  destruct (body s) as [r s1]; simpl in *. specialize (Hc s1 Hb).
  by destruct (cleanup s1) as [[?|?] s2].
Qed.

Lemma stable_for_each {A} I (body : nat → A → M unit) l :
  (∀ i x, stable I (body i x)) → ∀ i, stable I (for_each body i l).
Proof.
  intros Hbody. induction l as [|x l IH]; intros i; simpl.
  - apply stable_ret.
  - apply stable_bind; auto.
Qed.

Lemma stable_report I level msg :
  (∀ s, I s → I (with_reports (λ r, r ++ [(level, msg)]) s)) →
  stable I (report level msg).
Proof. apply stable_modify. Qed.

(** One step through a statement for a goal [stable I m]: the rule of
    its head, or a case split on what it branches on. *)
Ltac stable_step :=
  lazymatch goal with
  | |- stable _ (ret _) => apply stable_ret
  | |- stable _ (raise _) => apply stable_raise
  | |- stable _ (gets _) => apply stable_gets
  | |- stable _ (lift _) => apply stable_lift
  | |- stable _ (failing _) => apply stable_failing
  | |- stable _ (bind _ _) => apply stable_bind; [|intros ?]
  | |- stable _ (try_finally _ _) => apply stable_try_finally
  | |- stable _ (for_each _ _ _) => apply stable_for_each; intros ? ?
  | |- stable _ (modify _) => apply stable_modify
  | |- stable _ (report _ _) => apply stable_report
  | |- stable _ (match ?x with _ => _ end) => destruct x
  | |- stable _ (let '(_, _) := ?x in _) => destruct x
  end.

Lemma stable_exporter_arg_rounds I env config section props :
  (∀ acc kv, stable I (exporter_arg_round env config section acc kv)) →
  ∀ acc, stable I (exporter_arg_rounds env config section props acc).
Proof.
  intros Hround. induction props as [|kv props IH]; intros acc; simpl.
  - apply stable_ret.
  - apply stable_bind; [apply Hround|]. intros [acc'|]; [apply IH|].
    apply stable_ret.
Qed.

Ltac head_of t := lazymatch t with ?f _ => head_of f | _ => t end.

(** Walks through a statement down to its assignments, which are left as
    goals. *)
Ltac stable_walk :=
  repeat first
    [ stable_step
    | progress cbv zeta
    | lazymatch goal with
      | |- stable _ (exporter_arg_rounds _ _ _ _ _) =>
          apply stable_exporter_arg_rounds; intros ? ?
      | |- stable _ ?m => let h := head_of m in progress unfold h
      end ].

(** ** The guard on [use_selection] *)

Lemma py_in_str_tuples s l : py_in (PyStr s) (as_pylist l) = false.
Proof. induction l as [|[k v] l IH]; simpl; auto. Qed.

Lemma reports_no_use_selection_report st0 level msg s :
  (∀ n, msg ≠ NoUseSelection n) →
  reports_no_use_selection st0 s →
  reports_no_use_selection st0 (with_reports (λ r, r ++ [(level, msg)]) s).
Proof.
  intros Hmsg Hs lvl n. simpl.
  intros [Hin|Hin%list_elem_of_singleton]%elem_of_app; [by apply Hs|].
  simplify_eq. by destruct (Hmsg n).
Qed.

(** Closes the goal an assignment leaves when it does not touch what the
    invariant reads. *)
Ltac stable_frame :=
  let st1 := fresh "st" in
  let H := fresh "Hst" in
  intros st1 H;
  unfold set_hide, with_selected, with_active, with_flags, select_set in *;
  repeat case_match; destruct st1; simpl in *; done.

Lemma execute_resolved_no_use_selection env faults collection_to_export x st :
  stable (reports_no_use_selection st)
    (execute_resolved env faults collection_to_export x).
Proof.
  destruct x as [[[[exporter_name settings] ne] rj] jn].
  unfold execute_resolved. rewrite py_in_str_tuples.
  stable_walk;
    first [ stable_frame
          | intros st1 Hst1; by apply reports_no_use_selection_report ].
Qed.

(** C10: for every exporter name the test
    ['use_selection' in EXPORTER_PROPERTIES[exporter_name]] is false, a
    string never being equal to a [(name, property)] pair; so whatever the
    host, the faults, the collection and the state, [execute] adds no
    report of a missing [use_selection] property. *)
Theorem use_selection_guard_never_fires env faults collection_to_export st :
  (∀ exporter_name,
     py_in (PyStr "use_selection")
       (as_pylist (default [] (EXPORTER_PROPERTIES env !! exporter_name)))
     = false) ∧
  (∀ lvl n,
     (lvl, NoUseSelection n)
       ∈ reports (execute env faults collection_to_export st).2 →
     (lvl, NoUseSelection n) ∈ reports st).
Proof.
  split; [intros; apply py_in_str_tuples|].
  assert (Hst : stable (reports_no_use_selection st)
                  (execute env faults collection_to_export)).
  { unfold execute. apply stable_bind.
    - stable_walk;
        first [ stable_frame
              | intros st1 Hst1; by apply reports_no_use_selection_report ].
    - intros [x|]; [apply execute_resolved_no_use_selection|apply stable_ret]. }
  apply (Hst st). by intros lvl n.
Qed.

(** ** The arguments of the exporter *)

Lemma stable_bind_val {A B} I (m : M A) (k : A → M B) (V : A → Prop) :
  stable I m →
  (∀ s, match m s with (Returns a, _) => V a | _ => True end) →
  (∀ a, V a → stable I (k a)) → stable I (bind m k).
Proof.
  intros Hm HV Hk s Hs. unfold bind. specialize (Hm s Hs).
  specialize (HV s).
  destruct (m s) as [[a|e] s']; simpl in *; [by apply Hk | done].
Qed.

(** The keys the loop of [get_exporter_args_from_config] sets are names
    of the properties it runs over. *)
Lemma exporter_arg_round_keys env config section acc kv s acc' s' k :
  exporter_arg_round env config section acc kv s = (Returns (Some acc'), s') →
  is_Some (acc'.1 !! k) → is_Some (acc.1 !! k) ∨ k = kv.1.
Proof.
  destruct acc as [args val], kv as [prop_name prop].
  unfold exporter_arg_round, report, modify, bind, ret, raise.
  intros Heq Hk.
  destruct (decide (k = prop_name)) as [->|Hne]; [by right|left].
  repeat case_match; simplify_eq/=; try done;
    by rewrite lookup_insert_ne in Hk.
Qed.

Lemma exporter_arg_rounds_keys env config section props :
  ∀ acc s args s' k,
    exporter_arg_rounds env config section props acc s
      = (Returns (Some args), s') →
    is_Some (args !! k) → is_Some (acc.1 !! k) ∨ k ∈ props.*1.
Proof.
  induction props as [|kv props IH]; intros acc s args s' k; simpl.
  - unfold ret. intros [= <- <-]. auto.
  - unfold bind at 1.
    destruct (exporter_arg_round env config section acc kv s)
      as [[[acc'|]|e] s1] eqn:Hround; try done.
    intros Hrest Hk.
    destruct (IH _ _ _ _ _ Hrest Hk) as [Hacc|Hin].
    + destruct (exporter_arg_round_keys _ _ _ _ _ _ _ _ _ Hround Hacc)
        as [?| ->]; [by left|right; left].
    + right. by right.
Qed.

Lemma get_exporter_args_from_config_keys env exporter config section s args s' k :
  get_exporter_args_from_config env exporter config section s
    = (Returns (Some args), s') →
  k ∈ ["rna_type"; "filepath"; "filter_glob"; "use_active_collection";
       "use_selection"; "batch_mode"] →
  args !! k = None.
Proof.
  unfold get_exporter_args_from_config. intros Hrun Hk.
  destruct (args !! k) as [v|] eqn:Hv; [|done]. exfalso.
  destruct (exporter_arg_rounds_keys _ _ _ _ _ _ _ _ k Hrun) as [Hin|Hin].
  - by rewrite Hv.
  - simpl in Hin. by rewrite lookup_empty in Hin; destruct Hin.
  - unfold EXPORTER_PROPERTIES, EXPORTERS in Hin.
    rewrite map_fmap_singleton in Hin.
    destruct (decide (exporter = "fbx")) as [->|Hne].
    + rewrite lookup_singleton_eq in Hin. simpl in Hin.
      apply list_elem_of_fmap in Hin as ([k' p] & -> & Hin).
      unfold get_properties_for_op in Hin.
      apply list_elem_of_filter in Hin as [Hskip _]. by apply Hskip.
    + rewrite lookup_singleton_ne in Hin by done. simpl in Hin.
      by apply elem_of_nil in Hin.
Qed.

Lemma skipped_keys_absent (args : gmap string value) k :
  (∀ k', k' ∈ ["rna_type"; "filepath"; "filter_glob"; "use_active_collection";
               "use_selection"; "batch_mode"] → args !! k' = None) →
  k ∈ ["filter_glob"; "use_active_collection"; "use_selection"; "batch_mode"] →
  ∀ v, <["filepath" := v]> args !! k = None.
Proof.
  intros Hargs Hk v.
  assert (k ≠ "filepath" ∧
          k ∈ ["rna_type"; "filepath"; "filter_glob"; "use_active_collection";
               "use_selection"; "batch_mode"]) as [Hne Hin].
  { repeat (apply elem_of_cons in Hk as [->|Hk]);
      [..|by apply elem_of_nil in Hk]; (split; [done|]).
    - do 2 right; left.
    - do 3 right; left.
    - do 4 right; left.
    - do 5 right; left. }
  rewrite lookup_insert_ne by done. by apply Hargs.
Qed.

(** When the resolver returns settings, the document was there, it held a
    section for the collection, and the arguments are those read from it
    with [filepath] set to the resolved path. *)
Lemma get_export_settings_some env name st e args ne rj jn st' :
  get_export_settings env name st
    = (Returns (Some (e, args, ne, rj, jn)), st') →
  ∃ txt config,
    texts st = Some txt ∧ is_blank env txt = false ∧
    read_string env txt = Returns config ∧
    has_section config name = true ∧
    e = default "fbx" (cfg_value env config name "exporter") ∧
    args !! "filepath" =
      Some (VStr (joinpath env (resolved_directory env config name)
                    (resolved_filename env config name))) ∧
    (∀ k, k ∈ ["filter_glob"; "use_active_collection"; "use_selection";
               "batch_mode"] → args !! k = None) ∧
    scan_sections env config (sections config) ([], [], ∅)
    = Returns (ne, rj, jn).
Proof.
  unfold get_export_settings.
  unfold bind, gets, lift, ret, report, modify, make_new_config_file,
    append_new_section_to_config_file.
  intros Hrun.
  destruct (texts st) as [txt|] eqn:Htxt.
  2:{ cbv beta iota in Hrun. repeat case_match; simplify_eq. }
  destruct (is_blank env txt) eqn:Hblank.
  { cbv beta iota in Hrun. repeat case_match; simplify_eq. }
  destruct (read_string env txt) as [config|] eqn:Hread; [|done].
  destruct (has_section config name) eqn:Hsec.
  2:{ cbv beta iota in Hrun. repeat case_match; simplify_eq. }
  exists txt, config. unfold resolved_directory, resolved_filename, cfg_value.
  destruct (cfg_getboolean env config name "exportable") as [exportable|];
    [|done].
  destruct (negb (default true exportable)); [done|].
  destruct (cfg_get env config name "exporter") as [exporter|]; [|done].
  destruct (bool_decide (EXPORTERS env !! _ = None)); [done|].
  destruct (cfg_get env config name "filename") as [filename|]; [|done].
  destruct (cfg_get env config name "directory") as [directory|]; [|done].
  set (export_dir := default "//" directory) in *.
  set (exporter_name := default "fbx" exporter) in *.
  assert (Hkeys : ∀ s0 args0 s1,
    get_exporter_args_from_config env exporter_name config name s0
      = (Returns (Some args0), s1) →
    ∀ k v, k ∈ ["filter_glob"; "use_active_collection"; "use_selection";
                 "batch_mode"] → <["filepath" := v]> args0 !! k = None).
  { intros s0 args0 s1 Hargs k v Hk. apply skipped_keys_absent; [|done].
    intros k' Hk'. eapply get_exporter_args_from_config_keys; eassumption. }
  destruct (bool_decide (take_str 2 export_dir = "./") || _).
  - cbv beta iota in Hrun.
    destruct (negb (is_saved env) && _); [done|].
    destruct (negb (isdir env _)); [done|].
    destruct (get_exporter_args_from_config _ _ _ _ _)
      as [[[args0|]|] s1] eqn:Hargs; try done.
    destruct (scan_sections env config (sections config) ([], [], ∅))
      as [[[ne0 rj0] jn0]|]; [|done].
    simplify_eq.
      repeat split; first [done | by rewrite lookup_insert_eq | by eauto].
  - destruct (bool_decide (export_dir = ".")).
    + cbv beta iota in Hrun.
      destruct (negb (is_saved env) && _); [done|].
      destruct (negb (isdir env _)); [done|].
      destruct (get_exporter_args_from_config _ _ _ _ _)
        as [[[args0|]|] s1] eqn:Hargs; try done.
      destruct (scan_sections env config (sections config) ([], [], ∅))
        as [[[ne0 rj0] jn0]|]; [|done].
      simplify_eq.
      repeat split; first [done | by rewrite lookup_insert_eq | by eauto].
    + cbv beta iota in Hrun.
      destruct (negb (is_saved env) && _); [done|].
      destruct (negb (isdir env _)); [done|].
      destruct (get_exporter_args_from_config _ _ _ _ _)
        as [[[args0|]|] s1] eqn:Hargs; try done.
      destruct (scan_sections env config (sections config) ([], [], ∅))
        as [[[ne0 rj0] jn0]|]; [|done].
      simplify_eq.
      repeat split; first [done | by rewrite lookup_insert_eq | by eauto].
Qed.


Lemma exports_ok_frame P st0 s s' :
  exported s' = exported s → exports_ok P st0 s → exports_ok P st0 s'.
Proof. intros Heq (new & Hnew & HP). exists new. by rewrite Heq. Qed.

Lemma exports_ok_call P st0 s settings sel :
  P settings → exports_ok P st0 s →
  exports_ok P st0 (with_exported (λ l, l ++ [(settings, sel)]) s).
Proof.
  intros Hset (new & Hnew & HP). exists (new ++ [(settings, sel)]). simpl.
  split; [by rewrite Hnew, app_assoc|].
  apply Forall_app. split; [done|]. by apply Forall_singleton.
Qed.

(** Closes the goal of an assignment that leaves [exported] alone. *)
Ltac exports_frame :=
  let st1 := fresh "st" in
  let H := fresh "Hst" in
  intros st1 H; eapply exports_ok_frame; [|exact H];
  unfold set_hide, with_selected, with_active, with_flags, select_set in *;
  repeat case_match; by destruct st1.

Lemma execute_resolved_exports_ok P env faults collection_to_export st0
    exporter_name args ne rj jn :
  P (final_settings env exporter_name args) →
  P (delete "use_visible" (final_settings env exporter_name args)) →
  stable (exports_ok P st0)
    (execute_resolved env faults collection_to_export
       (exporter_name, args, ne, rj, jn)).
Proof.
  intros HP HPv. unfold execute_resolved. rewrite py_in_str_tuples.
  cbv zeta. apply stable_bind; [apply stable_gets|]. intros saved.
  apply (stable_bind_val _ _ _ (λ a, P a.1)).
  - stable_walk; exports_frame.
  - intros s. unfold bind, failing, gets, ret, raise.
    repeat case_match; simplify_eq/=; done.
  - intros [settings hidden] Hset. simpl in Hset.
    stable_walk;
      first [ exports_frame
            | intros st1 Hst1; by apply exports_ok_call ].
Qed.

Lemma get_export_settings_exported env name st :
  exported (get_export_settings env name st).2 = exported st.
Proof.
  assert (Hst : stable (λ s, exported s = exported st)
                  (get_export_settings env name)).
  { stable_walk; stable_frame. }
  by apply Hst.
Qed.


(** ** First run *)





Lemma add_section_ok config name :
  name ≠ "DEFAULT" →
  add_section config name = Returns (with_section config name).
Proof. intros Hn. unfold add_section. by rewrite bool_decide_eq_false_2. Qed.

Lemma EXPORTERS_fbx env :
  bool_decide (EXPORTERS env !! "fbx" = None) = false.
Proof. apply bool_decide_eq_false_2. unfold EXPORTERS. by rewrite lookup_singleton_eq. Qed.








(** ** Rules with a different outcome for returning and raising *)

Lemma hoare_conseq {A} (P P' : State → Prop) (m : M A) Q Q' E E' :
  hoare P' m Q' E' →
  (∀ s, P s → P' s) → (∀ a s, Q' a s → Q a s) → (∀ s, E' s → E s) →
  hoare P m Q E.
Proof.
  intros Hm HP HQ HE s Hs. specialize (Hm s (HP s Hs)).
  destruct (m s) as [[a|e] s']; auto.
Qed.

Lemma hoare_bind {A B} P (m : M A) (k : A → M B) Q1 Q2 E :
  hoare P m Q1 E → (∀ a, hoare (Q1 a) (k a) Q2 E) → hoare P (bind m k) Q2 E.
Proof.
  intros Hm Hk s Hs. unfold bind. specialize (Hm s Hs).
  destruct (m s) as [[a|e] s']; [by apply Hk | done].
Qed.

Lemma hoare_ret {A} (P : State → Prop) (a : A) (Q : A → State → Prop) E :
  (∀ s, P s → Q a s) → hoare P (ret a) Q E.
Proof. intros HQ s Hs. by apply HQ. Qed.

Lemma hoare_raise {A} (P : State → Prop) e (Q : A → State → Prop) (E : State → Prop) :
  (∀ s, P s → E s) → hoare P (raise e) Q E.
Proof. intros HE s Hs. by apply HE. Qed.

Lemma hoare_gets {A} (P : State → Prop) (f : State → A) (Q : A → State → Prop) E :
  (∀ s, P s → Q (f s) s) → hoare P (gets f) Q E.
Proof. intros HQ s Hs. by apply HQ. Qed.

Lemma hoare_modify (P : State → Prop) f (Q : unit → State → Prop) E :
  (∀ s, P s → Q tt (f s)) → hoare P (modify f) Q E.
Proof. intros HQ s Hs. by apply HQ. Qed.

Lemma hoare_failing (P : State → Prop) b (Q : unit → State → Prop) (E : State → Prop) :
  (∀ s, P s → Q tt s) → (∀ s, P s → E s) → hoare P (failing b) Q E.
Proof. intros HQ HE s Hs. destruct b; simpl; auto. Qed.

(** A statement that keeps [I] whatever happens. *)
Lemma hoare_stable {A} I (m : M A) :
  stable I m → hoare I m (λ _, I) I.
Proof.
  intros Hm s Hs. specialize (Hm s Hs). by destruct (m s) as [[?|?] ?].
Qed.

Lemma stable_hoare {A} I (m : M A) :
  hoare I m (λ _, I) I → stable I m.
Proof.
  intros Hm s Hs. specialize (Hm s Hs). by destruct (m s) as [[?|?] ?].
Qed.

Lemma hoare_for_each {A} I E (body : nat → A → M unit) l :
  (∀ i x, x ∈ l → hoare I (body i x) (λ _, I) E) →
  ∀ i, hoare I (for_each body i l) (λ _, I) E.
Proof.
  induction l as [|x l IH]; intros Hbody i; simpl.
  - by apply hoare_ret.
  - eapply hoare_bind; [apply Hbody; left|].
    intros u. apply IH. intros j y Hy. apply Hbody. by right.
Qed.

Lemma stable_for_each_elem {A} I (body : nat → A → M unit) l :
  (∀ i x, x ∈ l → stable I (body i x)) → ∀ i, stable I (for_each body i l).
Proof.
  intros Hbody i. apply stable_hoare, hoare_for_each.
  intros j x Hx. by apply hoare_stable, Hbody.
Qed.

Lemma returns_ret {A} (a : A) : returns (ret a).
Proof. intros s. by eexists _, _. Qed.

Lemma returns_modify f : returns (modify f).
Proof. intros s. by eexists _, _. Qed.

Lemma returns_gets {A} (f : State → A) : returns (gets f).
Proof. intros s. by eexists _, _. Qed.

Lemma returns_bind {A B} (m : M A) (k : A → M B) :
  returns m → (∀ a, returns (k a)) → returns (bind m k).
Proof.
  intros Hm Hk s. unfold bind. destruct (Hm s) as (a & s' & ->). apply Hk.
Qed.

Lemma returns_for_each {A} (body : nat → A → M unit) l :
  (∀ i x, returns (body i x)) → ∀ i, returns (for_each body i l).
Proof.
  intros Hbody. induction l as [|x l IH]; intros i; simpl.
  - apply returns_ret.
  - apply returns_bind; auto.
Qed.

(** [try: body finally: cleanup] with a cleanup that never raises: the
    cleanup takes what [body] left, returned or raised, to the final
    condition. *)
Lemma hoare_try_finally {A} P (body : M A) cleanup Q1 E1 (Q : A → State → Prop) E :
  returns cleanup →
  hoare P body Q1 E1 →
  (∀ a, hoare (Q1 a) cleanup (λ _, Q a) (Q a)) →
  hoare E1 cleanup (λ _, E) E →
  hoare P (try_finally body cleanup) Q E.
Proof.
  intros Hret Hbody HQ HE s Hs. unfold try_finally.
  specialize (Hbody s Hs).
  destruct (body s) as [[a|e] s1].
  - specialize (HQ a s1 Hbody). destruct (Hret s1) as (u & s2 & Heq).
    by rewrite Heq in *.
  - specialize (HE s1 Hbody). destruct (Hret s1) as (u & s2 & Heq).
    by rewrite Heq in *.
Qed.

(** ** Duplicating, joining and removing objects *)

Lemma fresh_id_fresh (objs : gmap nat Obj) : objs !! fresh_id objs = None.
Proof.
  apply not_elem_of_dom. intros Hin. apply elem_of_elements in Hin.
  apply max_list_elem_of_le in Hin. unfold fresh_id in Hin. lia.
Qed.

Lemma duplicate_objects_spec copy_names sel :
  ∀ objs objs' news,
    duplicate_objects copy_names sel objs = (objs', news) →
    (∀ o, is_Some (objs !! o) → objs' !! o = objs !! o) ∧
    Forall (λ n, objs !! n = None ∧ is_Some (objs' !! n)) news ∧
    (∀ o, is_Some (objs' !! o) → is_Some (objs !! o) ∨ o ∈ news).
Proof.
  induction sel as [|o sel IH]; intros objs objs' news; simpl.
  - intros [= <- <-]. repeat split; auto.
  - destruct (objs !! o) as [ob|] eqn:Hob; [|by apply IH].
    destruct (duplicate_objects copy_names sel
                (<[fresh_id objs := with_names (copy_names o ob) ob]> objs))
      as [objs1 news1] eqn:Hrec.
    intros [= <- <-]. destruct (IH _ _ _ Hrec) as (Hold & Hnew & Hall).
    pose proof (fresh_id_fresh objs) as Hfresh.
    assert (Hne : ∀ x, is_Some (objs !! x) → x ≠ fresh_id objs).
    { intros x [y Hx] ->. by rewrite Hfresh in Hx. }
    split; [|split].
    + intros x Hx. rewrite Hold.
      * rewrite lookup_insert_ne; [done|]. intros Heq. by apply (Hne x).
      * rewrite lookup_insert_ne; [done|]. intros Heq. by apply (Hne x).
    + constructor.
      * split; [done|]. rewrite Hold; rewrite lookup_insert_eq; eauto.
      * eapply Forall_impl; [exact Hnew|]. intros n [Hn1 Hn2]. split; [|done].
        destruct (decide (n = fresh_id objs)) as [->|Hnn]; [done|].
        by rewrite lookup_insert_ne in Hn1.
    + intros x Hx. destruct (Hall x Hx) as [Hin|Hin].
      * destruct (decide (x = fresh_id objs)) as [->|Hnx].
        { right. left. }
        { rewrite lookup_insert_ne in Hin by done. by left. }
      * right. by right.
Qed.

Lemma foldr_delete_lookup (objs : gmap nat Obj) gone o :
  foldr delete objs gone !! o = if decide (o ∈ gone) then None else objs !! o.
Proof.
  induction gone as [|x gone IH]; simpl; [done|].
  destruct (decide (o = x)) as [->|Hne].
  - rewrite lookup_delete_eq. rewrite decide_True; [done|left].
  - rewrite lookup_delete_ne by done. rewrite IH.
    destruct (decide (o ∈ gone)) as [Hin|Hnin].
    + rewrite decide_True; [done|by right].
    + rewrite decide_False; [done|]. by intros [?|?]%elem_of_cons.
Qed.

(** Reading the selection of the current view layer after a change. *)
Lemma selected_with_selected f s :
  is_Some (view_layers s !! window_view_layer s) →
  selected_objects (with_selected f s) = f (selected_objects s).
Proof.
  intros [vl Hvl]. unfold selected_objects, context_view_layer, with_selected.
  simpl. rewrite lookup_alter_eq, Hvl. done.
Qed.

Lemma selected_with_active a s :
  selected_objects (with_active a s) = selected_objects s.
Proof.
  unfold selected_objects, context_view_layer, with_active. simpl.
  rewrite lookup_alter_eq. by destruct (view_layers s !! window_view_layer s).
Qed.

Lemma current_layer_with_selected f s :
  is_Some (view_layers s !! window_view_layer s) →
  is_Some (view_layers (with_selected f s)
             !! window_view_layer (with_selected f s)).
Proof.
  intros [vl Hvl]. unfold with_selected. simpl.
  rewrite lookup_alter_eq, Hvl. by eexists.
Qed.

Lemma current_layer_with_active a s :
  is_Some (view_layers s !! window_view_layer s) →
  is_Some (view_layers (with_active a s)
             !! window_view_layer (with_active a s)).
Proof.
  intros [vl Hvl]. unfold with_active. simpl.
  rewrite lookup_alter_eq, Hvl. by eexists.
Qed.

(** ** One round of the joining loop *)

Lemma join_idle_inv O s : join_idle O s → join_inv O s.
Proof. by intros [? _]. Qed.

(** The current view layer is still there after changes to it. *)
Ltac solve_layer :=
  match goal with
  | H : is_Some (view_layers _ !! _) |- _ =>
      let vl := fresh "vl" in
      destruct H as [vl H]; simpl; rewrite ?lookup_alter_eq, H; by eexists
  end.

Lemma duplicate_dup_done O copy_names s :
  join_idle O s → dup_done O (duplicate copy_names s).2.
Proof.
  intros [(Hvl & Horig & Hlists & Hcreated) [Hdup Habort]].
  unfold duplicate, modify. simpl.
  destruct (duplicate_objects copy_names (selected_objects s) (objects s))
    as [objs' news] eqn:Hd.
  destruct (duplicate_objects_spec _ _ _ _ _ Hd) as (Hold & Hnew & Hall).
  rewrite Hdup, Habort, !app_nil_r in *.
  assert (Hsel : selected_objects
            (with_selected (λ _, news) (with_objects (λ _, objs') s)) = news).
  { by rewrite selected_with_selected. }
  unfold dup_done. rewrite Hsel. simpl.
  split; [solve_layer|].
  split.
  { intros o Ho. rewrite Hold; [by apply Horig|]. by rewrite Horig. }
  split; [done|]. split; [done|]. split; [done|]. split.
  { eapply Forall_impl; [exact Hnew|]. intros n [Hn _].
    destruct (O !! n) as [ob|] eqn:HOn; [|done].
    rewrite Horig in Hn by (by rewrite HOn). by rewrite HOn in Hn. }
  intros o Ho HOo. destruct (Hall o Ho) as [Hin|Hin]; [|by right].
  left. by apply Hcreated.
Qed.

Lemma dup_done_ready O s :
  dup_done O s →
  join_ready O
    (with_active (head (selected_objects s))
       (with_duplicated_meshes (selected_objects s) s)).
Proof.
  intros (Hvl & Horig & Hjoined & Hdup & Habort & Hsel & Hcreated).
  unfold join_ready, join_inv.
  rewrite selected_with_active. simpl.
  change (selected_objects (with_duplicated_meshes (selected_objects s) s))
    with (selected_objects s).
  rewrite Habort, app_nil_r.
  split; [split; [|split; [|split]]|split; [|split]].
  - solve_layer.
  - done.
  - by apply Forall_app.
  - intros o Ho HOo. apply elem_of_app. by apply Hcreated.
  - done.
  - by apply Forall_forall.
  - by intros o Ho _.
Qed.

Lemma join_ready_join O s a :
  join_ready O s → head (selected_objects s) = Some a →
  join_ready O (join a s).2.
Proof.
  intros ((Hvl & Horig & Hlists & Hcreated) & Habort & Hsel & Hone) Ha.
  unfold join, modify. simpl.
  set (gone := filter (λ o, o ≠ a) (selected_objects s)).
  assert (Hselnew : selected_objects
            (with_selected (λ _, [a])
               (with_objects (λ objs, foldr delete objs gone) s)) = [a]).
  { by rewrite selected_with_selected. }
  assert (Ha_sel : a ∈ selected_objects s).
  { destruct (selected_objects s); simplify_eq/=. left. }
  assert (Hgone : ∀ o, o ∈ gone → O !! o = None).
  { intros o [_ Ho]%list_elem_of_filter.
    rewrite Forall_forall in Hsel. specialize (Hsel o Ho).
    rewrite Forall_forall in Hlists. apply Hlists.
    rewrite !elem_of_app. auto. }
  unfold join_ready, join_inv. rewrite Hselnew. simpl.
  split; [split; [|split; [|split]]|split; [|split]].
  - solve_layer.
  - intros o Ho. rewrite foldr_delete_lookup.
    destruct (decide (o ∈ gone)) as [Hin|_]; [|by apply Horig].
    apply Hgone in Hin. rewrite Hin in Ho. by destruct Ho.
  - done.
  - intros o Ho HOo. rewrite foldr_delete_lookup in Ho.
    destruct (decide (o ∈ gone)); [by destruct Ho|]. by apply Hcreated.
  - done.
  - apply Forall_singleton. rewrite Forall_forall in Hsel. by apply Hsel.
  - intros o Ho Hin. rewrite foldr_delete_lookup in Hin.
    destruct (decide (o ∈ gone)) as [|Hng]; [by destruct Hin|].
    destruct (decide (o = a)) as [->|Hne]; [left|].
    exfalso. apply Hng. apply list_elem_of_filter. split; [done|].
    by apply Hone.
Qed.

Lemma join_ready_inv O s : join_ready O s → join_inv O s.
Proof. by intros [? _]. Qed.

Lemma alter_is_Some (f : Obj → Obj) x o (objs : gmap nat Obj) :
  is_Some (alter f x objs !! o) ↔ is_Some (objs !! o).
Proof.
  destruct (decide (x = o)) as [->|Hne].
  - rewrite lookup_alter_eq. apply fmap_is_Some.
  - by rewrite lookup_alter_ne.
Qed.

(** The end of a round, lines 405 to 417. *)
Lemma record_joined_mesh_idle O faults (names : gmap string string) i c :
  hoare (join_ready O)
    (do sel <~ gets selected_objects;
     match sel with
     | [new_joined_mesh] =>
         match names !! cname c with
         | None => raise KeyError
         | Some joined_name =>
             failing (f_rename faults i) >>
             rename (f_given_name faults i) new_joined_mesh joined_name >>
             rename_data (f_given_data_name faults i) new_joined_mesh >>
             do joined <~ gets joined_meshes;
             if bool_decide (new_joined_mesh ∈ joined) then raise RuntimeError
             else
               modify (with_joined_meshes (joined ++ [new_joined_mesh])) >>
               modify (with_duplicated_meshes [])
         end
     | _ => modify (with_abort_postjoin_meshes sel) >> raise RuntimeError
     end)
    (λ _, join_idle O) (join_inv O).
Proof.
  intros s ((Hvl & Horig & Hlists & Hcreated) & Habort & Hsel & Halive).
  unfold bind at 1. unfold gets at 1.
  rewrite Habort, app_nil_r in *.
  assert (Hbad : join_inv O (with_abort_postjoin_meshes (selected_objects s) s)).
  { unfold join_inv. simpl. split; [done|]. split; [done|]. split.
    - rewrite app_assoc. apply Forall_app. split; [done|].
      rewrite Forall_forall in Hsel, Hlists. apply Forall_forall.
      intros o Ho. apply Hlists. apply elem_of_app. right. by apply Hsel.
    - intros o Ho HOo. rewrite app_assoc. apply elem_of_app. left.
      by apply Hcreated. }
  destruct (selected_objects s) as [|x [|y sel]] eqn:Hselected; [done| |done].
  destruct (names !! cname c) as [joined_name|].
  2:{ simpl. unfold join_inv. by rewrite Habort, app_nil_r. }
  assert (Hx : O !! x = None).
  { rewrite Forall_forall in Hlists. apply Hlists. apply elem_of_app. right.
    rewrite Forall_forall in Hsel. apply Hsel. left. }
  destruct (f_rename faults i); simpl.
  { unfold join_inv. by rewrite Habort, app_nil_r. }
  unfold bind, ret, rename, rename_data, modify, gets, raise. simpl.
  destruct (bool_decide (x ∈ joined_meshes s)); simpl.
  - unfold join_inv. simpl. rewrite Habort, app_nil_r.
    split; [done|]. split; [|split; [done|]].
    + intros o Ho. rewrite !lookup_alter_ne; [by apply Horig|..];
        intros ->; rewrite Hx in Ho; by destruct Ho.
    + intros o Ho HOo. apply Hcreated; [|done].
      by rewrite !alter_is_Some in Ho.
  - unfold join_idle, join_inv. simpl. rewrite Habort, !app_nil_r.
    split; [|done]. split; [done|]. split; [|split].
    + intros o Ho. rewrite !lookup_alter_ne; [by apply Horig|..];
        intros ->; rewrite Hx in Ho; by destruct Ho.
    + apply Forall_app. split; [|by apply Forall_singleton].
      apply Forall_app in Hlists. by destruct Hlists.
    + intros o Ho HOo.
      assert (Ho' : is_Some (objects s !! o))
        by by rewrite !alter_is_Some in Ho.
      specialize (Hcreated o Ho' HOo).
      apply elem_of_app in Hcreated as [Hj|Hd]; apply elem_of_app; [by left|].
      right. specialize (Halive o Hd Ho').
      by apply list_elem_of_singleton in Halive as ->; left.
Qed.

Lemma join_phase_ready O faults i sel :
  hoare (λ s, join_ready O s ∧ sel = selected_objects s)
    (if bool_decide (1 < length sel) then
       do r <~ match f_join faults i, head sel with
               | JoinOk, Some a => join a >> ret FINISHED
               | JoinOk, None => ret CANCELLED
               | JoinCancelled, _ => ret CANCELLED
               | JoinRaises, _ => raise HostError
               | JoinKeepsAll, _ => ret FINISHED
               end;
       if bool_decide (r ≠ FINISHED) then raise RuntimeError else ret tt
     else ret tt)
    (λ _, join_ready O) (join_inv O).
Proof.
  intros s [Hready ->].
  pose proof (join_ready_inv _ _ Hready) as Hinv.
  destruct (bool_decide (1 < length (selected_objects s))); [|done].
  destruct (f_join faults i); try done.
  destruct (head (selected_objects s)) as [a|] eqn:Ha; [|done].
  pose proof (join_ready_join O s a Hready Ha) as Hjoined.
  unfold bind, ret, join, modify in *. simpl in *. done.
Qed.

Lemma make_joined_mesh_idle O faults (names : gmap string string) i c :
  hoare (join_idle O) (make_joined_mesh faults names i c)
    (λ _, join_idle O) (join_inv O).
Proof.
  unfold make_joined_mesh.
  eapply hoare_bind with
    (Q1 := λ r s, (r = FINISHED ∧ dup_done O s) ∨ (r = CANCELLED ∧ join_inv O s)).
  { intros s Hidle. pose proof (join_idle_inv _ _ Hidle) as Hinv.
    destruct (f_duplicate faults i); [|by right|done].
    pose proof (duplicate_dup_done O (f_copy_names faults i) s Hidle)
      as Hdone.
    unfold bind, ret, duplicate, modify in *. simpl in *. by left. }
  intros [|].
  2:{ apply hoare_raise. by intros s [[? _]|[_ ?]]. }
  rewrite bool_decide_eq_false_2 by (by intros ?).
  eapply hoare_bind with
    (Q1 := λ sel s, dup_done O s ∧ sel = selected_objects s).
  { apply hoare_gets. by intros s [[_ ?]|[? _]]. }
  intros sel.
  eapply hoare_bind with
    (Q1 := λ _ s, ∃ s0, dup_done O s0 ∧ sel = selected_objects s0 ∧
                        s = with_duplicated_meshes sel s0).
  { apply hoare_modify. intros s [Hdone ->]. by exists s. }
  intros ?.
  eapply hoare_bind with
    (Q1 := λ _ s, join_ready O s ∧ sel = selected_objects s).
  { apply hoare_modify. intros s (s0 & Hdone & -> & ->).
    split; [by apply dup_done_ready|].
    by rewrite selected_with_active. }
  intros ?.
  eapply hoare_bind; [apply join_phase_ready|].
  intros ?. apply record_joined_mesh_idle.
Qed.

(** What leaves the objects and the three lists alone keeps the
    invariants of the joining. *)
Lemma join_inv_frame O s s' :
  objects s' = objects s →
  joined_meshes s' = joined_meshes s →
  duplicated_meshes s' = duplicated_meshes s →
  abort_postjoin_meshes s' = abort_postjoin_meshes s →
  is_Some (view_layers s' !! window_view_layer s') →
  join_inv O s → join_inv O s'.
Proof.
  intros Ho Hj Hd Ha Hvl (_ & Horig & Hlists & Hcreated).
  unfold join_inv. rewrite Ho, Hj, Hd, Ha. done.
Qed.

Lemma join_idle_frame O s s' :
  objects s' = objects s →
  joined_meshes s' = joined_meshes s →
  duplicated_meshes s' = duplicated_meshes s →
  abort_postjoin_meshes s' = abort_postjoin_meshes s →
  is_Some (view_layers s' !! window_view_layer s') →
  join_idle O s → join_idle O s'.
Proof.
  intros Ho Hj Hd Ha Hvl (Hinv & Hdup & Habort).
  split; [by eapply join_inv_frame|]. by rewrite Hd, Ha.
Qed.

Lemma join_inv_layer O s :
  join_inv O s → is_Some (view_layers s !! window_view_layer s).
Proof. by intros [? _]. Qed.

Lemma join_idle_layer O s :
  join_idle O s → is_Some (view_layers s !! window_view_layer s).
Proof. by intros [[? _] _]. Qed.

(** Closes the goal of an assignment that leaves the objects and the
    three lists alone. *)
Ltac join_frame :=
  let st1 := fresh "st" in
  let H := fresh "Hst" in
  let Hl := fresh "Hl" in
  intros st1 H;
  first [ pose proof (join_idle_layer _ _ H) as Hl;
          eapply join_idle_frame; [..|exact H]
        | pose proof (join_inv_layer _ _ H) as Hl;
          eapply join_inv_frame; [..|exact H] ];
  try reflexivity;
  clear H; unfold select_set, with_selected, with_active;
  solve_layer.

Lemma join_round_idle O faults new_view_layer hidden names i c :
  hoare (join_idle O) (join_round faults new_view_layer hidden names i c)
    (λ _, join_idle O) (join_inv O).
Proof.
  unfold join_round.
  eapply hoare_bind with (Q1 := λ _, join_idle O).
  { apply hoare_failing; [done|]. intros s. apply join_idle_inv. }
  intros ?.
  eapply hoare_bind with (Q1 := λ _, join_idle O).
  { eapply hoare_conseq.
    - apply hoare_stable with (I := join_idle O). stable_walk; join_frame.
    - done.
    - done.
    - intros s. apply join_idle_inv. }
  intros ?.
  eapply hoare_bind with (Q1 := λ _, join_idle O).
  { by apply hoare_gets. }
  intros sel. destruct (bool_decide (0 < length sel)).
  - apply make_joined_mesh_idle.
  - by apply hoare_ret.
Qed.

Lemma join_select_export_inv O faults new_view_layer cte hidden names units
    settings :
  hoare (join_idle O)
    (join_select_export faults new_view_layer cte hidden names units settings)
    (λ _, join_inv O) (join_inv O).
Proof.
  unfold join_select_export.
  eapply hoare_bind with (Q1 := λ _, join_inv O).
  { eapply hoare_conseq.
    - apply (hoare_for_each (join_idle O) (join_inv O)).
      intros i c _. apply join_round_idle.
    - done.
    - intros ? s. apply join_idle_inv.
    - done. }
  intros ?.
  eapply hoare_bind with (Q1 := λ _, join_inv O).
  { apply hoare_stable. stable_walk; join_frame. }
  intros ?. apply hoare_stable. stable_walk; join_frame.
Qed.

(** ** Removing what the joining made *)

Lemma remove_objects_spec l :
  ∀ i s,
    let s' := (for_each (λ _ m, remove_object m) i l s).2 in
    (∀ o, objects s' !! o = if decide (o ∈ l) then None else objects s !! o) ∧
    joined_meshes s' = joined_meshes s ∧
    duplicated_meshes s' = duplicated_meshes s ∧
    abort_postjoin_meshes s' = abort_postjoin_meshes s.
Proof.
  induction l as [|m l IH]; intros i s.
  - simpl. repeat split; intros o;
      by rewrite decide_False by apply not_elem_of_nil.
  - specialize (IH (S i)
      (with_selected (filter (λ x, x ≠ m)) (with_objects (delete m) s))).
    change (for_each (λ _ m0, remove_object m0) i (m :: l) s)
      with (for_each (λ _ m0, remove_object m0) (S i) l
              (with_selected (filter (λ x, x ≠ m))
                 (with_objects (delete m) s))).
    cbv zeta in *. destruct IH as (Hobj & Hj & Hd & Ha).
    split; [|by rewrite Hj, Hd, Ha].
    intros o. rewrite Hobj. simpl.
    destruct (decide (o = m)) as [->|Hne].
    + rewrite lookup_delete_eq. rewrite (decide_True (P := m ∈ m :: l)) by left.
      by destruct (decide (m ∈ l)).
    + rewrite lookup_delete_ne by done.
      destruct (decide (o ∈ l)) as [Hin|Hnin].
      * rewrite decide_True; [done|by right].
      * rewrite decide_False; [done|]. by intros [?|?]%elem_of_cons.
Qed.

Lemma returns_remove_objects l i :
  returns (for_each (λ _ m, remove_object m) i l).
Proof. apply returns_for_each. intros ? ?. apply returns_modify. Qed.

Lemma returns_remove_created_meshes : returns remove_created_meshes.
Proof.
  unfold remove_created_meshes.
  repeat first [ apply returns_bind; [|intros ?]
               | apply returns_gets
               | apply returns_remove_objects ].
Qed.

Lemma remove_created_meshes_lookup s o :
  objects (remove_created_meshes s).2 !! o =
  if decide (o ∈ joined_meshes s ++ duplicated_meshes s
                 ++ abort_postjoin_meshes s)
  then None else objects s !! o.
Proof.
  unfold remove_created_meshes.
  unfold bind at 1. unfold gets at 1.
  unfold bind at 1.
  pose proof (remove_objects_spec (joined_meshes s) 0 s) as H1.
  destruct (returns_remove_objects (joined_meshes s) 0 s) as ([] & s1 & Hs1).
  rewrite Hs1 in *. simpl in H1. destruct H1 as (Ho1 & Hj1 & Hd1 & Ha1).
  unfold bind at 1. unfold gets at 1. unfold bind at 1.
  pose proof (remove_objects_spec (duplicated_meshes s1) 0 s1) as H2.
  destruct (returns_remove_objects (duplicated_meshes s1) 0 s1)
    as ([] & s2 & Hs2).
  rewrite Hs2 in *. simpl in H2. destruct H2 as (Ho2 & Hj2 & Hd2 & Ha2).
  unfold bind at 1. unfold gets at 1.
  pose proof (remove_objects_spec (abort_postjoin_meshes s2) 0 s2) as H3.
  simpl in H3. destruct H3 as (Ho3 & _).
  rewrite Ho3, Ho2, Ho1, Ha2, Ha1, Hd1.
  repeat case_decide; try done; exfalso; set_solver.
Qed.

(** The joining invariant is what the [finally] block needs to leave the
    objects as they were when joining began. *)
Lemma remove_created_meshes_objects O s :
  join_inv O s → objects (remove_created_meshes s).2 = O.
Proof.
  intros (_ & Horig & Hlists & Hcreated). apply map_eq. intros o.
  rewrite remove_created_meshes_lookup.
  destruct (O !! o) as [ob|] eqn:HO.
  - rewrite decide_False.
    + rewrite Horig by (by rewrite HO). done.
    + intros Hin. rewrite Forall_forall in Hlists.
      specialize (Hlists o Hin). by rewrite HO in Hlists.
  - case_decide as Hin; [done|].
    destruct (objects s !! o) as [ob|] eqn:Hs; [|done].
    exfalso. apply Hin. apply Hcreated; [by rewrite Hs|done].
Qed.

(** The innermost [try] with its [finally]: the objects are afterwards
    those there were before. *)
Lemma join_select_export_objects faults new_view_layer cte hidden names units
    settings s :
  is_Some (view_layers s !! window_view_layer s) →
  joined_meshes s = [] → duplicated_meshes s = [] →
  abort_postjoin_meshes s = [] →
  objects (try_finally
             (join_select_export faults new_view_layer cte hidden names units
                settings)
             remove_created_meshes s).2 = objects s.
Proof.
  intros Hvl Hj Hd Ha.
  assert (Hidle : join_idle (objects s) s).
  { unfold join_idle, join_inv. rewrite Hj, Hd, Ha. simpl.
    repeat split; auto. intros o [ob Ho] Hno. by rewrite Ho in Hno. }
  pose proof (join_select_export_inv (objects s) faults new_view_layer cte
                hidden names units settings s Hidle) as Hbody.
  unfold try_finally.
  destruct (join_select_export _ _ _ _ _ _ _ s) as [r s1].
  assert (Hinv : join_inv (objects s) s1) by (by destruct r).
  pose proof (remove_created_meshes_objects _ _ Hinv) as Hrem.
  destruct (returns_remove_created_meshes s1) as ([] & s2 & Hs2).
  rewrite Hs2 in *. by destruct r.
Qed.

(** ** Clearing and restoring the hide flags *)

Lemma save_global_properties_of cte s0 :
  save_of s0 (save_global_properties cte s0).
Proof.
  unfold save_of, save_global_properties. apply Forall_app. split.
  - apply Forall_forall. intros [[r hs] hv] Hin.
    apply list_elem_of_omap in Hin as (o & _ & Heq). simpl.
    destruct (objects s0 !! o) as [ob|] eqn:Hob; [|done]. simpl in Heq.
    destruct (hide_select ob || hide_viewport ob); simplify_eq. eauto.
  - apply Forall_forall. intros [[r hs] hv] Hin.
    apply list_elem_of_omap in Hin as (c & _ & Heq). simpl.
    unfold coll_hide_of in Heq.
    destruct (coll_hide s0 !! cid c) as [[hs' hv']|] eqn:Hc; simpl in Heq.
    + destruct (hs' || hv'); by simplify_eq.
    + done.
Qed.

Lemma hide_dirty_frame dirty s0 s s' :
  objects s' = objects s → coll_hide s' = coll_hide s →
  hide_dirty dirty s0 s → hide_dirty dirty s0 s'.
Proof. intros Ho Hc H. unfold hide_dirty. by rewrite Ho, Hc. Qed.

Lemma hide_dirty_refl s0 dirty : hide_dirty dirty s0 s0.
Proof.
  split; [|done]. intros o. destruct (objects s0 !! o); [|done].
  by repeat split.
Qed.

Lemma hide_dirty_clean s0 s :
  hide_dirty [] s0 s → objects s = objects s0 ∧ coll_hide s = coll_hide s0.
Proof.
  intros [Hobj Hcoll]. split; apply map_eq.
  - intros o. specialize (Hobj o).
    destruct (objects s0 !! o), (objects s !! o); try done.
    destruct Hobj as [_ Heq]. rewrite Heq; [done|apply not_elem_of_nil].
  - intros c. apply Hcoll, not_elem_of_nil.
Qed.

(** The loop that clears the flags only touches what was saved. *)
Lemma set_hide_clear dirty s0 s oc :
  oc ∈ dirty → hide_dirty dirty s0 s →
  hide_dirty dirty s0 (set_hide oc false false s).
Proof.
  intros Hoc [Hobj Hcoll]. destruct oc as [o|c]; simpl.
  - split; [|done]. intros o'. specialize (Hobj o'). simpl.
    destruct (decide (o = o')) as [<-|Hne].
    + rewrite lookup_alter_eq.
      destruct (objects s0 !! o), (objects s !! o); try done. simpl.
      destruct Hobj as [Hsame _]. split; [done|]. by intros Hn.
    + by rewrite lookup_alter_ne.
  - split; [done|]. intros c' Hc'. simpl.
    rewrite lookup_insert_ne; [by apply Hcoll|]. by intros <-.
Qed.

(** Restoring an entry cleans what it names. *)
Lemma set_hide_restore dirty s0 s oc hs hv :
  match oc with
  | RObj o => ∃ ob0, objects s0 !! o = Some ob0 ∧
                     hide_select ob0 = hs ∧ hide_viewport ob0 = hv
  | RColl c => coll_hide s0 !! c = Some (hs, hv)
  end →
  hide_dirty (oc :: dirty) s0 s →
  hide_dirty dirty s0 (set_hide oc hs hv s).
Proof.
  intros Hentry [Hobj Hcoll]. destruct oc as [o|c]; simpl.
  - destruct Hentry as (ob0 & Hob0 & <- & <-).
    split.
    + intros o'. specialize (Hobj o'). simpl.
      destruct (decide (o = o')) as [<-|Hne].
      * rewrite lookup_alter_eq. rewrite Hob0 in *.
        destruct (objects s !! o) as [ob|]; [|done]. simpl.
        destruct Hobj as [(Hn & Hd & Ht & Hv & Hu) _]. split; [done|].
        intros _. destruct ob, ob0; simpl in *. by subst.
      * rewrite lookup_alter_ne by done.
        destruct (objects s0 !! o'), (objects s !! o'); try done.
        destruct Hobj as [Hsame Heq]. split; [done|]. intros Hn.
        apply Heq. intros [?|?]%elem_of_cons; by simplify_eq.
    + intros c Hc. apply Hcoll. intros [?|?]%elem_of_cons; by simplify_eq.
  - split.
    + intros o. specialize (Hobj o). simpl.
      destruct (objects s0 !! o), (objects s !! o); try done.
      destruct Hobj as [Hsame Heq]. split; [done|]. intros Hn.
      apply Heq. intros [?|?]%elem_of_cons; by simplify_eq.
    + intros c' Hc'. simpl. destruct (decide (c = c')) as [<-|Hne].
      * by rewrite lookup_insert_eq.
      * rewrite lookup_insert_ne by done. apply Hcoll.
        intros [?|?]%elem_of_cons; by simplify_eq.
Qed.

Lemma restore_global_properties_clean s0 save :
  ∀ i s, save_of s0 save → hide_dirty (save.*1.*1) s0 s →
    hide_dirty [] s0
      (for_each (λ _ '(oc, hide_select, hide_viewport),
                   modify (set_hide oc hide_select hide_viewport)) i save s).2.
Proof.
  induction save as [|[[oc hs] hv] save IH]; intros i s Hsave Hdirty; [done|].
  apply Forall_cons in Hsave as [Hentry Hsave]. simpl in Hentry.
  change (for_each _ i (((oc, hs), hv) :: save) s)
    with (for_each (λ _ '(oc, hide_select, hide_viewport),
                      modify (set_hide oc hide_select hide_viewport))
            (S i) save (set_hide oc hs hv s)).
  apply IH; [done|]. by apply set_hide_restore.
Qed.

(** ** The view layers during a run *)

Lemma try_finally_final {A} (body : M A) cleanup s :
  (try_finally body cleanup s).2 = (cleanup (body s).2).2.
Proof.
  unfold try_finally. destruct (body s) as [r s1]. simpl.
  by destruct (cleanup s1) as [[[]|e] s2].
Qed.

Lemma layers_inv_alter new s0 s f :
  layers_inv new s0 s →
  layers_inv new s0 (with_view_layers (alter f new) s).
Proof.
  intros (Hw & [vl Hl] & Hk & Hsc). destruct s; simpl in *.
  repeat split; simpl; try done.
  - rewrite lookup_alter_eq, Hl. by eexists.
  - intros k' Hk'. rewrite lookup_alter_ne by done. by apply Hk.
Qed.

Lemma layers_inv_frame new s0 s s' :
  window_view_layer s' = window_view_layer s →
  view_layers s' = view_layers s →
  scene_collection s' = scene_collection s →
  layers_inv new s0 s → layers_inv new s0 s'.
Proof. intros Hw Hv Hsc. unfold layers_inv. by rewrite Hw, Hv, Hsc. Qed.

(** Closes the goal an assignment leaves under [layers_inv]. *)
Ltac layers_frame :=
  let st1 := fresh "st" in
  let Hw := fresh "Hw" in
  let vl := fresh "vl" in
  let Hl := fresh "Hl" in
  let Hk := fresh "Hk" in
  let Hsc := fresh "Hsc" in
  intros st1 (Hw & [vl Hl] & Hk & Hsc);
  unfold layers_inv, select_set, with_selected, with_active, with_flags,
    set_hide in *;
  repeat case_match; destruct st1; simpl in *; subst;
  repeat split; try done;
  first
    [ rewrite ?lookup_alter_eq, ?Hl; by eexists
    | let k := fresh "k" in
      let Hne := fresh "Hne" in
      intros k Hne; try (rewrite lookup_alter_ne by done); by apply Hk ].

Lemma layers_inv_body faults new cte hidden names units settings ne
    (saved : list (ref * bool * bool)) s0 :
  stable (layers_inv new s0)
    (do root <~ gets scene_collection;
     modify (with_flags
               (set_excluded_collections host_assign_exclude
                  (layer_collection_of root) ne (cid cte) false false)
               new) >>
     failing (f_set_excluded faults) >>
     try_finally
       (for_each (λ i '(oc, _, _),
            failing (f_clear_hide faults i) >>
            modify (set_hide oc false false))
          0 saved >>
        modify (with_joined_meshes []) >>
        modify (with_duplicated_meshes []) >>
        modify (with_abort_postjoin_meshes []) >>
        try_finally
          (join_select_export faults new cte hidden names units settings)
          remove_created_meshes)
       (restore_global_properties saved)).
Proof.
  stable_walk; layers_frame.
Qed.

(** ** The hide flags during a run *)

Ltac coll_layer_frame :=
  let st1 := fresh "st" in
  let Hc := fresh "Hc" in
  let vl := fresh "vl" in
  let Hl := fresh "Hl" in
  intros st1 [Hc [vl Hl]];
  unfold coll_layer_inv, select_set, with_selected, with_active in *;
  repeat case_match; destruct st1; simpl in *;
  (split; [done|]); rewrite ?lookup_alter_eq, ?Hl; by eexists.

Lemma join_select_export_coll_layer C faults new cte hidden names units
    settings :
  stable (coll_layer_inv C)
    (try_finally
       (join_select_export faults new cte hidden names units settings)
       remove_created_meshes).
Proof. stable_walk; coll_layer_frame. Qed.

Lemma hide_inv_cleared faults new cte hidden names units settings
    (saved : list (ref * bool * bool)) s0 :
  stable (hide_inv (saved.*1.*1) s0)
    (for_each (λ i '(oc, _, _),
         failing (f_clear_hide faults i) >>
         modify (set_hide oc false false))
       0 saved >>
     modify (with_joined_meshes []) >>
     modify (with_duplicated_meshes []) >>
     modify (with_abort_postjoin_meshes []) >>
     try_finally
       (join_select_export faults new cte hidden names units settings)
       remove_created_meshes).
Proof.
  apply stable_hoare.
  eapply hoare_bind with (Q1 := λ _, hide_inv (saved.*1.*1) s0).
  { apply hoare_stable, stable_for_each_elem.
    intros i [[oc hs] hv] Hx. apply stable_bind; [apply stable_failing|].
    intros _. apply stable_modify. intros s [Hd Hl]. split.
    - apply set_hide_clear; [|done].
      apply list_elem_of_fmap. exists (oc, hs). split; [done|].
      apply list_elem_of_fmap. by exists (oc, hs, hv).
    - by destruct oc. }
  intros _.
  eapply hoare_bind
    with (Q1 := λ _ s, hide_inv (saved.*1.*1) s0 s ∧ joined_meshes s = []).
  { apply hoare_modify. intros s [Hd Hl]. by destruct s. }
  intros _.
  eapply hoare_bind
    with (Q1 := λ _ s, hide_inv (saved.*1.*1) s0 s ∧ joined_meshes s = [] ∧
                       duplicated_meshes s = []).
  { apply hoare_modify. intros s [[Hd Hl] Hj]. by destruct s. }
  intros _.
  eapply hoare_bind
    with (Q1 := λ _ s, hide_inv (saved.*1.*1) s0 s ∧ joined_meshes s = [] ∧
                       duplicated_meshes s = [] ∧
                       abort_postjoin_meshes s = []).
  { apply hoare_modify. intros s [[Hd Hl] [Hj Hdup]]. by destruct s. }
  intros _ s ([Hd Hl] & Hj & Hdup & Ha).
  pose proof (join_select_export_objects faults new cte hidden names units
                settings s Hl Hj Hdup Ha) as Hobj.
  pose proof (join_select_export_coll_layer (coll_hide s) faults new cte
                hidden names units settings s (conj eq_refl Hl)) as [Hc Hl'].
  destruct (try_finally _ _ s) as [[r|e] s1]; simpl in *;
    (split; [by eapply hide_dirty_frame|done]).
Qed.

Lemma hide_restored faults new cte hidden names units settings
    (saved : list (ref * bool * bool)) s0 :
  save_of s0 saved →
  stable (λ s, (objects s = objects s0 ∧ coll_hide s = coll_hide s0) ∧
               is_Some (view_layers s !! window_view_layer s))
    (try_finally
       (for_each (λ i '(oc, _, _),
            failing (f_clear_hide faults i) >>
            modify (set_hide oc false false))
          0 saved >>
        modify (with_joined_meshes []) >>
        modify (with_duplicated_meshes []) >>
        modify (with_abort_postjoin_meshes []) >>
        try_finally
          (join_select_export faults new cte hidden names units settings)
          remove_created_meshes)
       (restore_global_properties saved)).
Proof.
  intros Hsave s [[Ho Hc] Hl]. rewrite try_finally_final.
  assert (Hs : hide_inv (saved.*1.*1) s0 s).
  { split; [|done]. eapply hide_dirty_frame; [done..|apply hide_dirty_refl]. }
  apply (hide_inv_cleared faults new cte hidden names units settings) in Hs.
  destruct Hs as [Hd Hl']. split.
  - apply hide_dirty_clean. by apply restore_global_properties_clean.
  - revert Hl'. generalize ((for_each (λ i '(oc, _, _),
            failing (f_clear_hide faults i) >>
            modify (set_hide oc false false))
          0 saved >>
        modify (with_joined_meshes []) >>
        modify (with_duplicated_meshes []) >>
        modify (with_abort_postjoin_meshes []) >>
        try_finally
          (join_select_export faults new cte hidden names units settings)
          remove_created_meshes) s).2. clear.
    intros s.
    apply (stable_for_each (λ s, is_Some (view_layers s !! window_view_layer s))).
    intros i [[oc hs] hv]. apply stable_modify. intros st Hst. by destruct oc.
Qed.

(** ** A run leaves the scene as it found it *)

Lemma hide_restored_body faults new cte hidden names units settings ne
    (saved : list (ref * bool * bool)) s0 :
  save_of s0 saved →
  stable (λ s, (objects s = objects s0 ∧ coll_hide s = coll_hide s0) ∧
               is_Some (view_layers s !! window_view_layer s))
    (do root <~ gets scene_collection;
     modify (with_flags
               (set_excluded_collections host_assign_exclude
                  (layer_collection_of root) ne (cid cte) false false)
               new) >>
     failing (f_set_excluded faults) >>
     try_finally
       (for_each (λ i '(oc, _, _),
            failing (f_clear_hide faults i) >>
            modify (set_hide oc false false))
          0 saved >>
        modify (with_joined_meshes []) >>
        modify (with_duplicated_meshes []) >>
        modify (with_abort_postjoin_meshes []) >>
        try_finally
          (join_select_export faults new cte hidden names units settings)
          remove_created_meshes)
       (restore_global_properties saved)).
Proof.
  intros Hsave.
  apply stable_bind; [apply stable_gets|]. intros root.
  apply stable_bind.
  { apply stable_modify. intros s [Hoc [vl Hl]]. split; [by destruct s|].
    unfold with_flags. destruct s; simpl in *.
    destruct (decide (new = window_view_layer0)) as [->|Hne].
    - rewrite lookup_alter_eq, Hl. by eexists.
    - rewrite lookup_alter_ne by done. by eexists. }
  intros _. apply stable_bind; [apply stable_failing|]. intros _.
  by apply hide_restored.
Qed.

Lemma scene_eq_refl s0 : scene_eq s0 s0.
Proof. by repeat split. Qed.

Lemma final_hoare {A} (m : M A) (P T : State → Prop) s :
  hoare P m (λ _, T) T → P s → T (m s).2.
Proof. intros Hm Hs. specialize (Hm s Hs). by destruct (m s) as [[a|e] s']. Qed.

Lemma hoare_final {A} (m : M A) (P T : State → Prop) :
  (∀ s, P s → T (m s).2) → hoare P m (λ _, T) T.
Proof. intros Hm s Hs. specialize (Hm s Hs). by destruct (m s) as [[a|e] s']. Qed.

Lemma view_layer_add_fresh s0 :
  let new := S (max_list (window_view_layer s0 :: elements (dom (view_layers s0)))) in
  new ≠ window_view_layer s0 ∧ view_layers s0 !! new = None.
Proof.
  intros new. split.
  - unfold new. simpl. lia.
  - apply not_elem_of_dom. intros Hin%elem_of_elements.
    apply max_list_elem_of_le in Hin. unfold new in Hin. simpl in Hin. lia.
Qed.

Ltac scene_frame :=
  let st1 := fresh "st" in
  let H := fresh "Hst" in
  intros st1 H; unfold scene_eq in *; destruct st1; simpl in *; done.

Lemma execute_resolved_scene env faults collection_to_export x s0 :
  scene_eq s0 (execute_resolved env faults collection_to_export x s0).2.
Proof.
  destruct x as [[[[exporter_name settings] ne] rj] jn].
  unfold execute_resolved. rewrite py_in_str_tuples. cbv zeta.
  apply (final_hoare _ (λ s, s = s0)); [|done].
  set (I := λ (saved : list (ref * bool * bool)) (s : State),
              s = s0 ∧ saved = save_global_properties collection_to_export s0).
  assert (HI : ∀ saved s, I saved s → scene_eq s0 s).
  { intros saved s [-> _]. apply scene_eq_refl. }
  apply hoare_bind with (Q1 := I).
  { apply hoare_gets. by intros s ->. }
  intros saved.
  apply hoare_bind with (Q1 := λ _, I saved).
  { eapply hoare_conseq;
      [apply hoare_stable with (I := I saved); stable_walk
      | done | done | apply HI]. }
  intros [settings' hidden].
  apply hoare_bind with (Q1 := λ _, I saved).
  { eapply hoare_conseq;
      [apply hoare_stable with (I := I saved); stable_walk
      | done | done | apply HI]. }
  intros _.
  apply hoare_bind
    with (Q1 := λ a s, I saved s ∧ a = window_view_layer s0).
  { apply hoare_gets. by intros s [-> ->]. }
  intros saved_view_layer.
  destruct (f_view_layer_add faults).
  - pose proof (view_layer_add_fresh s0) as Hfresh. cbv zeta in Hfresh.
    set (new := S (max_list (window_view_layer s0
                               :: elements (dom (view_layers s0))))) in *.
    destruct Hfresh as [Hnew Hnone].
    set (s1 := with_window_view_layer new
                 (with_view_layers (<[new := empty_layer]>) s0)).
    apply hoare_bind
      with (Q1 := λ _ s, s = s1 ∧
                  saved = save_global_properties collection_to_export s0 ∧
                  saved_view_layer = window_view_layer s0).
    { apply hoare_modify. by intros s [[-> ->] ->]. }
    intros _.
    apply hoare_bind
      with (Q1 := λ a s, s = s1 ∧
                  saved = save_global_properties collection_to_export s0 ∧
                  saved_view_layer = window_view_layer s0 ∧ a = new).
    { apply hoare_gets. intros s (-> & -> & ->). by destruct s0. }
    intros new'. apply hoare_final. intros ? (-> & -> & -> & ->).
    rewrite bool_decide_false by done. rewrite try_finally_final.
    match goal with
    | |- context [(?body s1).2] =>
        assert (Hbody : layers_inv new s0 (body s1).2 ∧
                        objects (body s1).2 = objects s0 ∧
                        coll_hide (body s1).2 = coll_hide s0);
        [|destruct (body s1) as [r s2]; simpl in *]
    end.
    { split.
      - apply layers_inv_body. unfold s1. destruct s0; simpl in *.
        repeat split; simpl; try done.
        + rewrite lookup_insert_eq. by eexists.
        + intros k Hk. by rewrite lookup_insert_ne.
      - eapply proj1.
        apply (hide_restored_body _ _ _ _ _ _ _ _ _ s0
                 (save_global_properties_of collection_to_export s0)).
        unfold s1. destruct s0; simpl in *. repeat split; try done.
        rewrite lookup_insert_eq. by eexists. }
    destruct Hbody as ((Hw & Hl & Hk & Hsc) & Ho & Hc).
    unfold bind, modify. simpl. destruct s2; simpl in *.
    repeat split; try done. simpl.
    apply map_eq. intros k. destruct (decide (k = new)) as [->|Hne].
    + by rewrite lookup_delete_eq.
    + rewrite lookup_delete_ne by done. by apply Hk.
  - apply hoare_bind with (Q1 := λ _ _, False); [|by intros _ s []].
    apply hoare_raise. intros s [Hs _]. by eapply HI.
  - apply hoare_bind
      with (Q1 := λ _ s, I saved s ∧ saved_view_layer = window_view_layer s0).
    { by apply hoare_ret. }
    intros _.
    apply hoare_bind
      with (Q1 := λ a s, I saved s ∧ saved_view_layer = window_view_layer s0 ∧
                         a = window_view_layer s0).
    { apply hoare_gets. by intros s [[-> ->] ->]. }
    intros new. apply hoare_final. intros s ([-> _] & -> & ->).
    rewrite bool_decide_true by done. apply scene_eq_refl.
Qed.

(** C1: whatever the host, the faults injected into the calls the
    operator makes, the collection and the state [execute] starts from,
    and whether [execute] returns or raises, it ends in a state with the
    objects it started with and no other, each with its hide flags (and
    name, type and collections) as before; with the hide flags of the
    collections as before; with the view layers it started with and no
    other, so without the temporary one; and with the window on the view
    layer it was on.  The faults are those of the calls made after the
    hide flags were recorded; the statements of the [finally] blocks are
    taken not to fail. *)
Theorem execute_restores_scene env faults collection_to_export s0 :
  let s := (execute env faults collection_to_export s0).2 in
  objects s = objects s0 ∧
  coll_hide s = coll_hide s0 ∧
  view_layers s = view_layers s0 ∧
  window_view_layer s = window_view_layer s0 ∧
  scene_collection s = scene_collection s0.
Proof.
  cbv zeta.
  enough (scene_eq s0 (execute env faults collection_to_export s0).2) as H.
  { destruct H as (? & ? & ? & ? & ?). by repeat split. }
  unfold execute, bind.
  assert (Hget : scene_eq s0
            (get_export_settings env (cname collection_to_export) s0).2).
  { apply (final_hoare _ (scene_eq s0)); [|apply scene_eq_refl].
    apply hoare_stable. stable_walk; scene_frame. }
  destruct (get_export_settings env (cname collection_to_export) s0)
    as [[[x|]|e] s1]; simpl in *; try done.
  pose proof (execute_resolved_scene env faults collection_to_export x s1) as H.
  destruct Hget as (Ho & Hc & Hsc & Hv & Hw).
  destruct H as (Ho' & Hc' & Hsc' & Hv' & Hw').
  unfold scene_eq. by rewrite Ho', Hc', Hsc', Hv', Hw'.
Qed.

(** ** What the selection loops select *)

Lemma with_selected_const_compose a f s :
  with_selected (λ _, a) (with_selected f s) = with_selected (λ _, a) s.
Proof.
  unfold with_selected, with_view_layers. destruct s; simpl. f_equal.
  apply map_eq. intros k. destruct (decide (k = window_view_layer0)) as [->|Hne].
  - rewrite !lookup_alter_eq. by destruct (view_layers0 !! window_view_layer0).
  - by rewrite !lookup_alter_ne.
Qed.

Lemma with_selected_as_const f s :
  with_selected f s = with_selected (λ _, f (selected_objects s)) s.
Proof.
  unfold with_selected, selected_objects, context_view_layer.
  unfold with_view_layers. destruct s; simpl. f_equal.
  apply map_eq. intros k. destruct (decide (k = window_view_layer0)) as [->|Hne].
  - rewrite !lookup_alter_eq. by destruct (view_layers0 !! window_view_layer0).
  - by rewrite !lookup_alter_ne.
Qed.

Lemma with_selected_self s :
  with_selected (λ _, selected_objects s) s = s.
Proof.
  unfold with_selected, selected_objects, context_view_layer.
  unfold with_view_layers. destruct s; simpl. f_equal.
  apply map_eq. intros k. destruct (decide (k = window_view_layer0)) as [->|Hne].
  - rewrite !lookup_alter_eq.
    by destruct (view_layers0 !! window_view_layer0) as [[]|].
  - by rewrite !lookup_alter_ne.
Qed.

Lemma with_selected_layer f s :
  is_Some (view_layers s !! window_view_layer s) →
  is_Some (view_layers (with_selected f s)
             !! window_view_layer (with_selected f s)).
Proof. intros Hl. unfold with_selected. solve_layer. Qed.

Lemma for_each_cons {A} (body : nat → A → M unit) i x l s :
  for_each body i (x :: l) s
  = match body i x s with
    | (Returns _, s') => for_each body (S i) l s'
    | (Raises e, s') => (Raises e, s')
    end.
Proof. done. Qed.

(** [for o in l: if P(o): o.select_set(True)] *)
Lemma select_loop_spec (P : gmap nat Obj → nat → bool)
    (body : nat → nat → M unit) l :
  (∀ i o s, body i o s
            = (Returns tt, if P (objects s) o then select_set o true s else s)) →
  ∀ i s, is_Some (view_layers s !! window_view_layer s) →
    ∃ sel,
      for_each body i l s = (Returns tt, with_selected (λ _, sel) s) ∧
      (∀ o, o ∈ sel ↔
            o ∈ selected_objects s ∨ (o ∈ l ∧ P (objects s) o = true)).
Proof.
  intros Hbody. induction l as [|x l IH]; intros i s Hl.
  - exists (selected_objects s). rewrite with_selected_self. split; [done|].
    intros o. rewrite elem_of_nil. naive_solver.
  - rewrite for_each_cons, Hbody.
    destruct (P (objects s) x) eqn:HP.
    + unfold select_set.
      destruct (IH (S i) _ (with_selected_layer
                  (λ sel, if bool_decide (x ∈ sel) then sel else sel ++ [x])
                  s Hl)) as (sel & Hrun & Hsel).
      exists sel. rewrite Hrun, with_selected_const_compose. split; [done|].
      intros o. rewrite Hsel, selected_with_selected by done.
      replace (objects (with_selected _ s)) with (objects s) by by destruct s.
      rewrite elem_of_cons. case_bool_decide.
      * split; [naive_solver|]. intros [?|[[->|?] ?]]; auto.
      * rewrite elem_of_app, list_elem_of_singleton.
        split; [naive_solver|]. intros [?|[[->|?] ?]]; auto.
    + destruct (IH (S i) s Hl) as (sel & Hrun & Hsel).
      exists sel. split; [done|].
      intros o. rewrite Hsel, elem_of_cons.
      split; [intros [?|[? ?]]; auto|].
      intros [?|[[->|?] ?]]; [auto|congruence|auto].
Qed.

(** [for o in l: if P(o): o.select_set(False)] *)
Lemma deselect_loop_spec (P : nat → bool) (body : nat → nat → M unit) l :
  (∀ i o s, body i o s
            = (Returns tt, if P o then select_set o false s else s)) →
  ∀ i s, is_Some (view_layers s !! window_view_layer s) →
    ∃ sel,
      for_each body i l s = (Returns tt, with_selected (λ _, sel) s) ∧
      (∀ o, o ∈ sel ↔
            o ∈ selected_objects s ∧ ¬ (o ∈ l ∧ P o = true)).
Proof.
  intros Hbody. induction l as [|x l IH]; intros i s Hl.
  - exists (selected_objects s). rewrite with_selected_self. split; [done|].
    intros o. rewrite elem_of_nil. naive_solver.
  - rewrite for_each_cons, Hbody.
    destruct (P x) eqn:HP.
    + unfold select_set.
      destruct (IH (S i) _ (with_selected_layer
                  (λ sel, filter (λ y, y ≠ x) sel) s Hl))
        as (sel & Hrun & Hsel).
      exists sel. rewrite Hrun, with_selected_const_compose. split; [done|].
      intros o. rewrite Hsel, selected_with_selected by done.
      rewrite list_elem_of_filter, elem_of_cons.
      split; [naive_solver|].
      intros [Ho Hn]. split; [split; [|done]|].
      * intros ->. apply Hn. auto.
      * intros [? ?]. apply Hn. auto.
    + destruct (IH (S i) s Hl) as (sel & Hrun & Hsel).
      exists sel. split; [done|].
      intros o. rewrite Hsel, elem_of_cons.
      split; intros [Ho Hn]; (split; [done|]).
      * intros [[->|?] ?]; [congruence|]. apply Hn. auto.
      * intros [? ?]. apply Hn. auto.
Qed.

Lemma in_view_layer_flags root vl vl' ob :
  vl_flags vl = vl_flags vl' → in_view_layer root vl ob = in_view_layer root vl' ob.
Proof. intros H. unfold in_view_layer. by rewrite H. Qed.

Lemma view_layer_objects_with_selected view_layer f s :
  view_layer_objects view_layer (with_selected f s)
  = view_layer_objects view_layer s.
Proof.
  unfold view_layer_objects.
  replace (objects (with_selected f s)) with (objects s) by by destruct s.
  replace (scene_collection (with_selected f s)) with (scene_collection s)
    by by destruct s.
  apply list_filter_iff. intros o. unfold obj_test.
  destruct (objects s !! o) as [ob|]; [|done]. simpl.
  rewrite (in_view_layer_flags _ _
             (default empty_layer (view_layers s !! view_layer))); [done|].
  unfold with_selected. destruct s; simpl.
  destruct (decide (view_layer = window_view_layer0)) as [->|Hne].
  - rewrite lookup_alter_eq. by destruct (view_layers0 !! window_view_layer0).
  - by rewrite lookup_alter_ne.
Qed.

(** What [select_included_objects_in_collection] leaves selected. *)
Lemma select_included_objects_in_collection_spec view_layer c hidden
    mesh_only s :
  is_Some (view_layers s !! window_view_layer s) →
  ∃ sel,
    select_included_objects_in_collection view_layer c hidden mesh_only s
    = (Returns tt, with_selected (λ _, sel) s) ∧
    (∀ o, o ∈ sel ↔
          o ∈ all_objects c (objects s) ∧
          o ∈ view_layer_objects view_layer s ∧ o ∉ hidden ∧
          negb mesh_only || obj_test (objects s) is_mesh o = true).
Proof.
  intros Hl. unfold select_included_objects_in_collection.
  unfold bind at 1. unfold modify at 1. unfold bind at 1. unfold gets at 1.
  pose proof (with_selected_layer (λ _, []) s Hl) as Hl1.
  destruct (select_loop_spec
              (λ objs o, negb mesh_only || obj_test objs is_mesh o)
              (λ _ o, do objs <~ gets objects;
                      if negb mesh_only || obj_test objs is_mesh o
                      then modify (select_set o true) else ret tt)
              (filter (λ o, o ∈ view_layer_objects view_layer
                                  (with_selected (λ _, []) s) ∧
                            o ∉ hidden)
                 (all_objects c (objects (with_selected (λ _, []) s))))
              ltac:(intros ? o st; unfold bind, gets; simpl;
                    by destruct (negb mesh_only || obj_test _ is_mesh o))
              0 _ Hl1) as (sel & Hrun & Hsel).
  exists sel. rewrite Hrun, with_selected_const_compose. split; [done|].
  intros o. rewrite Hsel, selected_with_selected by done.
  rewrite list_elem_of_filter, view_layer_objects_with_selected.
  replace (objects (with_selected _ s)) with (objects s) by by destruct s.
  rewrite elem_of_nil. naive_solver.
Qed.

Lemma deselect_units_spec units :
  ∀ i s, is_Some (view_layers s !! window_view_layer s) →
    ∃ sel,
      for_each (λ _ c,
          do objs <~ gets objects;
          for_each (λ _ o,
              if obj_test objs is_mesh o then modify (select_set o false)
              else ret tt)
            0 (all_objects c objs))
        i units s
      = (Returns tt, with_selected (λ _, sel) s) ∧
      (∀ o, o ∈ sel ↔
            o ∈ selected_objects s ∧ ¬ unit_mesh units (objects s) o).
Proof.
  induction units as [|c units IH]; intros i s Hl.
  - exists (selected_objects s). rewrite with_selected_self. split; [done|].
    intros o. split; [|by intros [? _]]. intros Ho. split; [done|].
    intros (c & Hc & _). by apply elem_of_nil in Hc.
  - rewrite for_each_cons. unfold bind at 1. unfold gets at 1.
    destruct (deselect_loop_spec (λ o, obj_test (objects s) is_mesh o)
                (λ _ o, if obj_test (objects s) is_mesh o
                        then modify (select_set o false) else ret tt)
                (all_objects c (objects s))
                ltac:(intros ? o st; simpl;
                      by destruct (obj_test (objects s) is_mesh o))
                0 s Hl) as (sel1 & Hrun1 & Hsel1).
    rewrite Hrun1.
    destruct (IH (S i) _ (with_selected_layer (λ _, sel1) s Hl))
      as (sel & Hrun & Hsel).
    exists sel. rewrite Hrun, with_selected_const_compose. split; [done|].
    intros o. rewrite Hsel, selected_with_selected by done.
    replace (objects (with_selected _ s)) with (objects s) by by destruct s.
    rewrite Hsel1. unfold unit_mesh. split.
    + intros [[Ho Hn1] Hn]. split; [done|].
      intros (c' & [->|Hc']%elem_of_cons & Hin & Hm); [by apply Hn1|].
      apply Hn. by exists c'.
    + intros [Ho Hn]. split; [split; [done|]|].
      * intros [Hin Hm]. apply Hn. exists c. split; [left|done].
      * intros (c' & Hc' & Hin & Hm). apply Hn. exists c'.
        split; [by right|done].
Qed.

(** What [select_for_export] leaves selected when it returns: the
    objects of the collection to export that the view layer has and
    that were not recorded as hidden, but for the meshes of the
    collections to join; and the joined meshes. *)
Lemma select_for_export_spec faults new cte hidden units s r s' :
  is_Some (view_layers s !! window_view_layer s) →
  select_for_export faults new cte hidden units s = (r, s') →
  match r with
  | Returns _ =>
      ∃ sel, s' = with_selected (λ _, sel) s ∧
        ∀ o, o ∈ sel ↔
             o ∈ joined_meshes s ∨
             (o ∈ all_objects cte (objects s) ∧
              o ∈ view_layer_objects new s ∧ o ∉ hidden ∧
              ¬ unit_mesh units (objects s) o)
  | Raises _ => ∃ sel, s' = with_selected (λ _, sel) s
  end.
Proof.
  intros Hl. unfold select_for_export.
  unfold bind at 1. destruct (f_select faults); simpl.
  { intros [= <- <-]. exists (selected_objects s).
    by rewrite with_selected_self. }
  unfold bind at 1.
  destruct (select_included_objects_in_collection_spec new cte hidden false
              s Hl) as (sel1 & -> & Hsel1).
  pose proof (with_selected_layer (λ _, sel1) s Hl) as Hl1.
  unfold bind at 1. destruct (f_deselect faults); simpl.
  { intros [= <- <-]. by exists sel1. }
  unfold bind at 1.
  destruct (deselect_units_spec units 0 _ Hl1) as (sel2 & -> & Hsel2).
  rewrite with_selected_const_compose.
  pose proof (with_selected_layer (λ _, sel2) s Hl) as Hl2.
  unfold bind at 1. destruct (f_reselect faults); simpl.
  { intros [= <- <-]. by exists sel2. }
  unfold bind at 1. unfold gets at 1.
  destruct (select_loop_spec (λ _ _, true)
              (λ _ o, modify (select_set o true))
              (joined_meshes (with_selected (λ _, sel2) s))
              ltac:(done) 0 _ Hl2) as (sel3 & -> & Hsel3).
  rewrite with_selected_const_compose. intros [= <- <-].
  exists sel3. split; [done|]. intros o.
  rewrite Hsel3, selected_with_selected by done.
  replace (joined_meshes (with_selected _ s)) with (joined_meshes s)
    by by destruct s.
  rewrite Hsel2, selected_with_selected by done.
  replace (objects (with_selected _ s)) with (objects s) by by destruct s.
  rewrite Hsel1. simpl. naive_solver.
Qed.

(** ** The objects recorded as hidden *)

Lemma hoare_and_stable {A} (P : State → Prop) (m : M A) Q E (I : State → Prop) :
  hoare P m Q E → stable I m →
  hoare (λ s, P s ∧ I s) m (λ a s, Q a s ∧ I s) (λ s, E s ∧ I s).
Proof.
  intros Hm HI s [HP Hs]. specialize (Hm s HP). specialize (HI s Hs).
  by destruct (m s) as [[a|e] s'].
Qed.

Lemma hoare_try_finally_stable {A} (P T : State → Prop) (body : M A) cleanup :
  hoare P body (λ _, T) T → stable T cleanup →
  hoare P (try_finally body cleanup) (λ _, T) T.
Proof.
  intros Hbody Hclean. apply hoare_final. intros s Hs.
  rewrite try_finally_final. apply Hclean.
  specialize (Hbody s Hs). by destruct (body s) as [[a|e] s'].
Qed.

Lemma exports_clean_frame log0 hidden s s' :
  exported s' = exported s →
  exports_clean log0 hidden s → exports_clean log0 hidden s'.
Proof. intros He. unfold exports_clean. by rewrite He. Qed.

Ltac clean_frame :=
  let st1 := fresh "st" in
  let H := fresh "Hst" in
  intros st1 H; eapply exports_clean_frame; [|exact H];
  unfold select_set, with_selected, with_active, with_flags, set_hide;
  repeat case_match; by destruct st1.

Lemma export_stage_exported faults cte settings s :
  exported (export_stage faults cte settings s).2
  = exported s ++ [(settings, selected_objects s)].
Proof.
  unfold export_stage, bind, gets, modify, report, ret, raise.
  destruct (f_export faults); simpl; [|done..].
  by case_bool_decide.
Qed.

Lemma join_select_export_clean O log0 faults new cte hidden names units
    settings :
  (∀ o, o ∈ hidden → is_Some (O !! o)) →
  hoare (λ s, join_idle O s ∧ exports_clean log0 hidden s)
    (join_select_export faults new cte hidden names units settings)
    (λ _, exports_clean log0 hidden) (exports_clean log0 hidden).
Proof.
  intros Hhidden. unfold join_select_export.
  eapply hoare_bind
    with (Q1 := λ _ s, join_idle O s ∧ exports_clean log0 hidden s).
  { eapply hoare_conseq.
    - apply hoare_and_stable with (I := exports_clean log0 hidden).
      + apply (hoare_for_each (join_idle O) (join_inv O)).
        intros i c _. apply join_round_idle.
      + stable_walk; clean_frame.
    - done.
    - done.
    - by intros s [_ ?]. }
  intros _. apply hoare_final. intros s [Hidle Hclean].
  pose proof (join_idle_layer _ _ Hidle) as Hl.
  unfold bind at 1.
  destruct (select_for_export faults new cte hidden units s) as [r s'] eqn:Hsfe.
  apply select_for_export_spec in Hsfe; [|done].
  destruct r as [[]|e].
  - destruct Hsfe as (sel & -> & Hsel). cbv beta iota.
    unfold exports_clean. rewrite export_stage_exported.
    rewrite selected_with_selected by done.
    destruct Hclean as (new' & Hlog & Hnew).
    exists (new' ++ [(settings, sel)]). split.
    + replace (exported (with_selected _ s)) with (exported s) by by destruct s.
      by rewrite Hlog, app_assoc.
    + apply Forall_app. split; [done|]. apply Forall_singleton. simpl.
      apply Forall_forall. intros o [Hj|(_ & _ & Hn & _)]%Hsel; [|done].
      intros [ob Hob]%Hhidden.
      destruct Hidle as ((_ & _ & Hlists & _) & _).
      rewrite Forall_app in Hlists. destruct Hlists as [Hjoined _].
      rewrite Forall_forall in Hjoined. specialize (Hjoined o Hj). congruence.
  - destruct Hsfe as (sel & ->). simpl.
    eapply exports_clean_frame; [|done]. by destruct s.
Qed.

Lemma hidden_inv_cleared log0 faults new cte hidden names units settings
    (saved : list (ref * bool * bool)) :
  hoare (hidden_inv log0 hidden)
    (for_each (λ i '(oc, _, _),
         failing (f_clear_hide faults i) >>
         modify (set_hide oc false false))
       0 saved >>
     modify (with_joined_meshes []) >>
     modify (with_duplicated_meshes []) >>
     modify (with_abort_postjoin_meshes []) >>
     try_finally
       (join_select_export faults new cte hidden names units settings)
       remove_created_meshes)
    (λ _, exports_clean log0 hidden) (exports_clean log0 hidden).
Proof.
  eapply hoare_bind with (Q1 := λ _, hidden_inv log0 hidden).
  { eapply hoare_conseq;
      [apply hoare_stable with (I := hidden_inv log0 hidden)
      |done|done|by intros s [? _]].
    apply stable_for_each. intros i [[oc hs] hv].
    apply stable_bind; [apply stable_failing|]. intros _.
    apply stable_modify. intros s (Hc & Ha & Hl).
    split; [by destruct oc, s|]. split; [|by destruct oc].
    intros o Ho. specialize (Ha o Ho). destruct oc as [o'|c]; [|done].
    simpl. destruct (decide (o' = o)) as [->|Hne].
    - rewrite lookup_alter_eq. destruct Ha as [ob ->]. by eexists.
    - by rewrite lookup_alter_ne. }
  intros _.
  eapply hoare_bind
    with (Q1 := λ _ s, hidden_inv log0 hidden s ∧ joined_meshes s = []).
  { apply hoare_modify. intros s (Hc & Ha & Hl). by destruct s. }
  intros _.
  eapply hoare_bind
    with (Q1 := λ _ s, hidden_inv log0 hidden s ∧ joined_meshes s = [] ∧
                       duplicated_meshes s = []).
  { apply hoare_modify. intros s [(Hc & Ha & Hl) Hj]. by destruct s. }
  intros _.
  eapply hoare_bind
    with (Q1 := λ _ s, hidden_inv log0 hidden s ∧ joined_meshes s = [] ∧
                       duplicated_meshes s = [] ∧
                       abort_postjoin_meshes s = []).
  { apply hoare_modify. intros s [(Hc & Ha & Hl) [Hj Hd]]. by destruct s. }
  intros _. apply hoare_try_finally_stable; [|stable_walk; clean_frame].
  intros s ((Hc & Ha & Hl) & Hj & Hd & Hab).
  apply (join_select_export_clean (objects s)); [done|]. split; [|done].
  unfold join_idle, join_inv. rewrite Hj, Hd, Hab. simpl.
  repeat split; auto. intros o [ob Ho] Hno. by rewrite Ho in Hno.
Qed.

Lemma hidden_inv_body log0 faults new cte hidden names units settings ne
    (saved : list (ref * bool * bool)) :
  hoare (hidden_inv log0 hidden)
    (do root <~ gets scene_collection;
     modify (with_flags
               (set_excluded_collections host_assign_exclude
                  (layer_collection_of root) ne (cid cte) false false)
               new) >>
     failing (f_set_excluded faults) >>
     try_finally
       (for_each (λ i '(oc, _, _),
            failing (f_clear_hide faults i) >>
            modify (set_hide oc false false))
          0 saved >>
        modify (with_joined_meshes []) >>
        modify (with_duplicated_meshes []) >>
        modify (with_abort_postjoin_meshes []) >>
        try_finally
          (join_select_export faults new cte hidden names units settings)
          remove_created_meshes)
       (restore_global_properties saved))
    (λ _, exports_clean log0 hidden) (exports_clean log0 hidden).
Proof.
  eapply hoare_bind with (Q1 := λ _, hidden_inv log0 hidden).
  { by apply hoare_gets. }
  intros root.
  eapply hoare_bind with (Q1 := λ _, hidden_inv log0 hidden).
  { apply hoare_modify. intros s (Hc & Ha & [vl Hl]).
    split; [by destruct s|]. split; [by destruct s|].
    unfold with_flags. destruct s; simpl in *.
    destruct (decide (new = window_view_layer0)) as [->|Hne].
    - rewrite lookup_alter_eq, Hl. by eexists.
    - rewrite lookup_alter_ne by done. by eexists. }
  intros _.
  eapply hoare_bind with (Q1 := λ _, hidden_inv log0 hidden).
  { apply hoare_failing; [done|]. by intros s [? _]. }
  intros _. apply hoare_try_finally_stable; [|stable_walk; clean_frame].
  apply hidden_inv_cleared.
Qed.

Lemma final_settings_use_visible env exporter_name settings :
  final_settings env exporter_name settings !! "use_visible"
  = settings !! "use_visible".
Proof.
  unfold final_settings. cbv zeta.
  rewrite lookup_insert_ne by done.
  case_match; [rewrite lookup_insert_ne by done|];
    (case_match; [|rewrite lookup_insert_ne by done]);
    by rewrite !lookup_delete_ne by done.
Qed.

Lemma exports_clean_refl s hidden : exports_clean (exported s) hidden s.
Proof. exists []. by rewrite app_nil_r. Qed.

Lemma hidden_objects_of_alive cte s o :
  o ∈ hidden_objects_of cte s → is_Some (objects s !! o).
Proof.
  unfold hidden_objects_of, all_objects.
  intros [_ [_ Hin]%list_elem_of_filter]%list_elem_of_filter.
  by apply elem_of_elements, elem_of_dom in Hin.
Qed.

Lemma execute_resolved_clean env faults cte exporter_name settings ne rj jn
    v s0 :
  settings !! "use_visible" = Some v → truthy env v = true →
  exports_clean (exported s0) (hidden_objects_of cte s0)
    (execute_resolved env faults cte (exporter_name, settings, ne, rj, jn)
       s0).2.
Proof.
  intros Hv Htruthy.
  unfold execute_resolved. rewrite py_in_str_tuples. cbv zeta.
  rewrite final_settings_use_visible, Hv, Htruthy.
  set (hidden := hidden_objects_of cte s0).
  set (T := exports_clean (exported s0) hidden).
  assert (HT : T s0) by apply exports_clean_refl.
  apply (final_hoare _ (λ s, s = s0)); [|done].
  apply hoare_bind with (Q1 := λ _ s, s = s0).
  { by apply hoare_gets. }
  intros saved.
  apply hoare_bind with (Q1 := λ x s, s = s0 ∧ x.2 = hidden).
  { apply hoare_bind with (Q1 := λ _ s, s = s0).
    { apply hoare_failing; [done|]. by intros s ->. }
    intros _. apply hoare_bind with (Q1 := λ a s, s = s0 ∧ a = objects s0).
    { apply hoare_gets. by intros s ->. }
    intros objs. apply hoare_ret. by intros s [-> ->]. }
  intros [settings' hidden'].
  apply hoare_bind with (Q1 := λ _ s, s = s0 ∧ hidden' = hidden).
  { eapply hoare_conseq;
      [apply hoare_stable with (I := λ s, s = s0 ∧ hidden' = hidden);
       stable_walk
      | done | done | by intros s [-> _] ]. }
  intros _.
  apply hoare_bind
    with (Q1 := λ a s, s = s0 ∧ hidden' = hidden ∧ a = window_view_layer s0).
  { apply hoare_gets. by intros s [-> ->]. }
  intros saved_view_layer.
  destruct (f_view_layer_add faults).
  - pose proof (view_layer_add_fresh s0) as Hfresh. cbv zeta in Hfresh.
    set (new := S (max_list (window_view_layer s0
                               :: elements (dom (view_layers s0))))) in *.
    destruct Hfresh as [Hnew Hnone].
    set (s1 := with_window_view_layer new
                 (with_view_layers (<[new := empty_layer]>) s0)).
    apply hoare_bind
      with (Q1 := λ _ s, s = s1 ∧ hidden' = hidden ∧
                  saved_view_layer = window_view_layer s0).
    { apply hoare_modify. by intros s (-> & -> & ->). }
    intros _.
    apply hoare_bind
      with (Q1 := λ a s, s = s1 ∧ hidden' = hidden ∧
                  saved_view_layer = window_view_layer s0 ∧ a = new).
    { apply hoare_gets. intros s (-> & -> & ->). by destruct s0. }
    intros new'.
    apply hoare_final. intros s (-> & -> & -> & ->).
    rewrite bool_decide_false by done.
    apply (final_hoare _ (hidden_inv (exported s0) hidden)).
    + apply hoare_try_finally_stable; [|stable_walk; clean_frame].
      apply hidden_inv_body.
    + split; [|split].
      * unfold s1. eapply exports_clean_frame; [|apply HT]. by destruct s0.
      * intros o Ho%hidden_objects_of_alive. unfold s1. by destruct s0.
      * unfold s1. destruct s0; simpl. rewrite lookup_insert_eq.
        by eexists.
  - apply hoare_bind with (Q1 := λ _ _, False); [|by intros _ s []].
    apply hoare_raise. by intros s [-> _].
  - apply hoare_bind
      with (Q1 := λ _ s, s = s0 ∧ saved_view_layer = window_view_layer s0).
    { apply hoare_ret. by intros s (-> & _ & ->). }
    intros _.
    apply hoare_bind
      with (Q1 := λ a s, s = s0 ∧ saved_view_layer = window_view_layer s0 ∧
                         a = window_view_layer s0).
    { apply hoare_gets. by intros s [-> ->]. }
    intros new. apply hoare_final. intros s (-> & -> & ->).
    by rewrite bool_decide_true by done.
Qed.

Lemma get_export_settings_objects env n s :
  objects (get_export_settings env n s).2 = objects s ∧
  exported (get_export_settings env n s).2 = exported s.
Proof.
  apply (final_hoare _ (λ s', objects s' = objects s ∧
                              exported s' = exported s)); [|done].
  apply hoare_stable. stable_walk; intros st Hst; by destruct st.
Qed.

(** C6: in a run of [execute] whose settings have a true [use_visible],
    no call of the exporter is made with a selection that has an object
    of the collection to export for which [visible_get()] was false when
    the run began ([hidden_objects_of], the set of lines 323 to 326),
    whatever the faults and whether the run returns or raises. *)
Theorem hidden_objects_never_exported env faults collection_to_export s0
    exporter_name settings ne rj jn v s1 :
  get_export_settings env (cname collection_to_export) s0
  = (Returns (Some (exporter_name, settings, ne, rj, jn)), s1) →
  settings !! "use_visible" = Some v → truthy env v = true →
  ∃ new,
    exported (execute env faults collection_to_export s0).2
    = exported s0 ++ new ∧
    ∀ e o, e ∈ new → o ∈ hidden_objects_of collection_to_export s0 →
           o ∉ e.2.
Proof.
  intros Hget Hv Htruthy.
  pose proof (get_export_settings_objects env (cname collection_to_export) s0)
    as [Hobj Hexp].
  unfold execute, bind. rewrite Hget in *. simpl in Hobj, Hexp.
  destruct (execute_resolved_clean env faults collection_to_export
              exporter_name settings ne rj jn v s1 Hv Htruthy)
    as (new & Hlog & Hnew).
  exists new. rewrite Hlog, Hexp. split; [done|].
  intros e o He Ho Hin.
  rewrite Forall_forall in Hnew. specialize (Hnew e He).
  rewrite Forall_forall in Hnew. apply (Hnew o Hin).
  unfold hidden_objects_of in *. by rewrite Hobj.
Qed.

Lemma hidden_objects_never_exported_witness :
  hidden_objects_of sc_B (ex_state (Some ex_join_text)) = [12] ∧
  ∃ new,
    exported (execute (ex_env ex_join_config) no_faults sc_B
                (ex_state (Some ex_join_text))).2
    = exported (ex_state (Some ex_join_text)) ++ new ∧
    ∀ e o, e ∈ new → o ∈ hidden_objects_of sc_B (ex_state (Some ex_join_text)) →
           o ∉ e.2.
Proof.
  split; [reflexivity|].
  eapply (hidden_objects_never_exported (ex_env ex_join_config) no_faults sc_B
            (ex_state (Some ex_join_text)) _ _ _ _ _ (VBool true)).
  - vm_compute. reflexivity.
  - vm_compute. reflexivity.
  - reflexivity.
Defined.

(** ** One joined mesh for a collection with meshes *)

Lemma duplicate_objects_undo copy_names sel :
  ∀ objs objs' news,
    duplicate_objects copy_names sel objs = (objs', news) →
    foldr delete objs' news = objs.
Proof.
  intros objs objs' news Hdup.
  destruct (duplicate_objects_spec _ _ _ _ _ Hdup) as (Hold & Hnew & Hall).
  apply map_eq. intros k. rewrite foldr_delete_lookup.
  rewrite Forall_forall in Hnew.
  destruct (decide (k ∈ news)) as [Hk|Hk].
  - by destruct (Hnew k Hk) as [-> _].
  - destruct (objs !! k) as [x|] eqn:Hx.
    + rewrite Hold, Hx; [done|by eexists].
    + destruct (objs' !! k) as [y|] eqn:Hy; [|done].
      destruct (Hall k) as [[z Hz]|Hin]; [by eexists|congruence|done].
Qed.

Lemma duplicate_objects_cons copy_names o sel objs ob objs' news :
  objs !! o = Some ob →
  duplicate_objects copy_names (o :: sel) objs = (objs', news) →
  ∃ news', news = fresh_id objs :: news' ∧
           fresh_id objs ∉ news' ∧
           foldr delete objs' news'
           = <[fresh_id objs := with_names (copy_names o ob) ob]> objs.
Proof.
  simpl. intros ->.
  destruct (duplicate_objects copy_names sel
              (<[fresh_id objs := with_names (copy_names o ob) ob]> objs))
    as [objs1 news1] eqn:Hrec.
  intros [= <- <-]. exists news1. split; [done|].
  split; [|by eapply duplicate_objects_undo].
  destruct (duplicate_objects_spec _ _ _ _ _ Hrec) as (_ & Hnew & _).
  rewrite Forall_forall in Hnew. intros [Hn _]%Hnew.
  by rewrite lookup_insert_eq in Hn.
Qed.

Lemma filter_ne_fresh (m : nat) news :
  m ∉ news → filter (λ o, o ≠ m) (m :: news) = news.
Proof.
  intros Hm. rewrite filter_cons_False by (by intros ?).
  induction news as [|x news IH]; [done|].
  apply not_elem_of_cons in Hm as [Hne Hm].
  rewrite filter_cons_True by done. by rewrite IH.
Qed.

Lemma alter_with_names f g m ob (objs : gmap nat Obj) :
  (∀ x, g x = with_names (f x) x) →
  alter g m (<[m := ob]> objs) = <[m := with_names (f ob) ob]> objs.
Proof.
  intros Hg. apply map_eq. intros k. destruct (decide (k = m)) as [->|Hne].
  - by rewrite lookup_alter_eq, !lookup_insert_eq, <-Hg.
  - by rewrite lookup_alter_ne, !lookup_insert_ne.
Qed.

Lemma with_objects_id s f : (∀ x, f x = x) → with_objects f s = s.
Proof. intros H. destruct s. unfold with_objects. simpl. by rewrite H. Qed.

(** What [make_joined_mesh] does from a state where [o], an object
    [ob], is the first one selected: it returns with one more object, a
    copy of [ob] under the names the host gives to the joined object and
    to its mesh, recorded as the last joined mesh; or it raises, and then
    the host did not do as asked, or the collection has no name for its
    joined mesh. *)
Lemma make_joined_mesh_spec faults (names : gmap string string) i c s1
    o sel ob :
  is_Some (view_layers s1 !! window_view_layer s1) →
  selected_objects s1 = o :: sel → objects s1 !! o = Some ob →
  hoare (λ s, s = s1) (make_joined_mesh faults names i c)
    (λ _ s',
       ∃ nm, names !! cname c = Some nm ∧
             fresh_id (objects s1) ∉ joined_meshes s1 ∧
             joined_meshes s' = joined_meshes s1 ++ [fresh_id (objects s1)] ∧
             objects s'
             = <[fresh_id (objects s1) :=
                   with_names (joined_names faults i nm) ob]> (objects s1))
    (λ _, make_joined_mesh_fails faults names i c s1).
Proof.
  intros Hl Hsel Hob.
  set (m := fresh_id (objects s1)).
  set (Post := λ st : State,
         ∃ nm, names !! cname c = Some nm ∧ m ∉ joined_meshes s1 ∧
               joined_meshes st = joined_meshes s1 ++ [m] ∧
               objects st
               = <[m := with_names (joined_names faults i nm) ob]>
                   (objects s1)).
  set (Err := make_joined_mesh_fails faults names i c s1).
  assert (HErr : Err = make_joined_mesh_fails faults names i c s1) by done.
  clearbody Err.
  destruct (duplicate_objects (f_copy_names faults i) (o :: sel) (objects s1))
    as [objs2 news] eqn:Hdup.
  destruct (duplicate_objects_cons _ _ _ _ _ _ _ Hob Hdup)
    as (news' & -> & Hfresh & Hundo). fold m in Hfresh, Hundo.
  set (cp := with_names (f_copy_names faults i o ob) ob) in *.
  set (s2 := with_selected (λ _, m :: news') (with_objects (λ _, objs2) s1)).
  assert (Hl2 : is_Some (view_layers s2 !! window_view_layer s2)).
  { unfold s2. apply with_selected_layer. by destruct s1. }
  assert (Hsel2 : selected_objects s2 = m :: news').
  { unfold s2. rewrite selected_with_selected; [done|by destruct s1]. }
  unfold make_joined_mesh.
  destruct (f_duplicate faults i) eqn:Hd.
  2:{ intros s _. simpl. rewrite HErr. left. by rewrite Hd. }
  2:{ intros s _. simpl. rewrite HErr. left. by rewrite Hd. }
  apply hoare_bind with (Q1 := λ r s, r = FINISHED ∧ s = s2).
  { apply hoare_bind with (Q1 := λ _ s, s = s2); [|by intros; apply hoare_ret].
    unfold duplicate. apply hoare_modify. intros s ->.
    rewrite Hsel, Hdup. done. }
  intros [|]; [|by intros s [? _]].
  rewrite bool_decide_eq_false_2 by (by intros ?).
  apply hoare_bind with (Q1 := λ a s, s = s2 ∧ a = m :: news').
  { apply hoare_gets. intros s [_ Hs]. by rewrite Hs. }
  intros sel2.
  set (s3 := with_active (Some m) (with_duplicated_meshes (m :: news') s2)).
  assert (Hl3 : is_Some (view_layers s3 !! window_view_layer s3)).
  { unfold s3. apply current_layer_with_active. exact Hl2. }
  assert (Hsel3 : selected_objects s3 = m :: news').
  { unfold s3. rewrite selected_with_active. exact Hsel2. }
  apply hoare_bind
    with (Q1 := λ _ s, s = with_duplicated_meshes (m :: news') s2 ∧
                       sel2 = m :: news').
  { apply hoare_modify. by intros s [-> ->]. }
  intros _.
  apply hoare_bind with (Q1 := λ _ s, s = s3 ∧ sel2 = m :: news').
  { apply hoare_modify. by intros s [-> ->]. }
  intros _.
  set (s4 := with_selected (λ _, [m])
               (with_objects (λ objs, foldr delete objs news') s3)).
  apply hoare_bind
    with (Q1 := λ _ s,
            s = s4 ∨ (s = s3 ∧ (news' = [] ∨
                                (1 < length (m :: news') ∧
                                 f_join faults i ≠ JoinOk)))).
  { intros s [-> ->].
    case_bool_decide as Hlen.
    - unfold bind at 1.
      destruct (f_join faults i) eqn:Hj; simpl.
      + unfold join, bind, modify, ret. simpl.
        rewrite Hsel3, filter_ne_fresh by done. by left.
      + rewrite HErr. right. left. by rewrite Hj.
      + rewrite HErr. right. left. by rewrite Hj.
      + right. split; [done|]. by right.
    - right. split; [done|]. left.
      destruct news'; [done|simpl in *; lia]. }
  intros _.
  assert (Hobj4 : objects s4 = <[m := cp]> (objects s1)).
  { unfold s4, s3, s2. rewrite <-Hundo. by destruct s1. }
  assert (Hj4 : joined_meshes s4 = joined_meshes s1).
  { unfold s4, s3, s2. by destruct s1. }
  assert (Hsel4 : selected_objects s4 = [m]).
  { unfold s4. rewrite selected_with_selected; [done|]. exact Hl3. }
  assert (Hend : ∀ s, s = s4 →
    match (do sel0 <~ gets selected_objects;
       match sel0 with
       | [new_joined_mesh] =>
           match names !! cname c with
           | Some joined_name =>
               failing (f_rename faults i) >>
               rename (f_given_name faults i) new_joined_mesh joined_name >>
               rename_data (f_given_data_name faults i) new_joined_mesh >>
               (do joined <~ gets joined_meshes;
                if bool_decide (new_joined_mesh ∈ joined)
                then raise RuntimeError
                else
                 modify (with_joined_meshes (joined ++ [new_joined_mesh])) >>
                 modify (with_duplicated_meshes []))
           | None => raise KeyError
           end
       | _ => modify (with_abort_postjoin_meshes sel0) >> raise RuntimeError
       end) s with
    | (Returns _, s') => Post s'
    | (Raises _, _) => Err
    end).
  { intros s ->.
    unfold bind at 1. unfold gets at 1. rewrite Hsel4.
    destruct (names !! cname c) as [nm|] eqn:Hnm.
    2:{ simpl. rewrite HErr. do 3 right. by left. }
    unfold bind at 1. destruct (f_rename faults i) eqn:Hren.
    { simpl. rewrite HErr. do 2 right. by left. }
    simpl.
    unfold bind at 1. unfold rename at 1. unfold modify at 1.
    unfold bind at 1. unfold rename_data at 1. unfold modify at 1.
    unfold bind at 1. unfold gets at 1.
    case_bool_decide as Hin.
    { simpl. rewrite HErr. do 4 right. by rewrite <-Hj4. }
    unfold bind, modify. cbv beta iota.
    exists nm. split; [done|].
    split; [by rewrite <-Hj4|]. split.
    + change (joined_meshes s4 ++ [m] = joined_meshes s1 ++ [m]).
      by rewrite Hj4.
    + change (alter (λ ob0, with_names (oname ob0,
                               f_given_data_name faults i (oname ob0)) ob0) m
                (alter (λ ob0, with_names (f_given_name faults i nm,
                                           data_name ob0) ob0) m
                   (objects s4))
              = <[m := with_names (joined_names faults i nm) ob]> (objects s1)).
      rewrite Hobj4.
      rewrite (alter_with_names
                 (λ ob0, (f_given_name faults i nm, data_name ob0))) by done.
      rewrite (alter_with_names
                 (λ ob0, (oname ob0, f_given_data_name faults i (oname ob0))))
        by done.
      done. }
  intros s [->|[-> [->|[Hlen Hj]]]].
  - by apply Hend.
  - apply Hend. unfold s4. rewrite (with_objects_id s3) by done.
    rewrite <-Hsel3. by rewrite with_selected_self.
  - unfold bind at 1. unfold gets at 1. rewrite Hsel3.
    destruct news' as [|n1 news']; [simpl in Hlen; lia|].
    simpl. rewrite HErr. right. by left.
Qed.
(** What a round that makes a joined mesh leaves. *)
Lemma make_joined_mesh_returns faults (names : gmap string string) i c s1 s'
    o sel ob :
  is_Some (view_layers s1 !! window_view_layer s1) →
  selected_objects s1 = o :: sel → objects s1 !! o = Some ob →
  make_joined_mesh faults names i c s1 = (Returns tt, s') →
  ∃ nm, names !! cname c = Some nm ∧
        fresh_id (objects s1) ∉ joined_meshes s1 ∧
        joined_meshes s' = joined_meshes s1 ++ [fresh_id (objects s1)] ∧
        objects s'
        = <[fresh_id (objects s1) :=
              with_names (joined_names faults i nm) ob]> (objects s1).
Proof.
  intros Hl Hsel Hob Hrun.
  pose proof (make_joined_mesh_spec faults names i c s1 o sel ob Hl Hsel Hob
                s1 eq_refl) as H.
  by rewrite Hrun in H.
Qed.

Lemma selectable_meshes_elem view_layer hidden c s o :
  o ∈ selectable_meshes view_layer hidden c s ↔
  o ∉ hidden ∧
  ∃ ob, objects s !! o = Some ob ∧ in_collection c ob = true ∧
        in_view_layer (scene_collection s)
          (default empty_layer (view_layers s !! view_layer)) ob = true ∧
        is_mesh ob = true.
Proof.
  unfold selectable_meshes, all_objects, view_layer_objects.
  rewrite !list_elem_of_filter, elem_of_elements, elem_of_dom.
  unfold obj_test. destruct (objects s !! o) as [ob|]; simpl.
  - rewrite !Is_true_true. split.
    + intros (((Hv & _) & Hh & Hm) & Hc & _). eauto 10.
    + intros (Hh & ob' & [= <-] & Hc & Hv & Hm). eauto 10.
  - split.
    + by intros ((_ & _ & ?) & _).
    + by intros (_ & ob & ? & _).
Qed.

(** What a round of the joining loop does: it returns, having made no
    object when the collection has no mesh to select and one joined mesh
    otherwise; or it raises, and then the host did not do as asked, or
    the collection has no name for its joined mesh. *)
Lemma join_round_spec faults view_layer hidden names i c s :
  is_Some (view_layers s !! window_view_layer s) →
  match join_round faults view_layer hidden names i c s with
  | (Returns _, s') =>
      (selectable_meshes view_layer hidden c s = [] ∧
       objects s' = objects s ∧ joined_meshes s' = joined_meshes s) ∨
      (∃ o ob nm,
         o ∈ selectable_meshes view_layer hidden c s ∧
         objects s !! o = Some ob ∧ names !! cname c = Some nm ∧
         fresh_id (objects s) ∉ joined_meshes s ∧
         joined_meshes s' = joined_meshes s ++ [fresh_id (objects s)] ∧
         objects s'
         = <[fresh_id (objects s) :=
               with_names (joined_names faults i nm) ob]> (objects s))
  | (Raises _, _) =>
      f_select_meshes faults i = true ∨
      make_joined_mesh_fails faults names i c s
  end.
Proof.
  intros Hl. unfold join_round.
  unfold bind at 1. destruct (f_select_meshes faults i); [by left|]. simpl.
  unfold bind at 1.
  destruct (select_included_objects_in_collection_spec view_layer c hidden
              true s Hl) as (sel & -> & Hsel).
  pose proof (with_selected_layer (λ _, sel) s Hl) as Hl1.
  assert (Hsel1 : selected_objects (with_selected (λ _, sel) s) = sel)
    by by rewrite selected_with_selected.
  assert (Hmem : ∀ o, o ∈ sel ↔ o ∈ selectable_meshes view_layer hidden c s).
  { intros o. rewrite Hsel. unfold selectable_meshes.
    rewrite list_elem_of_filter. simpl. naive_solver. }
  unfold bind at 1. unfold gets at 1. rewrite Hsel1.
  destruct sel as [|o sel].
  - simpl. left. split; [|by destruct s].
    apply elem_of_nil_inv. intros o Ho%Hmem. by apply elem_of_nil in Ho.
  - rewrite bool_decide_eq_true_2 by (simpl; lia).
    assert (Ho : o ∈ selectable_meshes view_layer hidden c s).
    { apply Hmem. left. }
    pose proof Ho as Ho'.
    apply selectable_meshes_elem in Ho' as (_ & ob & Hob & _).
    pose proof (make_joined_mesh_spec faults names i c _ o sel ob
                  Hl1 Hsel1 ltac:(by destruct s) _ eq_refl) as Hspec.
    destruct (make_joined_mesh faults names i c (with_selected (λ _, o :: sel) s))
      as [[[]|e] s'].
    + right. destruct Hspec as (nm & Hnm & Hfresh & Hj & Hobjs).
      exists o, ob, nm. by repeat split.
    + right. exact Hspec.
Qed.

Lemma join_round_returns faults view_layer hidden names i c s s' :
  is_Some (view_layers s !! window_view_layer s) →
  join_round faults view_layer hidden names i c s = (Returns tt, s') →
  (selectable_meshes view_layer hidden c s = [] ∧
   objects s' = objects s ∧ joined_meshes s' = joined_meshes s) ∨
  (∃ o ob nm,
     o ∈ selectable_meshes view_layer hidden c s ∧
     objects s !! o = Some ob ∧ names !! cname c = Some nm ∧
     fresh_id (objects s) ∉ joined_meshes s ∧
     joined_meshes s' = joined_meshes s ++ [fresh_id (objects s)] ∧
     objects s'
     = <[fresh_id (objects s) :=
           with_names (joined_names faults i nm) ob]> (objects s)).
Proof.
  intros Hl Hrun.
  pose proof (join_round_spec faults view_layer hidden names i c s Hl) as H.
  by rewrite Hrun in H.
Qed.

Ltac layers_same_frame :=
  let st1 := fresh "st" in
  let Hsc := fresh "Hsc" in
  let Hfl := fresh "Hfl" in
  let k := fresh "k" in
  intros st1 [Hsc Hfl];
  unfold same_layers, select_set, with_selected, with_active in *;
  repeat case_match; destruct st1; simpl in *;
  (split; [done|]); intros k; rewrite <-Hfl; try done;
  match goal with
  | |- context [alter _ ?w _ !! k] =>
      destruct (decide (k = w)) as [->|];
      [rewrite lookup_alter_eq;
       by match goal with |- context [?m !! w] => destruct (m !! w) end
      |by rewrite lookup_alter_ne]
  end.

Lemma join_round_same_layers s0 faults view_layer hidden names i c :
  stable (same_layers s0) (join_round faults view_layer hidden names i c).
Proof. stable_walk; layers_same_frame. Qed.

Lemma in_view_layer_same s0 s view_layer ob :
  same_layers s0 s →
  in_view_layer (scene_collection s)
    (default empty_layer (view_layers s !! view_layer)) ob
  = in_view_layer (scene_collection s0)
      (default empty_layer (view_layers s0 !! view_layer)) ob.
Proof.
  intros [-> Hfl]. apply in_view_layer_flags. specialize (Hfl view_layer).
  destruct (view_layers s !! view_layer), (view_layers s0 !! view_layer);
    simpl in *; congruence.
Qed.

Lemma obj_alike_tests c root vl ob ob0 :
  obj_alike ob ob0 →
  in_collection c ob = in_collection c ob0 ∧
  in_view_layer root vl ob = in_view_layer root vl ob0 ∧
  is_mesh ob = is_mesh ob0.
Proof.
  intros [Ht Hu]. unfold in_collection, in_view_layer, is_mesh.
  by rewrite Ht, Hu.
Qed.

(** A collection has a mesh to select in a round exactly when it had
    one before the first round. *)
Lemma selectable_meshes_nil view_layer hidden s0 done s c :
  rounds_inv view_layer hidden s0 done s →
  selectable_meshes view_layer hidden c s = [] ↔
  selectable_meshes view_layer hidden c s0 = [].
Proof.
  intros (((_ & Horig & _) & _) & Hsame & Hcopies & _).
  assert (Hex : (∃ o, o ∈ selectable_meshes view_layer hidden c s) ↔
                (∃ o, o ∈ selectable_meshes view_layer hidden c s0)).
  { split.
    - intros (o & (Hh & ob & Hob & Hc & Hv & Hm)%selectable_meshes_elem).
      rewrite (in_view_layer_same s0 s) in Hv by done.
      destruct (objects s0 !! o) as [ob0|] eqn:Hob0.
      + exists o. apply selectable_meshes_elem. split; [done|].
        rewrite Horig, Hob0 in Hob by (by eexists). simplify_eq. eauto 10.
      + destruct (Hcopies o ob Hob Hob0) as (o' & ob0 & Ho' & Hh' & Halike).
        exists o'. apply selectable_meshes_elem. split; [done|].
        exists ob0. split; [done|].
        destruct (obj_alike_tests c (scene_collection s0)
                    (default empty_layer (view_layers s0 !! view_layer))
                    ob ob0 Halike) as (<- & <- & <-). done.
    - intros (o & (Hh & ob & Hob & Hc & Hv & Hm)%selectable_meshes_elem).
      exists o. apply selectable_meshes_elem. split; [done|].
      exists ob. rewrite Horig, Hob by (by eexists).
      by rewrite (in_view_layer_same s0 s). }
  split; intros Hnil; apply elem_of_nil_inv; intros o Ho.
  - destruct Hex as [_ Hex]. destruct Hex as (o' & Ho'); [by exists o|].
    rewrite Hnil in Ho'. by apply elem_of_nil in Ho'.
  - destruct Hex as [Hex _]. destruct Hex as (o' & Ho'); [by exists o|].
    rewrite Hnil in Ho'. by apply elem_of_nil in Ho'.
Qed.

Lemma joined_units_snoc view_layer hidden done c s0 :
  joined_units view_layer hidden (done ++ [c]) s0
  = joined_units view_layer hidden done s0
    ++ (if decide (selectable_meshes view_layer hidden c s0 = [])
        then [] else [c]).
Proof.
  unfold joined_units. rewrite filter_app. f_equal.
  destruct (decide (selectable_meshes view_layer hidden c s0 = [])) as [H|H].
  - by rewrite filter_cons_False by (by intros ?).
  - by rewrite filter_cons_True.
Qed.

(** One round of the joining loop. *)
Lemma join_round_rounds_inv faults names view_layer hidden s0 done i c s s' :
  rounds_inv view_layer hidden s0 done s →
  join_round faults view_layer hidden names i c s = (Returns tt, s') →
  rounds_inv view_layer hidden s0 (done ++ [c]) s'.
Proof.
  intros Hinv Hrun.
  pose proof (selectable_meshes_nil _ _ _ _ _ c Hinv) as Hnil.
  destruct Hinv as (Hidle & Hsame & Hcopies & Hnodup & Hnamed).
  pose proof (join_round_idle (objects s0) faults view_layer hidden names i c
                s Hidle) as Hidle'.
  pose proof (join_round_same_layers s0 faults view_layer hidden names i c
                s Hsame) as Hsame'.
  rewrite Hrun in Hidle', Hsame'. simpl in Hsame'.
  pose proof (join_idle_layer _ _ Hidle) as Hl.
  split; [done|]. split; [done|].
  rewrite joined_units_snoc.
  destruct (join_round_returns _ _ _ _ _ _ _ _ Hl Hrun)
    as [(Hsel & Hobj & Hj)|(o & ob & nm & Ho & Hob & Hnm & Hfresh & Hj & Hobj)].
  - rewrite decide_True by by apply Hnil.
    rewrite app_nil_r, Hj. unfold copies_inv, joined_for.
    rewrite Hobj. done.
  - assert (Hne : selectable_meshes view_layer hidden c s0 ≠ []).
    { intros H%Hnil. rewrite H in Ho. by apply elem_of_nil in Ho. }
    rewrite decide_False by done. rewrite Hj.
    pose proof (fresh_id_fresh (objects s)) as Hm.
    set (m := fresh_id (objects s)) in *.
    apply selectable_meshes_elem in Ho as (Hh & ob' & Hob' & Hcoll & _ & Hmesh).
    rewrite Hob in Hob'. injection Hob' as <-.
    split; [|split].
    + intros k obk. rewrite Hobj. destruct (decide (k = m)) as [->|Hk].
      * rewrite lookup_insert_eq. intros [= <-] Hnone.
        destruct (objects s0 !! o) as [ob0|] eqn:Hob0.
        { exists o, ob0. split; [done|]. split; [done|].
          destruct Hidle as ((_ & Horig & _) & _).
          rewrite Horig, Hob0 in Hob by (by eexists). by simplify_eq. }
        { destruct (Hcopies o ob Hob Hob0) as (o' & ob0 & ? & ? & [? ?]).
          exists o', ob0. by repeat split. }
      * rewrite lookup_insert_ne by done. apply Hcopies.
    + apply NoDup_app. split; [done|]. split; [|apply NoDup_singleton].
      intros x Hx ->%list_elem_of_singleton. done.
    + apply Forall2_app.
      * eapply Forall2_impl; [exact Hnamed|].
        intros m1 c1 (ob1 & Hob1 & Hm1 & Hn1). exists ob1.
        split; [|done]. rewrite Hobj, lookup_insert_ne; [done|].
        intros <-. by rewrite Hm in Hob1.
      * constructor; [|constructor].
        exists (with_names (joined_names faults i nm) ob).
        by rewrite Hobj, lookup_insert_eq.
Qed.

(** The joining loop. *)
Lemma join_rounds_inv faults names view_layer hidden s0 rest :
  ∀ done i s s',
    rounds_inv view_layer hidden s0 done s →
    for_each (join_round faults view_layer hidden names) i rest s
    = (Returns tt, s') →
    rounds_inv view_layer hidden s0 (done ++ rest) s'.
Proof.
  induction rest as [|c rest IH]; intros done i s s' Hinv.
  - intros [= <-]. by rewrite app_nil_r.
  - rewrite for_each_cons.
    destruct (join_round faults view_layer hidden names i c s)
      as [[[]|e] s1] eqn:Hround; [|done].
    intros Hrun. rewrite (assoc_L _ done [c] rest : done ++ c :: rest = _).
    eapply IH; [|exact Hrun]. by eapply join_round_rounds_inv.
Qed.

Lemma rounds_inv_start view_layer hidden s :
  is_Some (view_layers s !! window_view_layer s) →
  joined_meshes s = [] → duplicated_meshes s = [] →
  abort_postjoin_meshes s = [] →
  rounds_inv view_layer hidden s [] s.
Proof.
  intros Hl Hj Hd Ha.
  split; [|split; [done|split; [|split]]].
  - unfold join_idle, join_inv. rewrite Hj, Hd, Ha. simpl.
    repeat split; auto. intros o [ob Ho] Hno. by rewrite Ho in Hno.
  - intros m ob Hob Hnone. congruence.
  - rewrite Hj. constructor.
  - rewrite Hj. constructor.
Qed.

(** With such a host and a name for every collection to join, the
    joining loop returns. *)
Lemma join_rounds_run faults names view_layer hidden s0 rest :
  joining_obliged faults →
  (∀ c, c ∈ rest → is_Some (names !! cname c)) →
  ∀ done i s,
    rounds_inv view_layer hidden s0 done s →
    ∃ s', for_each (join_round faults view_layer hidden names) i rest s
          = (Returns tt, s').
Proof.
  intros (Hsel & Hdup & Hjoin & Hren) Hnames.
  induction rest as [|c rest IH]; intros done i s Hinv.
  - by eexists.
  - rewrite for_each_cons.
    pose proof Hinv as (Hidle & _ & _ & _ & Hjoined).
    pose proof (join_idle_layer _ _ Hidle) as Hl.
    pose proof (join_round_spec faults view_layer hidden names i c s Hl)
      as Hspec.
    destruct (join_round faults view_layer hidden names i c s)
      as [[[]|e] s1] eqn:Hround.
    + eapply (IH ltac:(intros; apply Hnames; by right) (done ++ [c]) (S i)).
      by eapply join_round_rounds_inv.
    + exfalso. destruct Hspec as [Hf|[Hf|[Hf|[Hf|[Hf|Hf]]]]].
      * by rewrite Hsel in Hf.
      * by rewrite Hdup in Hf.
      * by rewrite Hjoin in Hf.
      * by rewrite Hren in Hf.
      * destruct (Hnames c) as [nm Hnm]; [left|]. by rewrite Hnm in Hf.
      * apply list_elem_of_lookup in Hf as [k Hk].
        destruct (Forall2_lookup_l _ _ _ _ _ Hjoined Hk)
          as (c' & _ & ob & Hob & _).
        by rewrite fresh_id_fresh in Hob.
Qed.

Lemma all_objects_elem c (objs : gmap nat Obj) o :
  o ∈ all_objects c objs ↔
  ∃ ob, objs !! o = Some ob ∧ in_collection c ob = true.
Proof.
  unfold all_objects. rewrite list_elem_of_filter, elem_of_elements, elem_of_dom.
  unfold obj_test. destruct (objs !! o) as [ob|]; simpl.
  - rewrite Is_true_true. split; [intros [? _]; eauto|].
    intros (ob' & [= <-] & ?). eauto.
  - split; [by intros [? _]|]. by intros (ob & ? & _).
Qed.

(** C4, as the code has it: when the joining loop and the adjustment of
    the selection have returned, no mesh that was under a collection to
    join before the loop is selected; every joined mesh is an object made
    by the loop and is selected; the joined meshes are distinct; and they
    are, in order, one for each collection to join that had a mesh to
    select (a mesh under it that the view layer has and that was not
    recorded as hidden), each a mesh linked to its collection or to one
    below it.  A collection to join with no mesh to select gets no joined
    mesh.  The name a joined mesh ends up with is the host's choice. *)
Theorem merge_adjustment_selects_joined faults view_layer
    collection_to_export hidden names units s s' :
  is_Some (view_layers s !! window_view_layer s) →
  joined_meshes s = [] → duplicated_meshes s = [] →
  abort_postjoin_meshes s = [] →
  (for_each (join_round faults view_layer hidden names) 0 units >>
   select_for_export faults view_layer collection_to_export hidden units) s
  = (Returns tt, s') →
  (∀ o, unit_mesh units (objects s) o → o ∉ selected_objects s') ∧
  (∀ m, m ∈ joined_meshes s' →
        objects s !! m = None ∧ m ∈ selected_objects s') ∧
  NoDup (joined_meshes s') ∧
  Forall2 (joined_for s') (joined_meshes s')
    (joined_units view_layer hidden units s).
Proof.
  intros Hl Hj Hd Ha Hrun. unfold bind in Hrun.
  destruct (for_each (join_round faults view_layer hidden names) 0 units s)
    as [[[]|e] sr] eqn:Hrounds; [|done].
  pose proof (rounds_inv_start view_layer hidden s Hl Hj Hd Ha) as Hinv0.
  destruct (join_rounds_inv _ _ _ _ _ _ _ _ _ _ Hinv0 Hrounds)
    as (Hidle & Hsame & Hcopies & Hnodup & Hnamed).
  simpl in Hnamed.
  pose proof (join_idle_layer _ _ Hidle) as Hlr.
  apply select_for_export_spec in Hrun as (sel & -> & Hsel); [|done].
  rewrite selected_with_selected by done.
  destruct Hidle as ((_ & Horig & Hlists & _) & _).
  rewrite Forall_app in Hlists. destruct Hlists as [Hjoined _].
  rewrite Forall_forall in Hjoined.
  split; [|split; [|split]].
  - intros o (c & Hc & Hin & Hmesh) [Hjo|(_ & _ & _ & Hn)]%Hsel.
    + apply all_objects_elem in Hin as (ob & Hob & _).
      specialize (Hjoined o Hjo). congruence.
    + apply Hn. exists c. split; [done|].
      pose proof Hin as (ob & Hob & Hcoll)%all_objects_elem.
      assert (objects sr !! o = Some ob) as Hobr.
      { rewrite Horig; [done|by eexists]. }
      split.
      * apply all_objects_elem. by exists ob.
      * unfold obj_test in *. by rewrite Hobr, Hob in *.
  - intros m Hm. split; [by apply Hjoined|]. apply Hsel. by left.
  - exact Hnodup.
  - exact Hnamed.
Qed.

Lemma merge_adjustment_selects_joined_witness :
  let s := ex_state None in
  let s' := ((for_each (join_round no_faults 0 [] ex_join_names) 0 [sc_C; sc_D] >>
              select_for_export no_faults 0 sc_B [] [sc_C; sc_D]) s).2 in
  (∀ o, unit_mesh [sc_C; sc_D] (objects s) o → o ∉ selected_objects s') ∧
  (∀ m, m ∈ joined_meshes s' →
        objects s !! m = None ∧ m ∈ selected_objects s') ∧
  NoDup (joined_meshes s') ∧
  Forall2 (joined_for s') (joined_meshes s')
    (joined_units 0 [] [sc_C; sc_D] s).
Proof.
  cbv zeta.
  apply (merge_adjustment_selects_joined no_faults 0 sc_B [] ex_join_names
           [sc_C; sc_D] (ex_state None)).
  - vm_compute. by eexists.
  - reflexivity.
  - reflexivity.
  - reflexivity.
  - vm_compute. reflexivity.
Defined.

(** C4 as stated fails: [C] and [D] are both to be joined, [D] has no
    object; the joining makes one mesh, for [C], and none for [D]; the
    exporter is called with the light of [B] and that one joined mesh. *)
Lemma merge_unit_without_joined_leaf :
  let s := ex_state_empty_D None in
  let r := (for_each (join_round no_faults 0 [] ex_join_names) 0 [sc_C; sc_D] >>
            select_for_export no_faults 0 sc_B [] [sc_C; sc_D]) s in
  r.1 = Returns tt ∧
  joined_meshes r.2 = [15] ∧
  selected_objects r.2 = [13; 15] ∧
  let run := execute (ex_env ex_join_config) no_faults sc_B
               (ex_state_empty_D (Some ex_join_text)) in
  run.1 = Returns FINISHED ∧ (exported run.2).*2 = [[13; 15]].
Proof. repeat split; vm_compute; reflexivity. Qed.

(** ** A run with a host that does as asked *)

Lemma hoare_of_returns {A} (I : State → Prop) (m : M A) (E : State → Prop) :
  returns m → stable I m → hoare I m (λ _, I) E.
Proof.
  intros Hr Hs s HI. specialize (Hs s HI).
  destruct (Hr s) as (a & s' & Heq). by rewrite Heq in *.
Qed.

Lemma hoare_try_finally_frame {A} P (body : M A) cleanup
    (Q : A → State → Prop) E :
  returns cleanup → (∀ a, stable (Q a) cleanup) → stable E cleanup →
  hoare P body Q E → hoare P (try_finally body cleanup) Q E.
Proof.
  intros Hr HQ HE Hbody. eapply hoare_try_finally; [done|exact Hbody|..].
  - intros a. by apply hoare_stable.
  - by apply hoare_stable.
Qed.

(** Walks through a statement that has no [raise] in it. *)
Ltac returns_walk :=
  repeat first
    [ apply returns_ret
    | apply returns_modify
    | apply returns_gets
    | apply returns_bind; [|intros ?]
    | apply returns_for_each; intros ? ?
    | lazymatch goal with
      | |- returns (if ?b then _ else _) => destruct b
      | |- returns (match ?x with _ => _ end) => destruct x
      end ].

Lemma returns_select_included view_layer c hidden mesh_only :
  returns (select_included_objects_in_collection view_layer c hidden mesh_only).
Proof. unfold select_included_objects_in_collection. returns_walk. Qed.

Lemma returns_select_for_export faults view_layer cte hidden units :
  f_select faults = false → f_deselect faults = false →
  f_reselect faults = false →
  returns (select_for_export faults view_layer cte hidden units).
Proof.
  intros H1 H2 H3. unfold select_for_export. rewrite H1, H2, H3.
  unfold failing.
  pose proof (returns_select_included view_layer cte hidden false).
  returns_walk; done.
Qed.

Lemma returns_restore_global_properties save :
  returns (restore_global_properties save).
Proof. unfold restore_global_properties. returns_walk. Qed.

Lemma run_kept_frame log0 reports0 s s' :
  exported s' = exported s → reports s' = reports s →
  is_Some (view_layers s' !! window_view_layer s') →
  run_kept log0 reports0 s → run_kept log0 reports0 s'.
Proof. intros He Hr Hl (<- & <- & _). by repeat split. Qed.

(** Closes the goal of an assignment that leaves the log, the reports
    and the window's view layer. *)
Ltac kept_frame :=
  let st1 := fresh "st" in
  let H := fresh "Hst" in
  let Hl := fresh "Hl" in
  intros st1 H; pose proof H as (_ & _ & Hl);
  eapply run_kept_frame; [..|exact H];
  [ unfold set_hide, select_set, with_selected, with_active, with_flags;
    repeat case_match; by destruct st1
  | unfold set_hide, select_set, with_selected, with_active, with_flags;
    repeat case_match; by destruct st1
  | clear H; unfold set_hide, select_set, with_selected, with_active;
    repeat case_match; solve_layer ].

Lemma join_rounds_kept log0 reports0 faults view_layer hidden names units i :
  stable (λ s, exported s = log0 ∧ reports s = reports0)
    (for_each (join_round faults view_layer hidden names) i units).
Proof. stable_walk; stable_frame. Qed.

Lemma select_for_export_kept log0 reports0 faults view_layer cte hidden units :
  stable (λ s, exported s = log0 ∧ reports s = reports0)
    (select_for_export faults view_layer cte hidden units).
Proof. stable_walk; stable_frame. Qed.

(** The call of the exporter and the report, whatever is selected. *)
Lemma export_stage_result faults cte settings s :
  export_stage faults cte settings s
  = let s1 := with_exported
                (λ l, l ++ [(settings, selected_objects s)]) s in
    match f_export faults with
    | ExportFinished =>
        (Returns FINISHED,
         with_reports
           (λ r, r ++ [export_report cte settings (selected_objects s)]) s1)
    | ExportCancelled => (Returns CANCELLED, s1)
    | ExportRaises => (Raises HostError, s1)
    end.
Proof.
  unfold export_stage, bind, gets, modify, report, ret, raise.
  destruct (f_export faults); simpl; try done.
  by destruct (selected_objects s).
Qed.

(** The innermost [try]: with a host that does as asked and a name for
    every collection to join, the exporter is called, once. *)
Lemma join_select_export_runs faults new cte hidden names units settings
    log0 reports0 :
  host_obliges faults →
  (∀ c, c ∈ units → is_Some (names !! cname c)) →
  hoare (λ s, run_kept log0 reports0 s ∧ joined_meshes s = [] ∧
              duplicated_meshes s = [] ∧ abort_postjoin_meshes s = [])
    (join_select_export faults new cte hidden names units settings)
    (exported_once faults cte log0 reports0)
    (export_raised faults log0 reports0).
Proof.
  intros (_ & _ & _ & _ & Hjoin & Hsel & Hdesel & Hresel) Hnames.
  intros s ((He & Hr & Hl) & Hj & Hd & Ha).
  unfold join_select_export. unfold bind at 1.
  pose proof (rounds_inv_start new hidden s Hl Hj Hd Ha) as Hinv.
  destruct (join_rounds_run faults names new hidden s units Hjoin Hnames
              [] 0 s Hinv) as [sr Hrun].
  pose proof (join_rounds_kept log0 reports0 faults new hidden names units 0
                s (conj He Hr)) as Hkr.
  rewrite Hrun in *. simpl in Hkr.
  unfold bind at 1.
  destruct (returns_select_for_export faults new cte hidden units
              Hsel Hdesel Hresel sr) as ([] & ss & Hrun2).
  pose proof (select_for_export_kept log0 reports0 faults new cte hidden units
                sr Hkr) as [Hes Hrs].
  rewrite Hrun2 in *. simpl in Hes, Hrs.
  rewrite export_stage_result. cbv zeta.
  destruct (f_export faults) eqn:Hexp; simpl.
  - exists settings, (selected_objects ss). simpl. rewrite Hes. split; [done|].
    left. by rewrite Hrs.
  - exists settings, (selected_objects ss). simpl. rewrite Hes. split; [done|].
    right. by rewrite Hrs.
  - exists settings, (selected_objects ss). simpl. rewrite Hes. split; [done|].
    by rewrite Hrs.
Qed.
(** From the tuple of the resolver on: with a host that does as asked
    and a name for every collection to join, the run calls the exporter,
    once. *)
Lemma execute_resolved_runs env faults cte exporter_name settings ne rj jn s1 :
  host_obliges faults →
  (∀ c, c ∈ find_topmost_collections rj cte → is_Some (jn !! cname c)) →
  hoare (λ s, s = s1)
    (execute_resolved env faults cte (exporter_name, settings, ne, rj, jn))
    (exported_once faults cte (exported s1) (reports s1))
    (export_raised faults (exported s1) (reports s1)).
Proof.
  intros Hhost Hnames.
  pose proof Hhost as (Hvis & Hadd & Hexcl & Hclear & Hjoin & _).
  unfold execute_resolved. rewrite py_in_str_tuples. cbv zeta.
  set (K := λ s : State, exported s = exported s1 ∧ reports s = reports s1).
  set (R := run_kept (exported s1) (reports s1)).
  apply hoare_bind with (Q1 := λ _, K).
  { apply hoare_gets. by intros s ->. }
  intros saved.
  apply hoare_bind with (Q1 := λ _, K).
  { apply hoare_of_returns.
    - rewrite Hvis. unfold failing. returns_walk.
    - stable_walk; stable_frame. }
  intros [settings' hidden].
  set (units := if bool_decide (0 < length rj)
                then find_topmost_collections rj cte else []).
  assert (Hunits : ∀ c, c ∈ units → is_Some (jn !! cname c)).
  { unfold units. case_bool_decide; [done|].
    intros c Hc. by apply elem_of_nil in Hc. }
  apply hoare_bind with (Q1 := λ _, K).
  { apply (hoare_for_each K). intros i c Hc.
    destruct (Hunits c Hc) as [nm ->]. by apply hoare_ret. }
  intros _.
  apply hoare_bind with (Q1 := λ a s, K s ∧ a = window_view_layer s).
  { by apply hoare_gets. }
  intros saved_view_layer. rewrite Hadd.
  apply hoare_bind
    with (Q1 := λ _ s, R s ∧ window_view_layer s ≠ saved_view_layer).
  { unfold view_layer_add. apply hoare_modify. intros s [[He Hr] ->].
    destruct (view_layer_add_fresh s) as [Hne _]. cbv zeta in Hne.
    split; [|exact Hne].
    repeat split; simpl; try done. rewrite lookup_insert_eq. by eexists. }
  intros _.
  apply hoare_bind with (Q1 := λ a s, R s ∧ a ≠ saved_view_layer).
  { apply hoare_gets. by intros s [? ?]. }
  intros new.
  destruct (bool_decide (new = saved_view_layer)) eqn:Hb.
  { apply bool_decide_eq_true in Hb. by intros s [_ Hne]. }
  apply hoare_try_finally_frame.
  { returns_walk. }
  { intros r. stable_walk; stable_frame. }
  { stable_walk; stable_frame. }
  apply hoare_bind with (Q1 := λ _, R).
  { apply hoare_gets. by intros s [? _]. }
  intros root.
  apply hoare_bind with (Q1 := λ _, R).
  { apply hoare_modify. intros s (He & Hr & [vl Hl]).
    repeat split; try by destruct s.
    unfold with_flags. destruct s as [? ? ? vls w ? ? ? ? ? ?]; simpl in *.
    destruct (decide (new = w)) as [->|Hnw].
    - rewrite lookup_alter_eq, Hl. by eexists.
    - rewrite lookup_alter_ne by done. by eexists. }
  intros _. rewrite Hexcl.
  apply hoare_bind with (Q1 := λ _, R); [by apply hoare_ret|].
  intros _.
  apply hoare_try_finally_frame.
  { apply returns_restore_global_properties. }
  { intros r. stable_walk; stable_frame. }
  { stable_walk; stable_frame. }
  apply hoare_bind with (Q1 := λ _, R).
  { apply hoare_of_returns.
    - apply returns_for_each. intros i [[oc hs] hv]. rewrite Hclear.
      unfold failing. returns_walk.
    - apply (stable_for_each R). intros i [[oc hs] hv].
      apply stable_bind; [apply stable_failing|]. intros _.
      apply stable_modify. intros s (He & Hr & Hl).
      repeat split; by destruct oc, s. }
  intros _.
  apply hoare_bind with (Q1 := λ _ s, R s ∧ joined_meshes s = []).
  { apply hoare_modify. intros s H. split; [by destruct s|done]. }
  intros _.
  apply hoare_bind
    with (Q1 := λ _ s, R s ∧ joined_meshes s = [] ∧ duplicated_meshes s = []).
  { apply hoare_modify. intros s [H Hj]. split; [by destruct s|done]. }
  intros _.
  apply hoare_bind
    with (Q1 := λ _ s, R s ∧ joined_meshes s = [] ∧ duplicated_meshes s = [] ∧
                       abort_postjoin_meshes s = []).
  { apply hoare_modify. intros s (H & Hj & Hd). split; [by destruct s|done]. }
  intros _.
  apply hoare_try_finally_frame.
  { apply returns_remove_created_meshes. }
  { intros r. stable_walk; stable_frame. }
  { stable_walk; stable_frame. }
  by apply join_select_export_runs.
Qed.
(** What the loop over the sections gathers. *)
Lemma scan_sections_acc env config names :
  ∀ ne0 rj0 jn0 ne rj jn,
    scan_sections env config names (ne0, rj0, jn0) = Returns (ne, rj, jn) →
    ne = ne0 ++ filter (λ n, section_unexportable env config n) names ∧
    rj = rj0 ++ filter (λ n, section_joins env config n) names ∧
    ∀ n, jn !! n =
         if decide (n ∈ filter (λ n, section_joins env config n) names)
         then Some (default n (cfg_value env config n "joined_mesh_name"))
         else jn0 !! n.
Proof.
  induction names as [|x names IH]; intros ne0 rj0 jn0 ne rj jn.
  - intros [= <- <- <-]. rewrite !app_nil_r.
    split; [done|]. split; [done|].
    intros n. by rewrite decide_False by apply not_elem_of_nil.
  - cbn [scan_sections].
    assert (Hu : section_unexportable env config x
                 = match cfg_getboolean env config x "exportable" with
                   | Returns (Some false) => true | _ => false end) by done.
    assert (Hj : section_joins env config x
                 = match cfg_getboolean env config x "join_meshes" with
                   | Returns (Some true) => true | _ => false end) by done.
    destruct (cfg_getboolean env config x "exportable") as [exportable|];
      [|done].
    destruct (cfg_getboolean env config x "join_meshes") as [join|]; [|done].
    assert (Hne : (if default true exportable then ne0 else ne0 ++ [x])
                  = ne0 ++ (if section_unexportable env config x
                            then [x] else [])).
    { rewrite Hu. destruct exportable as [[]|]; simpl; by rewrite ?app_nil_r. }
    rewrite Hne. clear Hne.
    assert (Hjoin : default false join = section_joins env config x).
    { rewrite Hj. by destruct join as [[]|]. }
    rewrite Hjoin. clear Hu Hj Hjoin.
    assert (Hval : cfg_value env config x "joined_mesh_name"
                   = match cfg_get env config x "joined_mesh_name" with
                     | Returns v => v | Raises _ => None end) by done.
    destruct (section_joins env config x) eqn:Hj;
      [destruct (cfg_get env config x "joined_mesh_name") as [jmn|];
       [|done]|];
      destruct (section_unexportable env config x) eqn:Hu;
      intros Hrun; apply IH in Hrun as (-> & -> & Hjn);
      rewrite ?(filter_cons_True (λ n, section_unexportable env config n))
        by (by rewrite Hu);
      rewrite ?(filter_cons_False (λ n, section_unexportable env config n))
        by (cbv beta; rewrite Hu; by intros ?);
      rewrite ?(filter_cons_True (λ n, section_joins env config n))
        by (by rewrite Hj);
      rewrite ?(filter_cons_False (λ n, section_joins env config n))
        by (cbv beta; rewrite Hj; by intros ?);
      rewrite <-?app_assoc, ?app_nil_r;
      (split; [done|]); (split; [done|]); intros n; rewrite Hjn;
      try done.
    + destruct (decide (n = x)) as [->|Hnx].
      * rewrite (decide_True (P := x ∈ x :: _)) by left.
        case_decide; [done|]. by rewrite lookup_insert_eq, Hval.
      * rewrite lookup_insert_ne by done.
        destruct (decide (n ∈ filter (λ n, section_joins env config n) names))
          as [Hin|Hin].
        { rewrite decide_True; [done|by right]. }
        { rewrite decide_False; [done|].
          by intros [?|?]%elem_of_cons. }
    + destruct (decide (n = x)) as [->|Hnx].
      * rewrite (decide_True (P := x ∈ x :: _)) by left.
        case_decide; [done|]. by rewrite lookup_insert_eq, Hval.
      * rewrite lookup_insert_ne by done.
        destruct (decide (n ∈ filter (λ n, section_joins env config n) names))
          as [Hin|Hin].
        { rewrite decide_True; [done|by right]. }
        { rewrite decide_False; [done|].
          by intros [?|?]%elem_of_cons. }
Qed.

(** The tuple of the resolver names a joined mesh for every collection
    the run will join. *)
Lemma resolved_names_cover env name s e args ne rj jn s' cte c :
  get_export_settings env name s = (Returns (Some (e, args, ne, rj, jn)), s') →
  c ∈ find_topmost_collections rj cte →
  is_Some (jn !! cname c).
Proof.
  intros Hget Hc.
  apply get_export_settings_some in Hget
    as (txt & config & _ & _ & _ & _ & _ & _ & _ & Hscan).
  apply scan_sections_acc in Hscan as (_ & Hrj & Hjn).
  apply find_topmost_collections_sound in Hc as [_ Hname].
  rewrite Hjn. rewrite app_nil_l in Hrj. rewrite <-Hrj.
  by rewrite decide_True.
Qed.

Lemma hoare_stable_raising {A} (I E : State → Prop) (m : M A) :
  stable I m → (∀ s, I s → E s) → hoare I m (λ _, I) E.
Proof.
  intros Hm HE. eapply hoare_conseq; [by apply hoare_stable|done|done|done].
Qed.

(** From the tuple of the resolver on, whatever the host does: the run
    returns after one call of the exporter, or raises, either at that
    call or before it, and then with nothing exported or reported. *)
Lemma execute_resolved_outcome env faults cte x s1 :
  hoare (λ s, s = s1) (execute_resolved env faults cte x)
    (exported_once faults cte (exported s1) (reports s1))
    (λ s, (exported s = exported s1 ∧ reports s = reports s1) ∨
          export_raised faults (exported s1) (reports s1) s).
Proof.
  destruct x as [[[[exporter_name settings] ne] rj] jn].
  unfold execute_resolved. rewrite py_in_str_tuples. cbv zeta.
  set (I := λ s : State, exported s = exported s1 ∧ reports s = reports s1).
  set (E := λ s : State,
         (exported s = exported s1 ∧ reports s = reports s1) ∨
         export_raised faults (exported s1) (reports s1) s).
  assert (HIE : ∀ s, I s → E s) by (intros s Hs; by left).
  apply hoare_bind with (Q1 := λ _, I).
  { apply hoare_gets. by intros s ->. }
  intros saved.
  apply hoare_bind with (Q1 := λ _, I).
  { apply hoare_stable_raising; [|done]. stable_walk; stable_frame. }
  intros [settings' hidden].
  apply hoare_bind with (Q1 := λ _, I).
  { apply hoare_stable_raising; [|done]. stable_walk; stable_frame. }
  intros _.
  apply hoare_bind with (Q1 := λ _, I); [by apply hoare_gets|].
  intros saved_view_layer.
  apply hoare_bind with (Q1 := λ _, I).
  { apply hoare_stable_raising; [|done]. stable_walk; stable_frame. }
  intros _.
  apply hoare_bind with (Q1 := λ _, I); [by apply hoare_gets|].
  intros new.
  destruct (bool_decide (new = saved_view_layer)); [by apply hoare_raise|].
  apply hoare_try_finally_frame.
  { returns_walk. }
  { intros r. stable_walk; stable_frame. }
  { stable_walk; stable_frame. }
  apply hoare_bind with (Q1 := λ _, I); [by apply hoare_gets|].
  intros root.
  apply hoare_bind with (Q1 := λ _, I).
  { apply hoare_stable_raising; [|done]. stable_walk; stable_frame. }
  intros _.
  apply hoare_bind with (Q1 := λ _, I).
  { apply hoare_stable_raising; [|done]. stable_walk. }
  intros _.
  apply hoare_try_finally_frame.
  { apply returns_restore_global_properties. }
  { intros r. stable_walk; stable_frame. }
  { stable_walk; stable_frame. }
  apply hoare_bind with (Q1 := λ _, I).
  { apply hoare_stable_raising; [|done]. stable_walk; stable_frame. }
  intros _.
  apply hoare_bind with (Q1 := λ _, I).
  { apply hoare_stable_raising; [|done]. stable_walk; stable_frame. }
  intros _.
  apply hoare_bind with (Q1 := λ _, I).
  { apply hoare_stable_raising; [|done]. stable_walk; stable_frame. }
  intros _.
  apply hoare_bind with (Q1 := λ _, I).
  { apply hoare_stable_raising; [|done]. stable_walk; stable_frame. }
  intros _.
  apply hoare_try_finally_frame.
  { apply returns_remove_created_meshes. }
  { intros r. stable_walk; stable_frame. }
  { stable_walk; stable_frame. }
  unfold join_select_export.
  apply hoare_bind with (Q1 := λ _, I).
  { apply hoare_stable_raising; [|done]. stable_walk; stable_frame. }
  intros _.
  apply hoare_bind with (Q1 := λ _, I).
  { apply hoare_stable_raising; [|done]. stable_walk; stable_frame. }
  intros _ s [He Hr]. rewrite export_stage_result. cbv zeta.
  destruct (f_export faults) eqn:Hexp; simpl.
  - exists settings', (selected_objects s). simpl. rewrite He, Hr.
    split; [done|]. by left.
  - exists settings', (selected_objects s). simpl. rewrite He, Hr.
    split; [done|]. by right.
  - right. exists settings', (selected_objects s). simpl. by rewrite He, Hr.
Qed.

(** C7: in every run in which the resolver returns settings, whatever
    the host does, either the exporter is called, once, with whatever is
    selected then, be it nothing, or the run raises before that call with
    nothing exported and nothing reported.  When the exporter is called,
    what the run returns and reports is as the exporter ends: [FINISHED]
    and one report when it finishes, which for an empty selection is the
    warning that the export is empty; [CANCELLED] and no report when it
    is cancelled; the error and no report when it raises.  So no error is
    reported for an empty selection.  And with a host that does what is
    asked of it up to the call of the exporter, the exporter is called. *)
Theorem execute_exports_empty_selection env faults collection_to_export s x s1 :
  get_export_settings env (cname collection_to_export) s
  = (Returns (Some x), s1) →
  let run := execute env faults collection_to_export s in
  ((∃ settings sel added,
      exported run.2 = exported s ++ [(settings, sel)] ∧
      reports run.2 = reports s1 ++ added ∧
      export_outcome faults collection_to_export settings sel run.1 added ∧
      (sel = [] → f_export faults = ExportFinished →
       run.1 = Returns FINISHED ∧
       added = [(WARNING, ExportedEmpty (cname collection_to_export)
                            (settings !! "filepath"))])) ∨
   ((∃ e, run.1 = Raises e) ∧
    exported run.2 = exported s ∧ reports run.2 = reports s1)) ∧
  (host_obliges faults →
   ∃ call, exported run.2 = exported s ++ [call]).
Proof.
  intros Hget run.
  pose proof (get_export_settings_exported env (cname collection_to_export) s)
    as Hexp.
  unfold run, execute, bind. rewrite Hget in *. simpl in Hexp.
  split.
  - pose proof (execute_resolved_outcome env faults collection_to_export x s1
                  s1 eq_refl) as Hrun.
    destruct (execute_resolved env faults collection_to_export x s1)
      as [[r|e] s2]; simpl.
    + left.
      destruct Hrun
        as (settings & sel & Hlog & [(Hf & -> & Hr)|(Hf & -> & Hr)]).
      * exists settings, sel,
          [export_report collection_to_export settings sel].
        unfold export_outcome. rewrite Hlog, Hexp, Hr, Hf.
        split; [done|]. split; [done|]. split; [done|].
        by intros -> _.
      * exists settings, sel, []. unfold export_outcome.
        rewrite Hlog, Hexp, Hr, Hf, app_nil_r. by repeat split.
    + destruct Hrun as [[Hlog Hr]|(settings & sel & Hlog & Hf & Hr)].
      * right. rewrite Hlog, Hexp, Hr. split; [by exists e|done].
      * left. exists settings, sel, []. unfold export_outcome.
        rewrite Hlog, Hexp, Hr, Hf, app_nil_r.
        repeat split; try done. by exists e.
  - intros Hhost.
    destruct x as [[[[exporter_name settings0] ne] rj] jn].
    pose proof (execute_resolved_runs env faults collection_to_export
                  exporter_name settings0 ne rj jn s1 Hhost
                  (λ c, resolved_names_cover _ _ _ _ _ _ _ _ _ _ c Hget)
                  s1 eq_refl) as Hrun.
    destruct (execute_resolved env faults collection_to_export
                (exporter_name, settings0, ne, rj, jn) s1) as [[r|e] s2];
      simpl.
    + destruct Hrun as (settings & sel & Hlog & _).
      exists (settings, sel). by rewrite Hlog, Hexp.
    + destruct Hrun as (settings & sel & Hlog & _).
      exists (settings, sel). by rewrite Hlog, Hexp.
Qed.

Lemma execute_exports_empty_selection_witness :
  let s := ex_state (Some ex_hidden_text) in
  let s1 := (get_export_settings (ex_env ex_hidden_config) "D" s).2 in
  let run := execute (ex_env ex_hidden_config) no_faults sc_D s in
  host_obliges no_faults ∧
  ((∃ settings sel added,
      exported run.2 = exported s ++ [(settings, sel)] ∧
      reports run.2 = reports s1 ++ added ∧
      export_outcome no_faults sc_D settings sel run.1 added ∧
      (sel = [] → f_export no_faults = ExportFinished →
       run.1 = Returns FINISHED ∧
       added = [(WARNING, ExportedEmpty (cname sc_D)
                            (settings !! "filepath"))])) ∨
   ((∃ e, run.1 = Raises e) ∧
    exported run.2 = exported s ∧ reports run.2 = reports s1)) ∧
  ∃ call, exported run.2 = exported s ++ [call].
Proof.
  cbv zeta.
  assert (Hhost : host_obliges no_faults) by by repeat split.
  refine (let T := execute_exports_empty_selection (ex_env ex_hidden_config)
                     no_faults sc_D (ex_state (Some ex_hidden_text)) _ _ _ in
          conj Hhost (conj (proj1 T) (proj2 T Hhost))).
  vm_compute. reflexivity.
Defined.

(** A whole run that ends with nothing selected: [D] is exported with
    [use_visible] and its one mesh is hidden. *)
Lemma execute_empty_selection_example :
  let r := execute (ex_env ex_hidden_config) no_faults sc_D
             (ex_state (Some ex_hidden_text)) in
  r.1 = Returns FINISHED ∧
  (exported r.2).*2 = [[]] ∧
  reports r.2 = [(WARNING, ExportedEmpty "D" (Some (VStr "///D.fbx")))].
Proof. repeat split; vm_compute; reflexivity. Qed.

(** * Further properties of the code *)

(** ** [set_excluded_collections] *)

(** X1 at the example scene: exporting [C], itself listed as not
    exportable, includes [C] and excludes [B] above it. *)
Lemma set_excluded_collections_path_witness :
  NoDup (lc_ids (layer_collection_of ex_A)) ∧
  host_exclude_of
    (set_excluded_collections host_assign_exclude (layer_collection_of ex_A)
       ["C"] 2 false false ∅) 2 = false ∧
  host_exclude_of
    (set_excluded_collections host_assign_exclude (layer_collection_of ex_A)
       ["C"] 2 false false ∅) 1 = true.
Proof.
  assert (Hnd : NoDup (lc_ids (layer_collection_of ex_A))) by compute_done.
  split; [exact Hnd|]. split.
  - refine (proj1 (set_excluded_collections_path host_exclude_of
              host_assign_exclude host_assign_own host_assign_frame
              ["C"] 2 (layer_collection_of ex_A) ∅
              [layer_collection_of ex_A; layer_collection_of ex_B]
              (layer_collection_of ex_C) Hnd _ _) eq_refl); [|done].
    apply (lc_reach_child _ (layer_collection_of ex_B)); [left|].
    apply (lc_reach_child _ (layer_collection_of ex_C)); [left|].
    constructor.
  - refine (proj2 (set_excluded_collections_path host_exclude_of
              host_assign_exclude host_assign_own host_assign_frame
              ["C"] 2 (layer_collection_of ex_A) ∅
              [layer_collection_of ex_A]
              (layer_collection_of ex_B) Hnd _ _) _ _); [|done|done|].
    + apply (lc_reach_child _ (layer_collection_of ex_B)); [left|].
      constructor.
    + compute_done.
Defined.

(** X2 at the example scene: the flag of a collection that is not in the
    tree is the one it had. *)
Lemma set_excluded_collections_frame_witness :
  NoDup (lc_ids (layer_collection_of ex_A)) ∧
  host_exclude_of
    (set_excluded_collections host_assign_exclude (layer_collection_of ex_A)
       ["C"] 1 false false {[ 9 := (true, false) ]}) 9
  = host_exclude_of {[ 9 := (true, false) ]} 9.
Proof.
  assert (Hnd : NoDup (lc_ids (layer_collection_of ex_A))) by compute_done.
  split; [exact Hnd|].
  refine (set_excluded_collections_frame host_exclude_of
            host_assign_exclude host_assign_frame
            ["C"] 1 (layer_collection_of ex_A) false false
            {[ 9 := (true, false) ]} 9 Hnd (or_intror _)).
  compute_done.
Defined.

(** ** [find_topmost_collections] *)

(** X4: nothing is returned exactly when no collection of the tree
    searched bears a requested name; so with no name requested nothing is
    returned. *)
Theorem find_topmost_collections_nil names target :
  find_topmost_collections names target = [] ↔
  ∀ d, d ∈ c_nodes target → cname d ∉ names.
Proof.
  split.
  - intros Hnil d Hd Hname.
    destruct (find_topmost_collections_covers names target d Hd Hname)
      as (r & Hr & _).
    rewrite Hnil in Hr. by apply elem_of_nil in Hr.
  - intros Hnone. apply elem_of_nil_inv. intros r Hr.
    apply find_topmost_collections_sound in Hr as [Hin Hname].
    by apply (Hnone r).
Qed.

(** X5: searching again from each returned collection gives that
    collection back: the result of [find_topmost_collections] is a fixed
    point of the search. *)
Theorem find_topmost_collections_fixed names target :
  flat_map (find_topmost_collections names)
    (find_topmost_collections names target)
  = find_topmost_collections names target.
Proof.
  assert (Hall : Forall (λ r, cname r ∈ names)
                   (find_topmost_collections names target)).
  { apply Forall_forall. intros r Hr.
    by apply find_topmost_collections_sound in Hr as [_ ?]. }
  induction Hall as [|r l Hr _ IH]; [done|]. simpl.
  rewrite IH, find_topmost_collections_unfold. by rewrite decide_True.
Qed.

(** ** [save_global_properties] and [restore_global_properties] *)

(** X6: the hide flags recorded by [save_global_properties] bring the
    objects and the collections back to what they were, when
    [restore_global_properties] runs after the loop that clears the
    flags, and also when that loop stopped at any of its rounds. *)
Theorem restore_global_properties_round_trip faults collection_to_export s :
  let saved := save_global_properties collection_to_export s in
  let cleared :=
    (for_each (λ i '(oc, _, _),
         failing (f_clear_hide faults i) >>
         modify (set_hide oc false false)) 0 saved s).2 in
  let restored := (restore_global_properties saved cleared).2 in
  objects restored = objects s ∧ coll_hide restored = coll_hide s.
Proof.
  intros saved cleared restored.
  apply hide_dirty_clean.
  apply restore_global_properties_clean;
    [apply save_global_properties_of|].
  apply (stable_for_each_elem (hide_dirty (saved.*1.*1) s));
    [|apply hide_dirty_refl].
  intros i [[oc hs] hv] Hx. apply stable_bind; [apply stable_failing|].
  intros _. apply stable_modify. intros st Hst.
  apply set_hide_clear; [|done].
  apply list_elem_of_fmap. exists (oc, hs). split; [done|].
  apply list_elem_of_fmap. by exists (oc, hs, hv).
Qed.

Lemma set_hide_is_clear_keep oc oc' s :
  is_clear oc s → is_clear oc (set_hide oc' false false s).
Proof.
  destruct oc as [o|c], oc' as [o'|c']; simpl; try done.
  - intros (ob & Hob & Hs & Hv).
    destruct (decide (o' = o)) as [->|Hne].
    + rewrite lookup_alter_eq, Hob. by eexists.
    + rewrite lookup_alter_ne by done. by exists ob.
  - unfold coll_hide_of. simpl. intros Hc.
    destruct (decide (c' = c)) as [->|Hne].
    + by rewrite lookup_insert_eq.
    + by rewrite lookup_insert_ne.
Qed.

Lemma set_hide_is_clear_new oc s :
  ref_exists oc s → is_clear oc (set_hide oc false false s).
Proof.
  destruct oc as [o|c]; simpl.
  - intros [ob Hob]. rewrite lookup_alter_eq, Hob. by eexists.
  - intros _. unfold coll_hide_of. simpl. by rewrite lookup_insert_eq.
Qed.

Lemma set_hide_ref_exists oc oc' hs hv s :
  ref_exists oc s → ref_exists oc (set_hide oc' hs hv s).
Proof.
  destruct oc as [o|c], oc' as [o'|c']; simpl; try done.
  intros [ob Hob]. destruct (decide (o' = o)) as [->|Hne].
  - rewrite lookup_alter_eq, Hob. by eexists.
  - rewrite lookup_alter_ne by done. by eexists.
Qed.

Lemma clear_loop_is_clear (f : nat → bool) (l : list (ref * bool * bool)) oc :
  (∀ j, f j = false) →
  ∀ i s,
    ref_exists oc s →
    is_clear oc s ∨ oc ∈ l.*1.*1 →
    is_clear oc
      (for_each (λ i '(oc, _, _),
           failing (f i) >> modify (set_hide oc false false)) i l s).2.
Proof.
  intros Hf. induction l as [|[[oc' hs] hv] l IH]; intros i s Hex Hoc.
  - destruct Hoc as [?|Hin]; [done|]. by apply elem_of_nil in Hin.
  - rewrite for_each_cons. unfold bind at 1. rewrite Hf. simpl.
    apply IH; [by apply set_hide_ref_exists|].
    destruct Hoc as [Hclear|[->|Hin]%elem_of_cons].
    + left. by apply set_hide_is_clear_keep.
    + left. by apply set_hide_is_clear_new.
    + by right.
Qed.

(** X7: when the loop that clears the recorded hide flags has run to its
    end, every object of the collection to export and every collection
    below the scene's has [hide_select] and [hide_viewport] off, so
    nothing under the collection to export is kept from being selected
    by these flags. *)
Theorem hide_flags_cleared faults collection_to_export s :
  (∀ i, f_clear_hide faults i = false) →
  let cleared :=
    (for_each (λ i '(oc, _, _),
         failing (f_clear_hide faults i) >>
         modify (set_hide oc false false))
       0 (save_global_properties collection_to_export s) s).2 in
  (∀ o, o ∈ all_objects collection_to_export (objects s) →
        is_clear (RObj o) cleared) ∧
  (∀ c, c ∈ flat_map c_nodes (cchildren (scene_collection s)) →
        is_clear (RColl (cid c)) cleared).
Proof.
  intros Hf cleared. split.
  - intros o Ho.
    pose proof Ho as (ob & Hob & _)%all_objects_elem.
    apply clear_loop_is_clear; [done|by (simpl; rewrite Hob)|].
    destruct (hide_select ob || hide_viewport ob) eqn:Hflags.
    + right. apply list_elem_of_fmap.
      exists (RObj o, hide_select ob). split; [done|].
      apply list_elem_of_fmap. exists (RObj o, hide_select ob, hide_viewport ob).
      split; [done|]. unfold save_global_properties.
      apply elem_of_app. left. apply list_elem_of_omap.
      exists o. split; [done|]. rewrite Hob. simpl. by rewrite Hflags.
    + left. exists ob. split; [done|].
      by apply orb_false_iff in Hflags.
  - intros c Hc. apply clear_loop_is_clear; [done|done|].
    destruct (coll_hide_of s (cid c)) as [hs hv] eqn:Hcoll.
    destruct (hs || hv) eqn:Hflags.
    + right. apply list_elem_of_fmap. exists (RColl (cid c), hs).
      split; [done|]. apply list_elem_of_fmap.
      exists (RColl (cid c), hs, hv). split; [done|].
      unfold save_global_properties. apply elem_of_app. right.
      apply list_elem_of_omap. exists c. split; [done|].
      by rewrite Hcoll, Hflags.
    + left. simpl. rewrite Hcoll.
      apply orb_false_iff in Hflags as [-> ->]. done.
Qed.

Lemma hide_flags_cleared_witness :
  (∀ i, f_clear_hide no_faults i = false) ∧
  is_clear (RObj 12)
    (for_each (λ i '(oc, _, _),
         failing (f_clear_hide no_faults i) >>
         modify (set_hide oc false false))
       0 (save_global_properties sc_B (ex_state None)) (ex_state None)).2 ∧
  is_clear (RColl 3)
    (for_each (λ i '(oc, _, _),
         failing (f_clear_hide no_faults i) >>
         modify (set_hide oc false false))
       0 (save_global_properties sc_B (ex_state None)) (ex_state None)).2.
Proof.
  assert (Hf : ∀ i, f_clear_hide no_faults i = false) by done.
  split; [exact Hf|].
  destruct (hide_flags_cleared no_faults sc_B (ex_state None) Hf) as [Ho Hc].
  split.
  - apply (Ho 12). apply list_elem_of_In. vm_compute. tauto.
  - apply (Hc sc_D). apply list_elem_of_In. vm_compute. tauto.
Defined.

(** ** Selecting, joining and removing *)



(** X9: when [select_for_export] returns it has changed nothing but the
    selection, and what is selected is exactly: the joined meshes, and
    the objects of the collection to export that the view layer has and
    that were not recorded as hidden, but for the meshes under a
    collection to join. *)
Theorem select_for_export_selects faults view_layer collection_to_export
    hidden units s s' :
  is_Some (view_layers s !! window_view_layer s) →
  select_for_export faults view_layer collection_to_export hidden units s
  = (Returns tt, s') →
  s' = with_selected (λ _, selected_objects s') s ∧
  ∀ o, o ∈ selected_objects s' ↔
       o ∈ joined_meshes s ∨
       (o ∈ all_objects collection_to_export (objects s) ∧
        o ∈ view_layer_objects view_layer s ∧ o ∉ hidden ∧
        ¬ unit_mesh units (objects s) o).
Proof.
  intros Hl Hrun.
  apply select_for_export_spec in Hrun as (sel & -> & Hsel); [|done].
  rewrite selected_with_selected by done. by split.
Qed.

Lemma select_for_export_selects_witness :
  is_Some (view_layers (ex_state None) !! window_view_layer (ex_state None)) ∧
  ∀ o, o ∈ selected_objects
             (select_for_export no_faults 0 sc_B [] [sc_C] (ex_state None)).2 ↔
       o ∈ joined_meshes (ex_state None) ∨
       (o ∈ all_objects sc_B (objects (ex_state None)) ∧
        o ∈ view_layer_objects 0 (ex_state None) ∧ o ∉ [] ∧
        ¬ unit_mesh [sc_C] (objects (ex_state None)) o).
Proof.
  assert (Hl : is_Some (view_layers (ex_state None)
                          !! window_view_layer (ex_state None)))
    by (vm_compute; by eexists).
  split; [exact Hl|].
  refine (proj2 (select_for_export_selects no_faults 0 sc_B [] [sc_C]
                   (ex_state None) _ Hl _)).
  vm_compute. reflexivity.
Defined.

(** X10: a round of the joining loop that returns has either found no
    mesh to select in the collection, and then it has made no object and
    recorded no joined mesh; or it has made exactly one object, a copy
    of a mesh it selected in the collection, under the names the host
    gave when asked for the name resolved for the collection's joined
    mesh, and recorded it as the last joined mesh; the duplicates it made
    on the way are gone. *)
Theorem join_round_makes_one faults view_layer hidden names i c s s' :
  is_Some (view_layers s !! window_view_layer s) →
  join_round faults view_layer hidden names i c s = (Returns tt, s') →
  (selectable_meshes view_layer hidden c s = [] ∧
   objects s' = objects s ∧ joined_meshes s' = joined_meshes s) ∨
  (∃ o ob nm,
     o ∈ selectable_meshes view_layer hidden c s ∧
     objects s !! o = Some ob ∧ names !! cname c = Some nm ∧
     objects s !! fresh_id (objects s) = None ∧
     fresh_id (objects s) ∉ joined_meshes s ∧
     joined_meshes s' = joined_meshes s ++ [fresh_id (objects s)] ∧
     objects s'
     = <[fresh_id (objects s) := with_names (joined_names faults i nm) ob]>
         (objects s)).
Proof.
  intros Hl Hrun.
  destruct (join_round_returns _ _ _ _ _ _ _ _ Hl Hrun)
    as [?|(o & ob & nm & ? & ? & ? & ? & ? & ?)]; [by left|].
  right. exists o, ob, nm. repeat split; try done. apply fresh_id_fresh.
Qed.

Lemma join_round_makes_one_witness :
  is_Some (view_layers (ex_state None) !! window_view_layer (ex_state None)) ∧
  ((selectable_meshes 0 [] sc_C (ex_state None) = [] ∧
    objects (join_round no_faults 0 [] ex_join_names 0 sc_C (ex_state None)).2
    = objects (ex_state None) ∧
    joined_meshes
      (join_round no_faults 0 [] ex_join_names 0 sc_C (ex_state None)).2
    = joined_meshes (ex_state None)) ∨
   (∃ o ob nm,
      o ∈ selectable_meshes 0 [] sc_C (ex_state None) ∧
      objects (ex_state None) !! o = Some ob ∧
      ex_join_names !! cname sc_C = Some nm ∧
      objects (ex_state None) !! fresh_id (objects (ex_state None)) = None ∧
      fresh_id (objects (ex_state None)) ∉ joined_meshes (ex_state None) ∧
      joined_meshes
        (join_round no_faults 0 [] ex_join_names 0 sc_C (ex_state None)).2
      = joined_meshes (ex_state None) ++ [fresh_id (objects (ex_state None))] ∧
      objects
        (join_round no_faults 0 [] ex_join_names 0 sc_C (ex_state None)).2
      = <[fresh_id (objects (ex_state None)) :=
            with_names (joined_names no_faults 0 nm) ob]>
          (objects (ex_state None)))).
Proof.
  assert (Hl : is_Some (view_layers (ex_state None)
                          !! window_view_layer (ex_state None)))
    by (vm_compute; by eexists).
  assert (Hrun : join_round no_faults 0 [] ex_join_names 0 sc_C (ex_state None)
                 = (Returns tt,
                    (join_round no_faults 0 [] ex_join_names 0 sc_C
                       (ex_state None)).2))
    by (vm_compute; reflexivity).
  split; [exact Hl|].
  exact (join_round_makes_one no_faults 0 [] ex_join_names 0 sc_C
           (ex_state None) _ Hl Hrun).
Defined.

(** X11: the [finally] block that removes what the joining made never
    raises, and it removes exactly the objects the three lists name: no
    such object is left, every other object is as it was. *)
Theorem remove_created_meshes_removes s :
  (∃ s', remove_created_meshes s = (Returns tt, s')) ∧
  ∀ o, objects (remove_created_meshes s).2 !! o =
       if decide (o ∈ joined_meshes s ++ duplicated_meshes s
                      ++ abort_postjoin_meshes s)
       then None else objects s !! o.
Proof.
  split; [|apply remove_created_meshes_lookup].
  destruct (returns_remove_created_meshes s) as ([] & s' & Hs'). by exists s'.
Qed.

(** ** [get_export_settings] and the document *)

(** X12: [get_export_settings] changes nothing but the document and the
    reports: the objects, the hide flags, the view layers, the window's
    view layer and the scene's tree are as before, and the exporter is
    not called. *)
Theorem get_export_settings_touches_only_document env name s :
  objects (get_export_settings env name s).2 = objects s ∧
  coll_hide (get_export_settings env name s).2 = coll_hide s ∧
  scene_collection (get_export_settings env name s).2 = scene_collection s ∧
  view_layers (get_export_settings env name s).2 = view_layers s ∧
  window_view_layer (get_export_settings env name s).2 = window_view_layer s ∧
  exported (get_export_settings env name s).2 = exported s.
Proof.
  apply (final_hoare _ (λ s', objects s' = objects s ∧
                              coll_hide s' = coll_hide s ∧
                              scene_collection s' = scene_collection s ∧
                              view_layers s' = view_layers s ∧
                              window_view_layer s' = window_view_layer s ∧
                              exported s' = exported s)); [|done].
  apply hoare_stable. stable_walk; intros st Hst; by destruct st.
Qed.

Lemma string_app_nil_r (s : string) : s +:+ "" = s.
Proof.
  induction s as [|c s IH]; [done|].
  change (String c (s +:+ "") = String c s). by rewrite IH.
Qed.

Lemma string_app_assoc (s1 s2 s3 : string) :
  (s1 +:+ s2) +:+ s3 = s1 +:+ s2 +:+ s3.
Proof.
  induction s1 as [|c s1 IH]; [done|].
  change (String c ((s1 +:+ s2) +:+ s3) = String c (s1 +:+ s2 +:+ s3)).
  by rewrite IH.
Qed.

(** The text with a section appended starts with the text. *)
Lemma appended_text_prefix text collection_name filename :
  ∃ rest, appended_text text collection_name filename = text +:+ rest.
Proof.
  unfold appended_text. case_bool_decide.
  - eexists. by rewrite string_app_assoc.
  - by eexists.
Qed.

Lemma hoare_pure {A} (P : State → Prop) (φ : Prop) (m : M A) Q E :
  (φ → hoare P m Q E) → hoare (λ s, P s ∧ φ) m Q E.
Proof. intros Hm s [Hs Hφ]. by apply Hm. Qed.

Lemma stable_append_new_section t collection_name filename :
  stable (text_kept t)
    (append_new_section_to_config_file collection_name filename).
Proof.
  intros s [rest Hs]. unfold append_new_section_to_config_file, bind, gets,
    modify. simpl. rewrite Hs. simpl.
  destruct (appended_text_prefix (t +:+ rest) collection_name filename)
    as [rest' ->].
  exists (rest +:+ rest'). by rewrite string_app_assoc.
Qed.

Ltac text_walk :=
  repeat first
    [ apply stable_append_new_section
    | stable_step
    | progress cbv zeta
    | lazymatch goal with
      | |- stable _ (exporter_arg_rounds _ _ _ _ _) =>
          apply stable_exporter_arg_rounds; intros ? ?
      | |- stable _ ?m => let h := head_of m in progress unfold h
      end ].

(** X13: [get_export_settings] never drops what a document that is not
    blank holds: afterwards the document starts with the text it had,
    and when the document has a section for the collection it is that
    text, whatever the resolver reports or raises. *)
Theorem get_export_settings_keeps_document env name s t :
  texts s = Some t → is_blank env t = false →
  (∃ rest, texts (get_export_settings env name s).2 = Some (t +:+ rest)) ∧
  (∀ config, read_string env t = Returns config →
             has_section config name = true →
             texts (get_export_settings env name s).2 = Some t).
Proof.
  intros Ht Hblank. split.
  - apply (final_hoare _ (λ st, texts st = Some t) (text_kept t)); [|done].
    assert (Hkept : ∀ st, texts st = Some t → text_kept t st).
    { intros st Hst. exists "". by rewrite string_app_nil_r. }
    unfold get_export_settings.
    apply hoare_bind with (Q1 := λ a st, texts st = Some t ∧ a = Some t).
    { apply hoare_gets. by intros st ->. }
    intros a.
    apply hoare_bind with (Q1 := λ x st, text_kept t st ∧ x.2 = false).
    { intros st [Hst ->]. rewrite Hblank. unfold bind, lift, ret.
      destruct (read_string env t); simpl; auto. }
    intros [config create]. apply hoare_pure. simpl. intros ->.
    cbv beta iota. apply hoare_stable. text_walk;
      intros st [rest Hst]; exists rest; by destruct st.
  - intros config Hread Hsec.
    apply (final_hoare _ (λ st, texts st = Some t) (λ st, texts st = Some t));
      [|done].
    unfold get_export_settings.
    apply hoare_bind with (Q1 := λ a st, texts st = Some t ∧ a = Some t).
    { apply hoare_gets. by intros st ->. }
    intros a.
    apply hoare_bind
      with (Q1 := λ x st, texts st = Some t ∧ x = (config, false)).
    { intros st [Hst ->]. rewrite Hblank. unfold bind, lift, ret.
      by rewrite Hread. }
    intros x. apply hoare_pure. intros ->. cbv beta iota.
    apply hoare_bind
      with (Q1 := λ x st, texts st = Some t ∧ x = (config, false)).
    { rewrite Hsec. by apply hoare_ret. }
    intros x. apply hoare_pure. intros ->. cbv beta iota.
    apply hoare_stable. stable_walk; intros st Hst; by destruct st.
Qed.

Lemma get_export_settings_keeps_document_witness :
  texts (ex_state (Some ex_join_text)) = Some ex_join_text ∧
  is_blank (ex_env ex_join_config) ex_join_text = false ∧
  texts (get_export_settings (ex_env ex_join_config) "B"
           (ex_state (Some ex_join_text))).2 = Some ex_join_text.
Proof.
  assert (Ht : texts (ex_state (Some ex_join_text)) = Some ex_join_text)
    by reflexivity.
  assert (Hblank : is_blank (ex_env ex_join_config) ex_join_text = false)
    by reflexivity.
  split; [exact Ht|]. split; [exact Hblank|].
  exact (proj2 (get_export_settings_keeps_document (ex_env ex_join_config)
                  "B" (ex_state (Some ex_join_text)) ex_join_text Ht Hblank)
           ex_join_config eq_refl eq_refl).
Defined.

(** ** What [execute] does when the resolver refuses *)

(** X14: a collection whose section (or the [[DEFAULT]] section behind
    it) reads [exportable] as false is not exported: [execute] reports
    that it is marked unexportable, returns [CANCELLED], and changes
    nothing else; the exporter is not called and the document is not
    written. *)
Theorem execute_marked_unexportable env faults collection_to_export s txt
    config v :
  texts s = Some txt → is_blank env txt = false →
  read_string env txt = Returns config →
  has_section config (cname collection_to_export) = true →
  cfg_get env config (cname collection_to_export) "exportable"
  = Returns (Some v) →
  convert_to_boolean v = Returns false →
  execute env faults collection_to_export s
  = (Returns CANCELLED,
     with_reports
       (λ r, r ++ [(ERROR, MarkedUnexportable (cname collection_to_export))])
       s).
Proof.
  intros Htxt Hblank Hread Hsec Hget Hconv.
  unfold execute, get_export_settings.
  unfold bind at 1. unfold bind at 1. unfold gets at 1. rewrite Htxt, Hblank.
  unfold bind at 1. unfold bind at 1. unfold lift at 1. rewrite Hread.
  unfold ret at 1. cbv beta iota. unfold bind at 1. rewrite Hsec.
  unfold ret at 1. cbv beta iota. unfold bind at 1. unfold lift at 1.
  unfold cfg_getboolean. rewrite Hget, Hconv. by cbv beta iota.
Qed.

Lemma execute_marked_unexportable_witness :
  execute (ex_env {| cfg_defaults := ∅;
                     cfg_sections := [("B", {[ "exportable" := "No" ]})] |})
    no_faults sc_B (ex_state (Some "[B]"))
  = (Returns CANCELLED,
     with_reports (λ r, r ++ [(ERROR, MarkedUnexportable "B")])
       (ex_state (Some "[B]"))).
Proof.
  exact (execute_marked_unexportable
           (ex_env {| cfg_defaults := ∅;
                      cfg_sections := [("B", {[ "exportable" := "No" ]})] |})
           no_faults sc_B (ex_state (Some "[B]")) "[B]" _ "No"
           eq_refl eq_refl eq_refl eq_refl eq_refl eq_refl).
Defined.

(** X15: an [exportable] value that is not one of the words the parser
    reads as a boolean makes [execute] raise [ValueError]: the call of
    [getboolean] at line 533 is not guarded, unlike the ones of
    [get_exporter_args_from_config].  Nothing is reported and nothing is
    changed. *)
Theorem execute_exportable_not_boolean env faults collection_to_export s txt
    config v e :
  texts s = Some txt → is_blank env txt = false →
  read_string env txt = Returns config →
  has_section config (cname collection_to_export) = true →
  cfg_get env config (cname collection_to_export) "exportable"
  = Returns (Some v) →
  convert_to_boolean v = Raises e →
  e = ValueError ∧
  execute env faults collection_to_export s = (Raises ValueError, s).
Proof.
  intros Htxt Hblank Hread Hsec Hget Hconv.
  assert (e = ValueError) as ->.
  { unfold convert_to_boolean in Hconv. repeat case_match; by simplify_eq. }
  split; [done|].
  unfold execute, get_export_settings.
  unfold bind at 1. unfold bind at 1. unfold gets at 1. rewrite Htxt, Hblank.
  unfold bind at 1. unfold bind at 1. unfold lift at 1. rewrite Hread.
  unfold ret at 1. cbv beta iota. unfold bind at 1. rewrite Hsec.
  unfold ret at 1. cbv beta iota. unfold bind at 1. unfold lift at 1.
  unfold cfg_getboolean. by rewrite Hget, Hconv.
Qed.

Lemma execute_exportable_not_boolean_witness :
  execute (ex_env {| cfg_defaults := ∅;
                     cfg_sections := [("B", {[ "exportable" := "maybe" ]})] |})
    no_faults sc_B (ex_state (Some "[B]"))
  = (Raises ValueError, ex_state (Some "[B]")).
Proof.
  exact (proj2 (execute_exportable_not_boolean
           (ex_env {| cfg_defaults := ∅;
                      cfg_sections := [("B", {[ "exportable" := "maybe" ]})] |})
           no_faults sc_B (ex_state (Some "[B]")) "[B]" _ "maybe" ValueError
           eq_refl eq_refl eq_refl eq_refl eq_refl eq_refl)).
Defined.

(** X16: a collection whose [exporter] is not one of [EXPORTERS] is not
    exported: [execute] reports the unknown exporter, returns
    [CANCELLED], and changes nothing else. *)
Theorem execute_unknown_exporter env faults collection_to_export s txt
    config exportable exporter_name :
  texts s = Some txt → is_blank env txt = false →
  read_string env txt = Returns config →
  has_section config (cname collection_to_export) = true →
  cfg_getboolean env config (cname collection_to_export) "exportable"
  = Returns exportable →
  default true exportable = true →
  cfg_get env config (cname collection_to_export) "exporter"
  = Returns (Some exporter_name) →
  exporter_name ≠ "fbx" →
  execute env faults collection_to_export s
  = (Returns CANCELLED,
     with_reports
       (λ r, r ++ [(ERROR, UnknownExporter exporter_name
                             (cname collection_to_export))])
       s).
Proof.
  intros Htxt Hblank Hread Hsec Hexp Htrue Hget Hne.
  unfold execute, get_export_settings.
  unfold bind at 1. unfold bind at 1. unfold gets at 1. rewrite Htxt, Hblank.
  unfold bind at 1. unfold bind at 1. unfold lift at 1. rewrite Hread.
  unfold ret at 1. cbv beta iota. unfold bind at 1. rewrite Hsec.
  unfold ret at 1. cbv beta iota. unfold bind at 1. unfold lift at 1.
  rewrite Hexp. cbv beta iota. rewrite Htrue. cbn [negb].
  unfold bind at 1. unfold lift at 1. rewrite Hget. cbn [default from_option].
  rewrite bool_decide_eq_true_2; [done|].
  unfold EXPORTERS. by rewrite lookup_singleton_ne.
Qed.

Lemma execute_unknown_exporter_witness :
  execute (ex_env {| cfg_defaults := ∅;
                     cfg_sections := [("B", {[ "exporter" := "obj" ]})] |})
    no_faults sc_B (ex_state (Some "[B]"))
  = (Returns CANCELLED,
     with_reports (λ r, r ++ [(ERROR, UnknownExporter "obj" "B")])
       (ex_state (Some "[B]"))).
Proof.
  refine (execute_unknown_exporter
           (ex_env {| cfg_defaults := ∅;
                      cfg_sections := [("B", {[ "exporter" := "obj" ]})] |})
           no_faults sc_B (ex_state (Some "[B]")) "[B]" _ None "obj"
           eq_refl eq_refl eq_refl eq_refl eq_refl eq_refl eq_refl _).
  done.
Defined.

(** ** The loop over the sections *)

(** X17: when the loop over the sections of the document returns, the
    collections not exportable are the sections that read [exportable]
    as false, the collections requesting a join are the sections that
    read [join_meshes] as true, both in the order of the document, and
    the names of the joined meshes are given for exactly the latter:
    [joined_mesh_name], or else the name of the collection. *)
Theorem scan_sections_lists env config ne rj jn :
  scan_sections env config (sections config) ([], [], ∅)
  = Returns (ne, rj, jn) →
  ne = filter (λ n, section_unexportable env config n) (sections config) ∧
  rj = filter (λ n, section_joins env config n) (sections config) ∧
  ∀ n, jn !! n
       = if decide (n ∈ rj)
         then Some (default n (cfg_value env config n "joined_mesh_name"))
         else None.
Proof.
  intros (-> & -> & Hjn)%scan_sections_acc. split; [done|]. split; [done|].
  intros n. rewrite Hjn, app_nil_l. case_decide; [done|apply lookup_empty].
Qed.

Lemma scan_sections_lists_witness :
  let env := ex_env ex_join_config in
  scan_sections env ex_join_config (sections ex_join_config) ([], [], ∅)
  = Returns ([], ["C"; "D"], ex_join_names) ∧
  [] = filter (λ n, section_unexportable env ex_join_config n)
         (sections ex_join_config) ∧
  ["C"; "D"] = filter (λ n, section_joins env ex_join_config n)
                 (sections ex_join_config) ∧
  ∀ n, ex_join_names !! n
       = if decide (n ∈ ["C"; "D"])
         then Some (default n
                      (cfg_value env ex_join_config n "joined_mesh_name"))
         else None.
Proof.
  cbv zeta.
  assert (Hrun : scan_sections (ex_env ex_join_config) ex_join_config
                   (sections ex_join_config) ([], [], ∅)
                 = Returns ([], ["C"; "D"], ex_join_names))
    by (vm_compute; reflexivity).
  split; [exact Hrun|].
  exact (scan_sections_lists (ex_env ex_join_config) ex_join_config
           [] ["C"; "D"] ex_join_names Hrun).
Defined.

(** X18: the settings [get_export_settings] returns give a joined mesh
    name for every collection [execute] will join, whatever the
    collection to export: the lookups
    [collection_joined_mesh_names[c.name]] of lines 339 and 410 find
    their key. *)
Theorem joined_mesh_names_cover_units env name s e args ne rj jn s'
    collection_to_export c :
  get_export_settings env name s = (Returns (Some (e, args, ne, rj, jn)), s') →
  c ∈ find_topmost_collections rj collection_to_export →
  is_Some (jn !! cname c).
Proof. apply resolved_names_cover. Qed.

Lemma joined_mesh_names_cover_units_witness :
  sc_C ∈ find_topmost_collections ["C"; "D"] sc_B ∧
  is_Some (ex_join_names !! cname sc_C).
Proof.
  assert (Hc : sc_C ∈ find_topmost_collections ["C"; "D"] sc_B)
    by (vm_compute; left).
  split; [exact Hc|].
  refine (joined_mesh_names_cover_units (ex_env ex_join_config) "B"
            (ex_state (Some ex_join_text)) "fbx" _ [] ["C"; "D"]
            ex_join_names _ sc_B sc_C _ Hc).
  vm_compute. reflexivity.
Defined.

(** ** [get_exporter_args_from_config] *)






(** ** A refusal is always reported *)

Lemma exporter_arg_round_none env config section acc kv s s' :
  exporter_arg_round env config section acc kv s = (Returns None, s') →
  ∃ msg, s' = with_reports (λ r, r ++ [(ERROR, msg)]) s.
Proof.
  destruct acc as [args val], kv as [k p].
  unfold exporter_arg_round, bind, lift, ret, report, modify, raise.
  intros Hrun. repeat case_match; simplify_eq; by eexists.
Qed.

Lemma exporter_arg_round_some env config section acc kv s acc' s' :
  exporter_arg_round env config section acc kv s = (Returns (Some acc'), s') →
  s' = s.
Proof.
  destruct acc as [args val], kv as [k p].
  unfold exporter_arg_round, bind, lift, ret, report, modify, raise.
  intros Hrun. repeat case_match; by simplify_eq.
Qed.

Lemma exporter_arg_rounds_none env config section props :
  ∀ acc s s',
    exporter_arg_rounds env config section props acc s = (Returns None, s') →
    ∃ msg, s' = with_reports (λ r, r ++ [(ERROR, msg)]) s.
Proof.
  induction props as [|kv props IH]; intros acc s s'; [done|].
  cbn [exporter_arg_rounds]. unfold bind at 1.
  destruct (exporter_arg_round env config section acc kv s)
    as [[[acc1|]|e] s1] eqn:Hround; [| |done].
  - apply exporter_arg_round_some in Hround as ->. apply IH.
  - intros [= <-]. by eapply exporter_arg_round_none.
Qed.

Ltac error_reported_now :=
  first
    [ by (eexists [], _; split; [simpl; by rewrite ?app_nil_r|constructor])
    | by (eexists [_], _; split;
          [simpl; by rewrite <-?app_assoc|repeat constructor]) ].

(** X20: [get_export_settings] never refuses in silence: whenever it
    returns [None], the last thing it did to the reports was to add an
    error, after at most warnings; [execute] then returns [CANCELLED]. *)
Theorem get_export_settings_refusal_reported env faults collection_to_export
    s s' :
  get_export_settings env (cname collection_to_export) s = (Returns None, s') →
  error_reported s s' ∧
  execute env faults collection_to_export s = (Returns CANCELLED, s').
Proof.
  intros Hrun. split; [|by unfold execute, bind; rewrite Hrun].
  revert Hrun. generalize (cname collection_to_export). intros name.
  unfold get_export_settings.
  unfold make_new_config_file, append_new_section_to_config_file.
  unfold bind, gets, lift, ret, report, modify.
  intros Hrun.
  assert (Hargs : ∀ e c n s0 s1,
    get_exporter_args_from_config env e c n s0 = (Returns None, s1) →
    ∃ msg, s1 = with_reports (λ r, r ++ [(ERROR, msg)]) s0).
  { intros e c n s0 s1. apply exporter_arg_rounds_none. }
  destruct (texts s) as [txt|] eqn:Htxt.
  2:{ cbv beta iota in Hrun.
      repeat case_match; simplify_eq; error_reported_now. }
  destruct (is_blank env txt) eqn:Hblank.
  { cbv beta iota in Hrun.
    repeat case_match; simplify_eq; error_reported_now. }
  destruct (read_string env txt) as [config|] eqn:Hread; [|done].
  destruct (has_section config name) eqn:Hsec.
  2:{ cbv beta iota in Hrun.
      repeat case_match; simplify_eq; error_reported_now. }
  cbv beta iota in Hrun.
  destruct (cfg_getboolean env config name "exportable") as [exportable|];
    [|done].
  destruct (negb (default true exportable));
    [simplify_eq; error_reported_now|].
  destruct (cfg_get env config name "exporter") as [exporter|]; [|done].
  destruct (bool_decide (EXPORTERS env !! _ = None));
    [simplify_eq; error_reported_now|].
  destruct (cfg_get env config name "filename") as [filename|]; [|done].
  destruct (cfg_get env config name "directory") as [directory|]; [|done].
  set (export_dir := default "//" directory) in *.
  set (exporter_name := default "fbx" exporter) in *.
  destruct (bool_decide (take_str 2 export_dir = "./") || _).
  - cbv beta iota in Hrun.
    destruct (negb (is_saved env) && _); [simplify_eq; error_reported_now|].
    destruct (negb (isdir env _)); [simplify_eq; error_reported_now|].
    destruct (get_exporter_args_from_config _ _ _ _ _)
      as [[[args0|]|] s1] eqn:Hget; [| |done].
    + destruct (scan_sections env config (sections config) ([], [], ∅))
        as [[[ne0 rj0] jn0]|]; done.
    + apply Hargs in Hget as [msg ->]. simplify_eq. error_reported_now.
  - destruct (bool_decide (export_dir = ".")).
    + cbv beta iota in Hrun.
      destruct (negb (is_saved env) && _); [simplify_eq; error_reported_now|].
      destruct (negb (isdir env _)); [simplify_eq; error_reported_now|].
      destruct (get_exporter_args_from_config _ _ _ _ _)
        as [[[args0|]|] s1] eqn:Hget; [| |done].
      * destruct (scan_sections env config (sections config) ([], [], ∅))
          as [[[ne0 rj0] jn0]|]; done.
      * apply Hargs in Hget as [msg ->]. simplify_eq. error_reported_now.
    + cbv beta iota in Hrun.
      destruct (negb (is_saved env) && _); [simplify_eq; error_reported_now|].
      destruct (negb (isdir env _)); [simplify_eq; error_reported_now|].
      destruct (get_exporter_args_from_config _ _ _ _ _)
        as [[[args0|]|] s1] eqn:Hget; [| |done].
      * destruct (scan_sections env config (sections config) ([], [], ∅))
          as [[[ne0 rj0] jn0]|]; done.
      * apply Hargs in Hget as [msg ->]. simplify_eq. error_reported_now.
Qed.

Lemma get_export_settings_refusal_reported_witness :
  error_reported (ex_state None)
    (get_export_settings (ex_env empty_config) (cname sc_B) (ex_state None)).2 ∧
  execute (ex_env empty_config) no_faults sc_B (ex_state None)
  = (Returns CANCELLED,
     (get_export_settings (ex_env empty_config) (cname sc_B)
        (ex_state None)).2).
Proof.
  apply (get_export_settings_refusal_reported (ex_env empty_config) no_faults
           sc_B (ex_state None)).
  vm_compute. reflexivity.
Defined.


(** ** The file name *)

Lemma translate_legal s :
  Forall (λ c, c ∉ illegal_chars) (list_ascii_of_string (translate s)).
Proof.
  induction s as [|c s IH]; [constructor|].
  cbn [translate list_ascii_of_string]. constructor; [|done].
  case_bool_decide as Hc; [|done]. compute_done.
Qed.

(** X21: the file name [get_export_settings] puts in [filepath] is free
    of the ten characters of its translation table (backslash, slash,
    colon, star, question mark, the two quotes, less-than, greater-than,
    bar): [filepath] is the export directory joined with one name that
    holds no separator, whatever [filename] the document gives. *)
Theorem get_export_settings_filename_legal env name s e args ne rj jn s' :
  get_export_settings env name s = (Returns (Some (e, args, ne, rj, jn)), s') →
  ∃ export_dir export_filename,
    args !! "filepath" = Some (VStr (joinpath env export_dir export_filename)) ∧
    Forall (λ c, c ∉ illegal_chars) (list_ascii_of_string export_filename).
Proof.
  intros (txt & config & _ & _ & _ & _ & _ & Hfp & _)%get_export_settings_some.
  eexists _, _. split; [exact Hfp|]. apply translate_legal.
Qed.

Lemma get_export_settings_filename_legal_witness :
  ∃ export_dir export_filename,
    (<["filepath" := VStr "///a_b_c.fbx"]> {[ "use_visible" := VBool true ]}
       : gmap string value) !! "filepath"
    = Some (VStr (joinpath (ex_env {| cfg_defaults := ∅;
                                     cfg_sections :=
                                       [("B", {[ "use_visible" := "true";
                                                 "filename" := "a/b:c" ]})] |})
                    export_dir export_filename)) ∧
    Forall (λ c, c ∉ illegal_chars) (list_ascii_of_string export_filename).
Proof.
  refine (get_export_settings_filename_legal
            (ex_env {| cfg_defaults := ∅;
                       cfg_sections :=
                         [("B", {[ "use_visible" := "true";
                                   "filename" := "a/b:c" ]})] |})
            "B" (ex_state (Some "[B]")) "fbx" _ [] [] ∅ _ _).
  vm_compute. reflexivity.
Defined.

(** ** An option the parser cannot read *)

(** X22: when the parser raises while [get_export_settings] reads
    [exportable], [exporter], [filename] or [directory] for the
    collection (an error of the interpolation, or for [exportable] a
    value that is no boolean), [execute] raises that error and nothing
    is changed: no report, no export, and in a first run for the
    collection no section is written to the document. *)
Theorem execute_option_error env faults collection_to_export s txt config e :
  texts s = Some txt → is_blank env txt = false →
  read_string env txt = Returns config →
  cname collection_to_export ≠ "DEFAULT" →
  let name := cname collection_to_export in
  let config' := if has_section config name then config
                 else with_section config name in
  (cfg_getboolean env config' name "exportable" = Raises e ∨
   ∃ exportable,
     cfg_getboolean env config' name "exportable" = Returns exportable ∧
     default true exportable = true ∧
     (cfg_get env config' name "exporter" = Raises e ∨
      ∃ exporter,
        cfg_get env config' name "exporter" = Returns exporter ∧
        default "fbx" exporter = "fbx" ∧
        (cfg_get env config' name "filename" = Raises e ∨
         ∃ filename,
           cfg_get env config' name "filename" = Returns filename ∧
           cfg_get env config' name "directory" = Raises e))) →
  execute env faults collection_to_export s = (Raises e, s).
Proof.
  intros Htxt Hblank Hread Hname name config' Herr.
  unfold execute, get_export_settings. fold name.
  unfold bind at 1. unfold bind at 1. unfold gets at 1. rewrite Htxt, Hblank.
  unfold bind at 1. unfold bind at 1. unfold lift at 1. rewrite Hread.
  unfold ret at 1. cbv beta iota. unfold bind at 1.
  assert (Hadd : (if has_section config name then ret (config, false)
                  else do config0 <~ lift (add_section config name);
                       ret (config0, true)) s
                 = (Returns (config', negb (has_section config name)), s)).
  { unfold config'. destruct (has_section config name); [done|].
    unfold bind, lift. by rewrite add_section_ok. }
  rewrite Hadd. clear Hadd. cbv beta iota.
  unfold bind at 1. unfold lift at 1.
  destruct Herr as [->|(exportable & -> & Htrue & Herr)]; [done|].
  rewrite Htrue. cbn [negb].
  unfold bind at 1. unfold lift at 1.
  destruct Herr as [->|(exporter & -> & Hfbx & Herr)]; [done|].
  rewrite Hfbx, EXPORTERS_fbx.
  unfold bind at 1. unfold lift at 1.
  destruct Herr as [->|(filename & -> & ->)]; [done|].
  done.
Qed.

Lemma execute_option_error_witness :
  execute ex_percent_env no_faults sc_B (ex_state (Some ex_percent_text))
  = (Raises InterpolationError, ex_state (Some ex_percent_text)).
Proof.
  refine (execute_option_error ex_percent_env no_faults sc_B
            (ex_state (Some ex_percent_text)) ex_percent_text
            ex_percent_config InterpolationError
            eq_refl eq_refl eq_refl _ _).
  - done.
  - right. exists None. split; [reflexivity|]. split; [reflexivity|].
    right. exists None. split; [reflexivity|]. split; [reflexivity|].
    by left.
Defined.

(** ** One call of the exporter *)

(** X23: a run of [execute] calls the exporter at most once, whatever
    the host does; and it returns [FINISHED] only when it has called the
    exporter and the exporter has finished. *)
Theorem execute_calls_exporter_once env faults collection_to_export s :
  ∃ new,
    exported (execute env faults collection_to_export s).2
    = exported s ++ new ∧
    length new ≤ 1 ∧
    ((execute env faults collection_to_export s).1 = Returns FINISHED →
     length new = 1 ∧ f_export faults = ExportFinished).
Proof.
  pose proof (get_export_settings_exported env (cname collection_to_export) s)
    as Hexp.
  unfold execute, bind.
  destruct (get_export_settings env (cname collection_to_export) s)
    as [[[x|]|e] s1] eqn:Hget; simpl in Hexp.
  - pose proof (execute_resolved_outcome env faults collection_to_export x s1
                  s1 eq_refl) as Hrun.
    destruct (execute_resolved env faults collection_to_export x s1)
      as [[r|e] s2]; simpl.
    + destruct Hrun as (settings & sel & Hlog & Hout).
      exists [(settings, sel)]. rewrite Hlog, Hexp.
      split; [done|]. split; [simpl; lia|].
      intros [= ->]. split; [done|].
      by destruct Hout as [(? & _)|(_ & ? & _)].
    + destruct Hrun as [[Hlog _]|(settings & sel & Hlog & _)].
      * exists []. rewrite Hlog, Hexp, app_nil_r.
        split; [done|]. split; [simpl; lia|done].
      * exists [(settings, sel)]. rewrite Hlog, Hexp.
        split; [done|]. split; [simpl; lia|done].
  - exists []. simpl. rewrite app_nil_r. split; [done|]. split; [lia|done].
  - exists []. simpl. rewrite app_nil_r. split; [done|]. split; [lia|done].
Qed.

(** ** The options handed to the exporter *)

Lemma final_settings_lookup env exporter_name args k :
  k ∉ ["use_active_collection"; "use_selection"; "check_existing"] →
  final_settings env exporter_name args !! k = args !! k.
Proof.
  intros Hk. unfold final_settings. rewrite py_in_str_tuples.
  assert (k ≠ "use_active_collection" ∧ k ≠ "use_selection" ∧
          k ≠ "check_existing") as (H1 & H2 & H3).
  { repeat split; intros ->; apply Hk; set_solver. }
  destruct (delete "use_selection" (delete "use_active_collection" args)
              !! "check_existing") eqn:Hce; by simplify_map_eq.
Qed.

Lemma final_settings_check_existing env exporter_name args :
  final_settings env exporter_name args !! "check_existing"
  = Some (default (VBool false) (args !! "check_existing")).
Proof.
  unfold final_settings. rewrite py_in_str_tuples.
  destruct (delete "use_selection" (delete "use_active_collection" args)
              !! "check_existing") eqn:Hce; simplify_map_eq; by rewrite ?Hce.
Qed.

(** X3: the options [get_export_settings] read and checked reach the
    exporter as they are: every call a run makes has, for every name but
    [use_active_collection], [use_selection], [check_existing] and
    [use_visible], the value the resolver returned for it, or none when
    it returned none; [check_existing] is the resolver's value, or
    [False] when it gave none; [use_visible] is the resolver's value or
    is left out. *)
Theorem exporter_gets_resolved_options env faults collection_to_export s
    e args ne rj jn s1 :
  get_export_settings env (cname collection_to_export) s
  = (Returns (Some (e, args, ne, rj, jn)), s1) →
  ∃ new,
    exported (execute env faults collection_to_export s).2
    = exported s ++ new ∧
    Forall (λ call,
        call.1 !! "check_existing"
        = Some (default (VBool false) (args !! "check_existing")) ∧
        (∀ k, k ∉ ["use_active_collection"; "use_selection";
                    "check_existing"; "use_visible"] →
              call.1 !! k = args !! k) ∧
        (call.1 !! "use_visible" = None ∨
         call.1 !! "use_visible" = args !! "use_visible"))
      new.
Proof.
  intros Hget.
  pose proof (get_export_settings_exported env (cname collection_to_export) s)
    as Hexp.
  unfold execute, bind. rewrite Hget in *. simpl in Hexp.
  set (P := λ a : gmap string value,
         a !! "check_existing"
         = Some (default (VBool false) (args !! "check_existing")) ∧
         (∀ k, k ∉ ["use_active_collection"; "use_selection";
                     "check_existing"; "use_visible"] →
               a !! k = args !! k) ∧
         (a !! "use_visible" = None ∨
          a !! "use_visible" = args !! "use_visible")).
  assert (Hst : exports_ok P s1
            (execute_resolved env faults collection_to_export
               (e, args, ne, rj, jn) s1).2).
  { apply execute_resolved_exports_ok.
    - split; [apply final_settings_check_existing|]. split.
      + intros k Hk. apply final_settings_lookup. set_solver.
      + right. apply final_settings_lookup. set_solver.
    - split; [|split].
      + rewrite lookup_delete_ne by done. apply final_settings_check_existing.
      + intros k Hk. rewrite lookup_delete_ne by set_solver.
        apply final_settings_lookup. set_solver.
      + left. apply lookup_delete_eq.
    - exists []. by rewrite app_nil_r. }
  destruct Hst as (new & Hnew & HP). exists new. by rewrite Hnew, Hexp.
Qed.

Lemma exporter_gets_resolved_options_witness :
  ∃ new,
    exported (execute (ex_env ex_join_config) no_faults sc_B
                (ex_state (Some ex_join_text))).2
    = exported (ex_state (Some ex_join_text)) ++ new ∧
    Forall (λ call,
        call.1 !! "check_existing"
        = Some (default (VBool false)
                  ((<["filepath" := VStr "///B.fbx"]>
                      {[ "use_visible" := VBool true ]} : gmap string value)
                     !! "check_existing")) ∧
        (∀ k, k ∉ ["use_active_collection"; "use_selection";
                    "check_existing"; "use_visible"] →
              call.1 !! k
              = (<["filepath" := VStr "///B.fbx"]>
                   {[ "use_visible" := VBool true ]} : gmap string value)
                  !! k) ∧
        (call.1 !! "use_visible" = None ∨
         call.1 !! "use_visible"
         = (<["filepath" := VStr "///B.fbx"]>
              {[ "use_visible" := VBool true ]} : gmap string value)
             !! "use_visible"))
      new.
Proof.
  refine (exporter_gets_resolved_options (ex_env ex_join_config) no_faults
            sc_B (ex_state (Some ex_join_text)) "fbx" _ [] ["C"; "D"]
            ex_join_names _ _).
  vm_compute. reflexivity.
Defined.
